(** * Adv_Diff_Supplemental_Materials: the notebooks' parameter cells,
      solver call sites, ellipse fits and IVP synthesis, embedded in Rocq.

    The repository is a set of Jupyter notebooks.  Five notebook texts are
    present in the sources:

    - [Ellipse]   : src/unnamed/part_001, lines 1-385
                    (Ellipse_Approx_Eigenvalues);
    - [Gauss02]   : src/unnamed/part_001, lines 387-697
                    (Gaussian initial condition, Pe = 200);
    - [ShearAvg]  : src/unnamed/part_002
                    (Gaussian initial condition, eps = 0.05);
    - [Anim01a]   : src/Advection_Diffusion/Adv_Diff_IVP_Animation_01.ipynb,
                    lines 1-277 (single mode, inline synthesis);
    - [Anim01b]   : the same file, lines 278-584 (single mode, [evolve_ds]).

    Python floats are idealised: the parameter cells are computed over the
    rationals, the fits and the synthesis over the reals, so rounding and
    NaN arithmetic are not modelled.  The [mathieu_functions] package that
    every notebook imports is not part of the repository; only its calls
    appear here. *)

From Stdlib Require Import ZArith QArith Qround Reals Psatz List.
From stdpp Require Import base strings gmap list pretty.

Abbreviation rat := QArith_base.Q.

(** ** Complex numbers with rational parts (parameter cells) *)

Module QC.

Record cplx : Type := mk { re : rat; im : rat }.

(** Python's [1j]. *)
Definition j : cplx := mk 0 1.

(** complex * real, real * complex and complex / real, componentwise as
    NumPy computes them *)
Definition mulr (z : cplx) (r : rat) : cplx := mk (re z * r)%Q (im z * r)%Q.
Definition rmul (r : rat) (z : cplx) : cplx := mk (r * re z)%Q (r * im z)%Q.
Definition divr (z : cplx) (r : rat) : cplx := mk (re z / r)%Q (im z / r)%Q.

(** componentwise rational equality *)
Definition eqc (z w : cplx) : Prop := (re z == re w)%Q /\ (im z == im w)%Q.

(** squared magnitude: [|z| < |w|] iff [abs2 z < abs2 w] *)
Definition abs2 (z : cplx) : rat := (re z * re z + im z * im z)%Q.

Definition purely_imaginary (z : cplx) : Prop := (re z == 0)%Q.

(** NumPy's [<], [<=] and [>] on complex numbers: the lexicographic order,
    real part first, then imaginary part. *)
Definition ltb (z w : cplx) : bool :=
  match (re z ?= re w)%Q with
  | Lt => true
  | Eq => match (im z ?= im w)%Q with Lt => true | _ => false end
  | Gt => false
  end.

Definition leb (z w : cplx) : bool :=
  match (re z ?= re w)%Q with
  | Lt => true
  | Eq => match (im z ?= im w)%Q with Gt => false | _ => true end
  | Gt => false
  end.

Definition gtb (z w : cplx) : bool := ltb w z.

End QC.

(** ** Complex numbers with real parts (fits and synthesis) *)

Module RC.

Record cplx : Type := mk { re : R; im : R }.

Definition of_R (r : R) : cplx := mk r 0.
Definition zero : cplx := of_R 0.
Definition j : cplx := mk 0 1.

Definition add (z w : cplx) : cplx := mk (re z + re w) (im z + im w).
Definition opp (z : cplx) : cplx := mk (- re z) (- im z).
Definition sub (z w : cplx) : cplx := mk (re z - re w) (im z - im w).
Definition mul (z w : cplx) : cplx :=
  mk (re z * re w - im z * im w) (re z * im w + im z * re w).

(** [np.exp] on a complex number *)
Definition exp (z : cplx) : cplx :=
  mk (Rtrigo_def.exp (re z) * cos (im z)) (Rtrigo_def.exp (re z) * sin (im z)).

(** [np.sqrt] on a complex number: the principal branch *)
Definition sqrt (z : cplx) : cplx :=
  let m := R_sqrt.sqrt (re z * re z + im z * im z) in
  mk (R_sqrt.sqrt ((m + re z) / 2))
     ((if Rle_dec 0 (im z) then 1 else -1) * R_sqrt.sqrt ((m - re z) / 2)).

Definition of_QC (z : QC.cplx) : cplx := mk (Q2R (QC.re z)) (Q2R (QC.im z)).

End RC.

(** ** NumPy array constructors used by the parameter cells *)

(** [np.arange(start, stop, step)]: ceil((stop - start) / step) samples
    [start + i * step].  The quotient is taken over the rationals; NumPy
    takes it in double precision, which gives the same count for the
    committed parameters ([50 / 25] and [50 / 2] over [1 / 25] and
    [1 / 2]). *)
Definition arange (start stop step : rat) : list rat :=
  map (fun i : nat => (start + inject_Z (Z.of_nat i) * step)%Q)
      (seq 0 (Z.to_nat (Qceiling ((stop - start) / step)))).

(** [np.linspace(start, stop, num)] with the default [endpoint=True]:
    [num] samples [start + i * (stop - start) / (num - 1)].  NumPy
    overwrites the last sample with [stop]; over the rationals that is the
    value the formula already gives. *)
Definition linspace (start stop : rat) (num : nat) : list rat :=
  map (fun i : nat =>
         (start + inject_Z (Z.of_nat i)
                  * ((stop - start) / inject_Z (Z.of_nat (num - 1))))%Q)
      (seq 0 num).

(** The same constructor on floats, for the grids whose end points are
    multiples of [np.pi]. *)
Definition rlinspace (start stop : R) (num : nat) : list R :=
  map (fun i : nat => (start + INR i * ((stop - start) / INR (num - 1)))%R)
      (seq 0 num).

(** [X, Y = np.meshgrid(x, y)]: both of shape [(len(y), len(x))], with
    [X[j, i] = x[i]] and [Y[j, i] = y[j]]. *)
Definition meshgrid (x y : list R) : list (list R) * list (list R) :=
  (replicate (length y) x, map (fun v => replicate (length x) v) y).

(** [np.where(cond)[0]] for a one-dimensional array: the indices at which
    the condition holds, in increasing order. *)
Fixpoint where_from {A : Type} (p : A -> bool) (i : nat) (l : list A)
  : list nat :=
  match l with
  | [] => []
  | a :: l' => if p a then i :: where_from p (S i) l'
               else where_from p (S i) l'
  end.

Definition np_where {A : Type} (p : A -> bool) (l : list A) : list nat :=
  where_from p 0 l.

(** ** Cells of literal arithmetic *)




(** ** Calls of the external solver *)

(** One call [A_coefficients(Q, order, symmetry, period)], recorded with
    the arguments the notebook passes. *)
Record solver_call : Type := SolverCall {
  call_q : list QC.cplx;
  call_order : Z;
  call_symmetry : string;
  call_period : string
}.

(** ** Exceptions and cell sequencing *)

(** A raised Python exception: its class and its message. *)
Record exception : Type := Raise { exc_class : string; exc_msg : string }.

(** Running cells in order: the first exception stops the notebook. *)
Definition result (A : Type) : Type := (exception + A)%type.

Definition rbind {A B : Type} (r : result A) (k : A -> result B) : result B :=
  match r with
  | inl e => inl e
  | inr a => k a
  end.

Notation "'try!' x := c 'in' k" := (rbind c (fun x => k))
  (at level 10, x name, c at level 100, k at level 200).

(** [a[-1]] raises [IndexError] on an empty array. *)
Definition index_last {A : Type} (l : list A) : result A :=
  match last l with
  | Some a => inr a
  | None => inl (Raise "IndexError" "index -1 is out of bounds")
  end.

(** [a[0]] raises [IndexError] on an empty array. *)
Definition index_first {A : Type} (l : list A) : result A :=
  match l with
  | a :: _ => inr a
  | [] => inl (Raise "IndexError" "index 0 is out of bounds")
  end.

(** The parameter-guard cell, shared by four notebooks up to its message:
<<
    if qf > 1000:
        print(...)
        raise Warning(msg)
    print(...)
>>
    The two [print] calls only echo [qf] and are left out. *)
Definition guard (msg : string) (qf : rat) : result unit :=
  if Qlt_le_dec 1000 qf then inl (Raise "Warning" msg) else inr tt.

Definition msg_eps : string :=
  "Change either epsilon or k, to reduce the size of q. The current code only works for values q>1000i".

Definition msg_Pe : string :=
  "Change either Pe or k, to reduce the size of q. The current code only works for values q<1000i".

(** ** Array values with broadcasting *)

(** The values the synthesis loop computes with: a complex scalar or a
    two-dimensional complex array (rows of [y], columns of [x]). *)
Inductive val : Type :=
| VScal (z : RC.cplx)
| VArr (a : list (list RC.cplx)).

(** The real counterpart ([.real] of a value). *)
Inductive rval : Type :=
| RScal (r : R)
| RArr (a : list (list R)).

(** The shape of a nested list: its row lengths. *)
Definition shape {A : Type} (a : list (list A)) : list nat := length <$> a.

(** NumPy's broadcasting along one axis, for an operation [f] on the
    members: operands of equal length are paired, an operand of length one
    is stretched to the length of the other, and any other pair of lengths
    raises. *)
Definition broadcast {A B C : Type} (f : A -> B -> option C)
    (l : list A) (k : list B) : option (list C) :=
  if decide (length l = length k)
  then mapM (fun p => f (fst p) (snd p)) (zip l k)
  else match l, k with
       | [a], _ => mapM (f a) k
       | _, [b] => mapM (fun a => f a b) l
       | _, _ => None
       end.

(** Elementwise binary operation.  A scalar combines with every entry of
    an array; two arrays are broadcast along the rows and, row by row,
    along the columns.  (A nested list without rows carries no column
    count: where NumPy still compares the column counts of such an array,
    the operation here returns the empty array.) *)
Definition vlift2 (f : RC.cplx -> RC.cplx -> RC.cplx) (u v : val) : option val :=
  match u, v with
  | VScal a, VScal b => Some (VScal (f a b))
  | VScal a, VArr B => Some (VArr (map (map (f a)) B))
  | VArr A, VScal b => Some (VArr (map (map (fun x => f x b)) A))
  | VArr A, VArr B =>
      VArr <$> broadcast (broadcast (fun a b => Some (f a b))) A B
  end.

Definition vadd : val -> val -> option val := vlift2 RC.add.
Definition vmul : val -> val -> option val := vlift2 RC.mul.

(** Python's [sum(l)]: [0 + l[0] + l[1] + ...].  [np.sum(l, axis=0)] of a
    list of equally shaped arrays has the same value. *)
Fixpoint sum_from (acc : val) (l : list val) : option val :=
  match l with
  | [] => Some acc
  | v :: l' => acc' ← vadd acc v; sum_from acc' l'
  end.

Definition py_sum (l : list val) : option val := sum_from (VScal RC.zero) l.

(** [v.real] *)
Definition vreal (v : val) : rval :=
  match v with
  | VScal z => RScal (RC.re z)
  | VArr a => RArr (map (map RC.re) a)
  end.

Definition rmap (f : R -> R) (v : rval) : rval :=
  match v with
  | RScal r => RScal (f r)
  | RArr a => RArr (map (map f) a)
  end.

(** Python indices: [a[n]] for a loop index and [a[-1]]. *)
Inductive index : Type :=
| At (n : nat)
| Last.

Definition getitem {A : Type} (l : list A) (ix : index) : option A :=
  match ix with
  | At n => l !! n
  | Last => last l
  end.

(** Python's [str] on a non-negative integer. *)
Definition str (n : nat) : string := pretty n.

(** ** The object store *)

Definition loc : Type := positive.

(** The Python objects [evolve_ds] touches.  Cells of the float array behind
    a dataset variable are [None] while they still hold [nan]. *)
Inductive obj : Type :=
| NdR1 (d : list R)
| NdR2 (d : list (list R))
| NdC1 (d : list RC.cplx)
| NdC2 (d : list (list RC.cplx))
| NdC3 (d : list (list (list RC.cplx)))
| NdF3 (d : list (list (list (option R))))
| PyFloats (d : list R)
| PyList (d : list loc)
| PyDict (d : gmap string loc)
| XrDataset (vars : gmap string loc) (time y x : list R).

(** The store, and the log of slice assignments made so far: the array
    written and the time index. *)
Record state : Type := State {
  heap : gmap loc obj;
  writes : list (loc * nat)
}.

(** Store-passing computations that may raise. *)
Definition Py (A : Type) : Type := state -> option (A * state).

Definition ret {A : Type} (a : A) : Py A := fun s => Some (a, s).

Definition bind {A B : Type} (m : Py A) (k : A -> Py B) : Py B :=
  fun s => match m s with
           | Some (a, s') => k a s'
           | None => None
           end.

Notation "'let!' x := c 'in' k" := (bind c (fun x => k))
  (at level 10, x name, c at level 100, k at level 200).

(** A pure, possibly failing, computation on the current store. *)
Definition gets {A : Type} (f : gmap loc obj -> option A) : Py A :=
  fun s => a ← f (heap s); Some (a, s).

(** A new object at a location not in use. *)
Definition alloc (o : obj) : Py loc :=
  fun s => let l := fresh (dom (heap s)) in
           Some (l, State (<[l := o]> (heap s)) (writes s)).

Fixpoint for_each (l : list nat) (body : nat -> Py unit) : Py unit :=
  match l with
  | [] => ret tt
  | i :: l' => let! _ := body i in for_each l' body
  end.

(** [for i in range(n): body] *)
Definition for_range (n : nat) (body : nat -> Py unit) : Py unit :=
  for_each (seq 0 n) body.

(** ** Reading the store *)

Section Reads.

Variable h : gmap loc obj.

Definition read_r1 (l : loc) : option (list R) :=
  match h !! l with Some (NdR1 d) => Some d | _ => None end.
Definition read_r2 (l : loc) : option (list (list R)) :=
  match h !! l with Some (NdR2 d) => Some d | _ => None end.
Definition read_c1 (l : loc) : option (list RC.cplx) :=
  match h !! l with Some (NdC1 d) => Some d | _ => None end.
Definition read_c2 (l : loc) : option (list (list RC.cplx)) :=
  match h !! l with Some (NdC2 d) => Some d | _ => None end.
Definition read_c3 (l : loc) : option (list (list (list RC.cplx))) :=
  match h !! l with Some (NdC3 d) => Some d | _ => None end.
Definition read_floats (l : loc) : option (list R) :=
  match h !! l with Some (PyFloats d) => Some d | _ => None end.
Definition read_list (l : loc) : option (list loc) :=
  match h !! l with Some (PyList d) => Some d | _ => None end.
Definition read_dict (l : loc) : option (gmap string loc) :=
  match h !! l with Some (PyDict d) => Some d | _ => None end.

(** [np.exp(kk * X * (1j))]: the along-channel phase on the grid *)
Definition phase (kk : R) (Xv : list (list R)) : list (list RC.cplx) :=
  map (map (fun x => RC.exp (RC.mul (RC.of_R (kk * x)) RC.j))) Xv.

(** One entry of the list comprehension over [r]:
<<
  2 * As['A'+str(2*r)][ix, 0] * CE[r][ix, :, :]
    * np.exp(-(0.25*As['a'+str(2*r)][ix] + kk**2)*t[i])
>>
    with [ix = k], [kk = K[k]] in the Gaussian notebooks and [ix = -1],
    [kk = k] in the single-mode notebook. *)
Definition CE2n_entry (As CE t : loc) (ix : index) (kk : R) (i r : nat)
  : option val :=
  dAs ← read_dict As;
  lA ← dAs !! ("A" +:+ str (2 * r));
  A ← read_c2 lA;
  Arow ← getitem A ix;
  A0 ← Arow !! 0%nat;
  lCE ← read_list CE;
  lce ← lCE !! r;
  ce ← read_c3 lce;
  ceq ← getitem ce ix;
  la ← dAs !! ("a" +:+ str (2 * r));
  a ← read_c1 la;
  aq ← getitem a ix;
  tv ← read_r1 t;
  ti ← tv !! i;
  v ← vmul (VScal (RC.mul (RC.of_R 2) A0)) (VArr ceq);
  vmul v (VScal (RC.exp (RC.mul (RC.opp (RC.add (RC.mul (RC.of_R 0.25) aq)
                                                (RC.of_R (kk ^ 2))))
                                (RC.of_R ti)))).

(** The term of the first loop of the inline synthesis of the single-mode
    notebook, which carries no time factor:
<<
  2 * As['A'+str(2 * n)][-1, 0] * CE[n][-1, :, :]
>> *)
Definition CE2n_entry0 (As CE : loc) (n : nat) : option val :=
  dAs ← read_dict As;
  lA ← dAs !! ("A" +:+ str (2 * n));
  A ← read_c2 lA;
  Arow ← getitem A Last;
  A0 ← Arow !! 0%nat;
  lCE ← read_list CE;
  lce ← lCE !! n;
  ce ← read_c3 lce;
  ceq ← getitem ce Last;
  vmul (VScal (RC.mul (RC.of_R 2) A0)) (VArr ceq).

(** The [r]-sum: the comprehension over [range(len(CE))], then [sum]. *)
Definition CE2n_sum (As CE t : loc) (ix : index) (kk : R) (i : nat)
  : option val :=
  lCE ← read_list CE;
  terms ← mapM (CE2n_entry As CE t ix kk i) (seq 0 (length lCE));
  py_sum terms.

(** The body of the [k] loop: [coeff.append(cn[k] * CE2n * COS[k])].
    [COS] is the notebook-level list, not an argument of [evolve_ds]. *)
Definition coeff_entry (COS As CE K cn t : loc) (i k : nat) : option val :=
  Kv ← read_r1 K;
  Kk ← Kv !! k;
  CE2n ← CE2n_sum As CE t (At k) Kk i;
  cnv ← read_floats cn;
  cnk ← cnv !! k;
  lCOS ← read_list COS;
  lcos ← lCOS !! k;
  cosk ← read_c2 lcos;
  v ← vmul (VScal (RC.of_R cnk)) CE2n;
  vmul v (VArr cosk).

(** [np.sum(coeff, axis=0).real] after the [k] loop over [range(N)].
    The entries of [coeff] are arrays (each is a product with [COS[k]]);
    for entries of one shape [np.sum] adds them as [sum] does, and the
    empty list gives the scalar 0.  How NumPy stacks entries of unequal
    shapes depends on its version; they are added here as [sum] would. *)
Definition T0_multi (COS As CE K cn t : loc) (N i : nat) : option rval :=
  coeff ← mapM (coeff_entry COS As CE K cn t i) (seq 0 N);
  s ← py_sum coeff;
  Some (vreal s).

(** [(CE2n * np.exp((k * X) * (1j))).real] of the single-mode notebook *)
Definition T0_single (As CE X t : loc) (k : R) (i : nat) : option rval :=
  CE2n ← CE2n_sum As CE t Last k i;
  Xv ← read_r2 X;
  v ← vmul CE2n (VArr (phase k Xv));
  Some (vreal v).

(** [Y[:, 0]] and [X[0, :]].  (A nested list without rows carries no
    column count: [Y[:, 0]] of an array of shape (0, 0) raises, and
    [column0] gives the empty column as for shape (0, n).) *)
Definition column0 (l : loc) : option (list R) :=
  Yv ← read_r2 l; mapM head Yv.
Definition row0 (l : loc) : option (list R) :=
  Xv ← read_r2 l; head Xv.

Definition len_r1 (l : loc) : option nat := length <$> read_r1 l.

End Reads.

(** [acc = acc0; for n in l: acc = acc + f(n)] *)
Fixpoint accumulate (f : nat -> option val) (acc : val) (l : list nat)
  : option val :=
  match l with
  | [] => Some acc
  | n :: l' => v ← f n; acc' ← vadd acc v; accumulate f acc' l'
  end.

(** [v[np.newaxis, :]] needs an array: a zero-dimensional value has no
    axis to slice. *)
Definition as_array (v : rval) : option (list (list R)) :=
  match v with
  | RArr a => Some a
  | RScal _ => None
  end.

(** [np.append(T0, t0[np.newaxis, :], axis=0)]: the slices must have one
    shape. *)
Definition np_append (T0 : list (list (list R))) (t0 : list (list R))
  : option (list (list (list R))) :=
  if decide (Forall (fun sl => shape sl = shape t0) T0)
  then Some (T0 ++ [t0]) else None.

(** [for i in l: T0 = np.append(T0, step(i), axis=0)] *)
Fixpoint append_slices (step : nat -> option (list (list R)))
    (T0 : list (list (list R))) (l : list nat)
  : option (list (list (list R))) :=
  match l with
  | [] => Some T0
  | i :: l' => t0 ← step i; T0' ← np_append T0 t0; append_slices step T0' l'
  end.

(** ** Writing the store *)

(** Broadcasting in an assignment, along one axis: the value has the
    length of the target or length one; any other length raises. *)
Definition assign {A B : Type} (f : A -> B -> option B)
    (v : list A) (old : list B) : option (list B) :=
  if decide (length v = length old)
  then mapM (fun p => f (fst p) (snd p)) (zip v old)
  else match v with
       | [a] => mapM (f a) old
       | _ => None
       end.

(** [data[i, :, :] = v] on one time slice: a scalar fills the slice, an
    array is broadcast to the slice's shape, along the rows and, row by
    row, along the columns. *)
Definition fill_slice (old : list (list (option R))) (v : rval)
  : option (list (list (option R))) :=
  match v with
  | RScal r => Some (map (map (fun _ => Some r)) old)
  | RArr a => assign (assign (fun r _ => Some (Some r))) a old
  end.

(** [ds[var].data[i, :, :] = v] *)
Definition store_slice (ds : loc) (var : string) (i : nat) (v : rval) : Py unit :=
  fun s =>
    match heap s !! ds with
    | Some (XrDataset vars _ _ _) =>
        θ ← vars !! var;
        match heap s !! θ with
        | Some (NdF3 d) =>
            old ← d !! i;
            new ← fill_slice old v;
            Some (tt, State (<[θ := NdF3 (<[i := new]> d)]> (heap s))
                            (writes s ++ [(θ, i)]))
        | _ => None
        end
    | _ => None
    end.

(** A float array of the given dimensions full of [nan]. *)
Definition nan_array (nt ny nx : nat) : list (list (list (option R))) :=
  replicate nt (replicate ny (replicate nx None)).

(** [xr.Dataset({'Theta': xr.DataArray(np.nan, coords, dims)})]: a new
    float array full of [nan] and a new dataset around it. *)
Definition new_dataset (tv ycoord xcoord : list R) : Py loc :=
  let! θ := alloc (NdF3 (nan_array (length tv) (length ycoord)
                                   (length xcoord))) in
  alloc (XrDataset {["Theta" := θ]} tv ycoord xcoord).

(** ** [evolve_ds] *)

(** The block under [## Initialize the array]:
<<
    coords = {"time": t, "y": yscale * Y[:, 0], "x": X[0, :]}
    Temp = xr.DataArray(np.nan, coords=coords, dims=["time", 'y', 'x'])
    ds = xr.Dataset({'Theta': Temp})
>> *)
Definition init_dataset (yscale : R -> R) (X Y t : loc) : Py loc :=
  let! tv := gets (fun h => read_r1 h t) in
  let! ycol := gets (fun h => column0 h Y) in
  let! xrow := gets (fun h => row0 h X) in
  new_dataset tv (yscale <$> ycol) xrow.

(** [evolve_ds(As, CE, K, cn, sigma, X, Y, t)] of the two Gaussian
    notebooks.  Their texts differ in two places, taken as parameters:
    the [y] coordinate ([2 * Y[:, 0]] or [Y[:, 0]]) and the factor applied
    to the real part of the [k]-sum (none or [sigma**2]).  [print(i)] of
    part_001 is left out. *)
Definition evolve_ds_multi (yscale post : R -> R)
    (COS As CE K cn X Y t : loc) : Py loc :=
  let! ds := init_dataset yscale X Y t in
  let! N := gets (fun h => len_r1 h K) in
  let! nt := gets (fun h => len_r1 h t) in
  let! _ := for_range nt (fun i =>
              let! T0 := gets (fun h => T0_multi h COS As CE K cn t N i) in
              store_slice ds "Theta" i (rmap post T0)) in
  ret ds.

(** [evolve_ds(As, CE, k, X, Y, t)] of the single-mode notebook. *)
Definition evolve_ds_single (As CE : loc) (k : R) (X Y t : loc) : Py loc :=
  let! ds := init_dataset (fun v => 2 * v)%R X Y t in
  let! nt := gets (fun h => len_r1 h t) in
  let! _ := for_range nt (fun i =>
              let! T0 := gets (fun h => T0_single h As CE X t k i) in
              store_slice ds "Theta" i T0) in
  ret ds.

(** ** The notebooks *)

(** src/unnamed/part_001, lines 83-123 (parameters and solver call),
    lines 139-159, 215-236, 297-316 (the fits of the three eigenvalue
    pairs) and line 245 (a cell of literal arithmetic).  A fit is given for one sample [Qv] of the slice of [Q] it is
    applied to; NumPy applies it elementwise. *)
Module Ellipse.

Definition ql : list QC.cplx :=
  [ QC.rmul 1.466466 QC.j; QC.rmul 16.466466 QC.j; QC.rmul 47.797797 QC.j ].
Definition gamma : list Z := [2; 26; 82]%Z.
Definition Delta : list Z := [2; 10; 18]%Z.

Definition N : Z := 70.
Definition alpha : Z := 2.
Definition eps : rat := 0.03.

Definition K_test : list rat :=
  linspace 0 (inject_Z N / inject_Z alpha) 1000.
Definition Q : list QC.cplx :=
  map (fun k => QC.divr (QC.mulr QC.j k) (8 * eps)) K_test.
Definition qf : result rat := try! z := index_last Q in inr (QC.im z).

Definition M : Z := 25.

(** [A_vals = A_coefficients(Q, M, 'even', 'one')] *)
Definition solver_cell : solver_call := SolverCall Q M "even" "one".

(** This notebook has no guard cell. *)
Definition run : result solver_call := try! _ := qf in inr solver_cell.

(** [ql[l]], [ql[l].imag], [gamma[l]], [Delta[l]] for the literal
    indices [l = 0, 1, 2] of the three cells *)
Definition ql_at (l : nat) : RC.cplx := RC.of_QC (nth l ql (QC.mk 0 0)).
Definition ql_imag (l : nat) : R := RC.im (ql_at l).
Definition gamma_at (l : nat) : R := IZR (nth l gamma 0%Z).
Definition Delta_at (l : nat) : R := IZR (nth l Delta 0%Z).

(** [np.sqrt(-(ql[l])**2 + Qv**2)] *)
Definition root (l : nat) (Qv : RC.cplx) : RC.cplx :=
  RC.sqrt (RC.add (RC.opp (RC.mul (ql_at l) (ql_at l))) (RC.mul Qv Qv)).

(** The slices a pair's cell cuts the batch into, with the three indices
    they are cut at. *)
Record regions : Type := Regions {
  ls : nat;
  l1 : nat;
  l2 : nat;
  Qs : list QC.cplx;
  Ql : list QC.cplx;
  Ql1 : list QC.cplx;
  Ql2 : list QC.cplx
}.

(** The first lines of each pair's cell, for the exceptional point [qep]
    and the batch [Qb]:
<<
    ls = np.where(Q <= ql[l])[0][-1]
    l1 = np.where(Q > ql[l])[0][0]
    l2 = np.where(Q > 2 * ql[l])[0][0]
    Qs = Q[:ls]
    Ql = Q[l1:]
    Ql1 = Q[l1:l2]
    Ql2 = Q[l2:]
>>
    The first comparison, [below], is [<=] in the cell of the first pair
    and [<] in the other two. *)
Definition split (below : QC.cplx -> QC.cplx -> bool) (qep : QC.cplx)
    (Qb : list QC.cplx) : result regions :=
  try! ls := index_last (np_where (fun q => below q qep) Qb) in
  try! l1 := index_first (np_where (fun q => QC.gtb q qep) Qb) in
  try! l2 := index_first (np_where (fun q => QC.gtb q (QC.rmul 2 qep)) Qb) in
  inr (Regions ls l1 l2 (take ls Qb) (drop l1 Qb)
               (take (l2 - l1) (drop l1 Qb)) (drop l2 Qb)).

Module Pair0.
Definition l : nat := 0.
Definition slices : result regions :=
  split QC.leb (nth l ql (QC.mk 0 0)) Q.
(* Region I *)
Definition a0cs (Qv : RC.cplx) : RC.cplx :=
  RC.sub (RC.of_R (gamma_at l))
         (RC.mul (RC.of_R (Delta_at l / ql_imag l)) (root l Qv)).
Definition a2cs (Qv : RC.cplx) : RC.cplx :=
  RC.add (RC.of_R (gamma_at l))
         (RC.mul (RC.of_R (Delta_at l / ql_imag l)) (root l Qv)).
(* Region II *)
Definition a0cl1 (Qv : RC.cplx) : RC.cplx :=
  RC.mul (RC.of_R (- (Delta_at l / ql_imag l))) (root l Qv).
Definition a2cl1 (Qv : RC.cplx) : RC.cplx :=
  RC.mul (RC.of_R (Delta_at l / ql_imag l)) (root l Qv).
(* Region III *)
Definition a0cl2 (Qv : RC.cplx) : RC.cplx :=
  RC.add (RC.mul (RC.of_R (- 2)) (RC.sqrt (RC.mul Qv Qv)))
         (RC.mul (RC.of_R (INR (4 * l + 1)))
                 (RC.sqrt (RC.mul (RC.of_R 2) Qv))).
Definition a2cl2 (Qv : RC.cplx) : RC.cplx :=
  RC.sub (RC.mul (RC.of_R 2) (RC.sqrt (RC.mul Qv Qv)))
         (RC.mul (RC.of_R (INR (4 * l + 1)))
                 (RC.sqrt (RC.mul (RC.of_R 2) Qv))).
End Pair0.

Module Pair1.
Definition l : nat := 1.
Definition slices : result regions :=
  split QC.ltb (nth l ql (QC.mk 0 0)) Q.
(* Region I *)
Definition a4cs (Qv : RC.cplx) : RC.cplx :=
  RC.sub (RC.of_R (gamma_at l))
         (RC.mul (RC.of_R (Delta_at l / ql_imag l)) (root l Qv)).
Definition a6cs (Qv : RC.cplx) : RC.cplx :=
  RC.add (RC.of_R (gamma_at l))
         (RC.mul (RC.of_R (Delta_at l / ql_imag l)) (root l Qv)).
(* Region II *)
Definition a4cl1 (Qv : RC.cplx) : RC.cplx :=
  RC.mul (RC.of_R (- 1.95 * (Delta_at l / ql_imag l))) (root l Qv).
Definition a6cl1 (Qv : RC.cplx) : RC.cplx :=
  RC.mul (RC.of_R (1.95 * (Delta_at l / ql_imag l))) (root l Qv).
(* Region III *)
Definition a4cl2 (Qv : RC.cplx) : RC.cplx :=
  RC.add (RC.mul (RC.of_R (- 1.9)) (RC.sqrt (RC.mul Qv Qv)))
         (RC.mul (RC.of_R (INR (4 * l + 1)))
                 (RC.sqrt (RC.mul (RC.of_R 2) Qv))).
Definition a6cl2 (Qv : RC.cplx) : RC.cplx :=
  RC.sub (RC.mul (RC.of_R 1.9) (RC.sqrt (RC.mul Qv Qv)))
         (RC.mul (RC.of_R (INR (4 * l + 1)))
                 (RC.sqrt (RC.mul (RC.of_R 2) Qv))).
End Pair1.


Module Pair2.
Definition l : nat := 2.
Definition slices : result regions :=
  split QC.ltb (nth l ql (QC.mk 0 0)) Q.
(* Region I *)
Definition a8cs (Qv : RC.cplx) : RC.cplx :=
  RC.sub (RC.of_R (gamma_at l))
         (RC.mul (RC.of_R (Delta_at l / ql_imag l)) (root l Qv)).
Definition a10cs (Qv : RC.cplx) : RC.cplx :=
  RC.add (RC.of_R (gamma_at l))
         (RC.mul (RC.of_R (Delta_at l / ql_imag l)) (root l Qv)).
(* Region II *)
Definition a8cl1 (Qv : RC.cplx) : RC.cplx :=
  RC.mul (RC.of_R (- 2.5 * (Delta_at l / ql_imag l))) (root l Qv).
Definition a10cl1 (Qv : RC.cplx) : RC.cplx :=
  RC.mul (RC.of_R (2.5 * (Delta_at l / ql_imag l))) (root l Qv).
(* Region III *)
Definition a8cl2 (Qv : RC.cplx) : RC.cplx :=
  RC.add (RC.mul (RC.of_R (- 1.75)) (RC.sqrt (RC.mul Qv Qv)))
         (RC.mul (RC.of_R (INR (4 * l + 1)))
                 (RC.sqrt (RC.mul (RC.of_R 2) Qv))).
Definition a10cl2 (Qv : RC.cplx) : RC.cplx :=
  RC.sub (RC.mul (RC.of_R 1.75) (RC.sqrt (RC.mul Qv Qv)))
         (RC.mul (RC.of_R (INR (4 * l + 1)))
                 (RC.sqrt (RC.mul (RC.of_R 2) Qv))).
End Pair2.

End Ellipse.

(** src/unnamed/part_001, lines 434-488 and 555-573. *)
Module Gauss02.

Definition M : Z := 1.
Definition alpha : Z := 25.
Definition Nk : Z := 50.
Definition Nx : Z := 10 * Nk.
Definition sigma : rat := 1.
Definition Pe : rat := 200.

Definition K : list rat :=
  arange 0 (inject_Z Nk / inject_Z alpha) (1 / inject_Z alpha).
Definition Q : list QC.cplx :=
  map (fun k => QC.mulr (QC.mulr (QC.mulr QC.j 2) k) Pe) K.
Definition qf : result rat := try! z := index_last Q in inr (QC.im z).

Definition N : Z := 50.
Definition t : list rat := linspace 0 0.25 100.

Definition guard_cell : rat -> result unit := guard msg_eps.

(** [A_vals = A_coefficients(Q, N, 'even', 'one')] *)
Definition solver_cell : solver_call := SolverCall Q N "even" "one".

Definition run_from_guard (qf : rat) : result solver_call :=
  try! _ := guard_cell qf in inr solver_cell.
Definition run : result solver_call := try! q := qf in run_from_guard q.

(** [sigma] is a parameter of the function but is not used in its body. *)
Definition evolve_ds (COS : loc) (As CE K cn : loc) (sigma : R)
    (X Y t : loc) : Py loc :=
  evolve_ds_multi (fun v => 2 * v)%R (fun v => v) COS As CE K cn X Y t.

(** The cell of the Fourier coefficients, lines 536-539, for the values
    of [sigma], [alpha], [K] and [Nk] it finds:
<<
    fac = sigma/alpha
    cn = []
    for n in range(Nk):
        cn.append(fac * np.exp(-((sigma) * K[n])**2))
>>
    The exponential is the real one, which is never 0; [np.exp] underflows
    to 0.0 for large arguments. *)
Definition cn_cell (sigma alpha : R) (Kv : list R) (Nk : nat)
  : option (list R) :=
  let fac := (sigma / alpha)%R in
  mapM (fun n => Kn ← Kv !! n;
                 Some (fac * exp (- ((sigma * Kn) ^ 2)))%R)
       (seq 0 Nk).

End Gauss02.

(** src/unnamed/part_002, lines 47-100 and 166-183. *)
Module ShearAvg.

Definition N : Z := 50.
Definition alpha : Z := 2.
Definition Nx : Z := 500.
Definition sigma : rat := 0.5.
Definition eps : rat := 0.05.
Definition Pe : rat := 1 / eps.

Definition K : list rat :=
  arange 0 (inject_Z N / inject_Z alpha) (1 / inject_Z alpha).
Definition K_test : list rat :=
  linspace 0 (inject_Z N / inject_Z alpha) 1000.
Definition Q : list QC.cplx :=
  map (fun k => QC.divr (QC.mulr (QC.mulr QC.j 2) k) eps) K.
Definition qf : result rat := try! z := index_last Q in inr (QC.im z).

Definition M : Z := 75.
Definition t : list rat := linspace 0 0.25 100.

Definition guard_cell : rat -> result unit := guard msg_eps.

(** [A_vals = A_coefficients(Q, M, 'even', 'one')] *)
Definition solver_cell : solver_call := SolverCall Q M "even" "one".

Definition run_from_guard (qf : rat) : result solver_call :=
  try! _ := guard_cell qf in inr solver_cell.
Definition run : result solver_call := try! q := qf in run_from_guard q.

(** [T0 = (sigma**2)*np.sum(coeff, axis=0).real] *)
Definition evolve_ds (COS : loc) (As CE K cn : loc) (sigma : R)
    (X Y t : loc) : Py loc :=
  evolve_ds_multi (fun v => v) (fun v => sigma ^ 2 * v)%R
                  COS As CE K cn X Y t.

(** The cell of the Fourier coefficients, lines 146-150, for the values
    of [L], [sigma], [K] and [N] it finds:
<<
    fac = np.sqrt(np.pi)*sigma/(2*L)
    arg = ((2 * L) / (np.pi*sigma))**2
    cn = []
    for n in range(N):
        cn.append(fac * np.exp(-K[n]**2/(arg**2)))
>>
    The exponential is the real one, which is never 0; [np.exp] underflows
    to 0.0 for large arguments. *)
Definition cn_cell (L sigma : R) (Kv : list R) (N : nat) : option (list R) :=
  let fac := (sqrt PI * sigma / (2 * L))%R in
  let arg := (((2 * L) / (PI * sigma)) ^ 2)%R in
  mapM (fun n => Kn ← Kv !! n;
                 Some (fac * exp ((- (Kn ^ 2)) / (arg ^ 2)))%R)
       (seq 0 N).

End ShearAvg.

(** src/Advection_Diffusion/Adv_Diff_IVP_Animation_01.ipynb, lines 81-162.
    This text builds the solution inline and defines no [evolve_ds]. *)
Module Anim01a.

Definition alpha : Z := 10.
Definition Nx : Z := 500.
Definition t : list rat := linspace 0 2.5 200.
Definition eps : rat := 0.05.
Definition k : rat := 0.1.
Definition Pe : rat := 1 / eps.

Definition qf : rat := 2 * k / eps.
Definition Q : list QC.cplx :=
  map (fun v => QC.mulr QC.j v) (linspace 0 qf 100).

Definition guard_cell : rat -> result unit := guard msg_eps.

Definition N : Z := 25.

(** [As = A_coefficients(Q, N, 'even', 'one')] *)
Definition solver_cell : solver_call := SolverCall Q N "even" "one".

Definition run_from_guard (qf : rat) : result solver_call :=
  try! _ := guard_cell qf in inr solver_cell.
Definition run : result solver_call := run_from_guard qf.

(** One slice of the inline synthesis: the accumulation loop over
    [range(N//2)] with the given term, then
    [np.real(np.exp((k * X) * (1j)) * CE2n)] and [[np.newaxis, :]]. *)
Definition slice_of (h : gmap loc obj) (X : loc) (k : R) (n2 : nat)
    (term : nat -> option val) : option (list (list R)) :=
  CE2n ← accumulate term (VScal RC.zero) (seq 0 n2);
  Xv ← read_r2 h X;
  v ← vmul (VArr (phase k Xv)) CE2n;
  as_array (vreal v).

(** The cell under "Construct the solution to the IVP", lines 197-212,
    with [n2] the value of [N//2]:
<<
    CE2n = 0
    for n in range(N//2):
        CE2n = CE2n + 2 * As['A'+str(2 * n)][-1, 0] * CE[n][-1, :, :]
    T0 = np.real(np.exp((k * X) * (1j)) * CE2n)
    T0 = T0[np.newaxis, :]
    for i in range(1, len(t)):
        CE2n = 0
        for n in range(N//2):
            CE2n = CE2n + 2 * As['A'+str(2 * n)][-1, 0] * CE[n][-1, :, :]
                   * np.exp(-(0.25 * As['a'+str(2 * n)][-1] + k**2) * t[i])
        t0 = np.real(np.exp((k * X) * (1j)) * CE2n)
        t0 = t0[np.newaxis, :]
        T0 = np.append(T0, t0, axis=0)
>>
    The term of the second loop is the one [evolve_ds] of the other text
    computes. *)
Definition synthesis (h : gmap loc obj) (As CE X t : loc) (k : R) (n2 : nat)
  : option (list (list (list R))) :=
  T0 ← slice_of h X k n2 (CE2n_entry0 h As CE);
  tv ← read_r1 h t;
  append_slices (fun i => slice_of h X k n2 (CE2n_entry h As CE t Last k i))
                [T0] (seq 1 (length tv - 1)).

End Anim01a.

(** src/Advection_Diffusion/Adv_Diff_IVP_Animation_01.ipynb, lines 332-420
    and 455-468. *)
Module Anim01b.

Definition M : Z := 1.
Definition alpha : Z := 10.
Definition Nk : Z := 50.
Definition Nx : Z := 10 * Nk.
Definition t : list rat := linspace 0 2 100.
Definition k : rat := 1 / inject_Z alpha.
Definition Pe : rat := 100.
Definition N : Z := 25.

Definition qf : rat := 2 * k * Pe.
Definition Q : list QC.cplx :=
  map (fun v => QC.mulr QC.j v) (linspace 0 qf 100).

Definition guard_cell : rat -> result unit := guard msg_Pe.

(** [As = A_coefficients(Q, N, 'even', 'one')] *)
Definition solver_cell : solver_call := SolverCall Q N "even" "one".

Definition run_from_guard (qf : rat) : result solver_call :=
  try! _ := guard_cell qf in inr solver_cell.
Definition run : result solver_call := run_from_guard qf.

Definition evolve_ds (As CE : loc) (k : R) (X Y t : loc) : Py loc :=
  evolve_ds_single As CE k X Y t.

End Anim01b.

(** Every call of [A_coefficients] in the sources, in the order of the
    notebooks listed at the top. *)
Definition call_sites : list solver_call :=
  [ Ellipse.solver_cell; Gauss02.solver_cell; ShearAvg.solver_cell;
    Anim01a.solver_cell; Anim01b.solver_cell ].

(** The four guard cells with the notebook text that follows them. *)
Definition guarded_notebooks
  : list ((rat -> result unit) * (rat -> result solver_call) * solver_call) :=
  [ (Gauss02.guard_cell, Gauss02.run_from_guard, Gauss02.solver_cell);
    (ShearAvg.guard_cell, ShearAvg.run_from_guard, ShearAvg.solver_cell);
    (Anim01a.guard_cell, Anim01a.run_from_guard, Anim01a.solver_cell);
    (Anim01b.guard_cell, Anim01b.run_from_guard, Anim01b.solver_cell) ].

(** ** Cells shared by the notebooks *)

(** The cell that builds the list of Mathieu functions, with [vals] the
    dictionary [mfs.ce_even] returned (each entry indexed by [q] and [y]):
<<
    CE = []
    for k in range(N // 2):
        ce = np.repeat(vals['ce'+str(2 * k)][:, :, np.newaxis], Nx, axis=2)
        CE.append(ce)
>> *)
Definition CE_cell (vals : gmap string (list (list RC.cplx))) (N Nx : nat)
  : option (list (list (list (list RC.cplx)))) :=
  mapM (fun k => ce ← vals !! ("ce" +:+ str (2 * k));
                 Some (map (map (replicate Nx)) ce))
       (seq 0 (N / 2)).

(** [np.trapz] of one column with unit spacing: the sum of
    [(c[j+1] + c[j]) / 2].  A [nan] sample (a [None]) among two or more
    makes the result [nan]. *)
Fixpoint trapz (c : list (option R)) : option R :=
  match c with
  | a :: (b :: _) as c' =>
      s ← trapz c'; a' ← a; b' ← b; Some ((b' + a') / 2 + s)%R
  | _ => Some 0%R
  end.

(** The column of a time slice at [x]. *)
Definition column (x : nat) (sl : list (list (option R))) : list (option R) :=
  (fun row => default None (row !! x)) <$> sl.

(** [Tm = np.trapz(ds.Theta, axis=1) * y[1] / np.pi], the cross-channel
    mean: indexed by time and [x]. *)
Definition Tm_cell (h : gmap loc obj) (ds y : loc)
  : option (list (list (option R))) :=
  match h !! ds with
  | Some (XrDataset vars _ _ xc) =>
      θ ← vars !! "Theta";
      match h !! θ with
      | Some (NdF3 d) =>
          yv ← read_r1 h y;
          y1 ← yv !! 1%nat;
          Some (map (fun sl =>
                       map (fun x => r ← trapz (column x sl);
                                     Some (r * y1 / PI)%R)
                           (seq 0 (length xc)))
                    d)
      | _ => None
      end
  | _ => None
  end.

(** ** Predicates the properties are stated with *)

(** A truncation order the solver's documentation accepts. *)
Definition positive_even (n : Z) : Prop := (0 < n)%Z /\ Z.even n = true.

(** The batch is ordered by strictly increasing magnitude. *)
Definition increasing_magnitude (l : list QC.cplx) : Prop :=
  forall (i j : nat) (z w : QC.cplx),
    (i < j)%nat -> l !! i = Some z -> l !! j = Some w ->
    (QC.abs2 z < QC.abs2 w)%Q.

(** The batch [Qb] is the image of the wavenumber array [Kb] under [f]. *)
Definition image_of (f : rat -> QC.cplx) (Qb : list QC.cplx) (Kb : list rat)
  : Prop :=
  Forall2 (fun q k => QC.eqc q (f k)) Qb Kb.

(** [q = i * 2 * k / eps] and [q = i * 2 * k * Pe] *)
Definition q_eps (eps k : rat) : QC.cplx := QC.mk 0 (2 * k / eps).
Definition q_Pe (Pe k : rat) : QC.cplx := QC.mk 0 (2 * k * Pe).

(** [q = i * k / (8 * eps)], the scaling of the ellipse notebook, and
    [q = i * v], a sample of a batch spaced directly in [q] *)
Definition q_eps8 (eps k : rat) : QC.cplx := QC.mk 0 (k / (8 * eps)).
Definition q_direct (v : rat) : QC.cplx := QC.mk 0 v.

(** A batch on the imaginary axis, in strictly increasing order of
    imaginary part. *)
Definition increasing_imag (l : list QC.cplx) : Prop :=
  Forall QC.purely_imaginary l
  /\ forall (i j : nat) (z w : QC.cplx),
       (i < j)%nat -> l !! i = Some z -> l !! j = Some w ->
       (QC.im z < QC.im w)%Q.

(** The value [z] of a fit at [q = i s] is real and lies on the ellipse
    of the pair [l]: centre [gamma_l], half-axes [Delta_l] and [|q_l|]. *)
Definition on_ellipse (l : nat) (s : R) (z : RC.cplx) : Prop :=
  RC.im z = 0%R
  /\ (((RC.re z - Ellipse.gamma_at l) / Ellipse.Delta_at l) ^ 2
      + (s / Ellipse.ql_imag l) ^ 2 = 1)%R.







(** ** The synthesis formula and the caller's arrays *)

(** [F 0 + F 1 + ... + F (n - 1)] *)
Fixpoint Csum (n : nat) (F : nat -> RC.cplx) : RC.cplx :=
  match n with
  | O => RC.zero
  | S n' => RC.add (Csum n' F) (F n')
  end.

(** The contents of the arrays a notebook passes to [evolve_ds]:
    [in_A !! n] is [As['A'+str(2n)]] (rows of [q], columns of
    coefficients), [in_a !! n] is [As['a'+str(2n)]], [in_CE !! n] is
    [CE[n]] (indexed by [q], [y], [x]) and [in_COS] is the notebook-level
    list [COS] (indexed by [k], [y], [x]). *)
Record inputs : Type := Inputs {
  in_A : list (list (list RC.cplx));
  in_a : list (list RC.cplx);
  in_CE : list (list (list (list RC.cplx)));
  in_K : list R;
  in_cn : list R;
  in_X : list (list R);
  in_Y : list (list R);
  in_t : list R;
  in_COS : list (list (list RC.cplx))
}.

(** The cell [COS = [np.exp(K[i] * X * (1j)) for i in range(n)]]. *)
Definition COS_cell (Kv : list R) (Xv : list (list R)) (n : nat)
  : option (list (list (list RC.cplx))) :=
  mapM (fun i => Kk ← Kv !! i; Some (phase Kk Xv)) (seq 0 n).

Section Formula.

Variable inp : inputs.

(** [A^(2n)_0(q)], [a_2n(q)] and [ce_2n(y; q)] at the grid point [(y, x)],
    for the sample of [q] at index [ix] *)
Definition A0 (n : nat) (ix : index) : RC.cplx :=
  default RC.zero (A ← in_A inp !! n; row ← getitem A ix; row !! 0%nat).
Definition a2n (n : nat) (ix : index) : RC.cplx :=
  default RC.zero (a ← in_a inp !! n; getitem a ix).
Definition ce2n (n : nat) (ix : index) (y x : nat) : RC.cplx :=
  default RC.zero (c ← in_CE inp !! n; s ← getitem c ix;
                   row ← s !! y; row !! x).
Definition K_at (k : nat) : R := default 0%R (in_K inp !! k).
Definition cn_at (k : nat) : R := default 0%R (in_cn inp !! k).
Definition t_at (i : nat) : R := default 0%R (in_t inp !! i).
Definition X_at (y x : nat) : R :=
  default 0%R (row ← in_X inp !! y; row !! x).
Definition COS_at (k y x : nat) : RC.cplx :=
  default RC.zero (c ← in_COS inp !! k; row ← c !! y; row !! x).

(** One term of the expansion for wavenumber [kk] and harmonic [2n]:
    [2 A^(2n)_0 ce_2n exp(i kk x) exp(-(a_2n/4 + kk^2) t)]. *)
Definition mode_term (n : nat) (ix : index) (kk : R) (i y x : nat) : RC.cplx :=
  RC.mul (RC.mul (RC.mul (RC.mul (RC.of_R 2) (A0 n ix)) (ce2n n ix y x))
                 (RC.exp (RC.mk 0 (kk * X_at y x))))
         (RC.exp (RC.mul (RC.opp (RC.add (RC.mul (RC.of_R (/ 4)) (a2n n ix))
                                         (RC.of_R (kk ^ 2))))
                         (RC.of_R (t_at i)))).

(** The synthesis formula of the specification, with the Fourier
    coefficients [cn]: the real part of the double sum over wavenumbers
    and harmonics. *)
Definition theta_spec (i y x : nat) : R :=
  RC.re (Csum (length (in_K inp)) (fun k =>
           Csum (length (in_CE inp)) (fun n =>
             RC.mul (RC.of_R (cn_at k)) (mode_term n (At k) (K_at k) i y x)))).

(** The same for the single wavenumber [kk] of the single-mode notebook,
    at the last sample of [q]. *)
Definition theta_spec_single (kk : R) (i y x : nat) : R :=
  RC.re (Csum (length (in_CE inp)) (fun n => mode_term n Last kk i y x)).

(** The single-mode sum without its time factors, as the first loop of
    the inline synthesis writes it:
    [Re sum_n 2 A^(2n)_0 ce_2n exp(i kk x)]. *)
Definition theta_initial (kk : R) (y x : nat) : R :=
  RC.re (Csum (length (in_CE inp)) (fun n =>
           RC.mul (RC.mul (RC.mul (RC.of_R 2) (A0 n Last)) (ce2n n Last y x))
                  (RC.exp (RC.mk 0 (kk * X_at y x))))).

(** The arrays have the sizes the loops index them with: [nq] samples of
    [q] for every harmonic, a leading coefficient in every row of [A],
    and [ny] by [nx] grids. *)
Definition well_shaped (nq ny nx : nat) : Prop :=
  (0 < ny)%nat /\ (0 < nx)%nat
  /\ shape (in_X inp) = replicate ny nx
  /\ shape (in_Y inp) = replicate ny nx
  /\ length (in_A inp) = length (in_CE inp)
  /\ length (in_a inp) = length (in_CE inp)
  /\ Forall (fun A => length A = nq /\ Forall (fun row => row <> []) A)
            (in_A inp)
  /\ Forall (fun a => length a = nq) (in_a inp)
  /\ Forall (fun c => length c = nq
                      /\ Forall (fun s => shape s = replicate ny nx) c)
            (in_CE inp).

(** Additionally, for the Gaussian notebooks, one wavenumber, Fourier
    coefficient and phase table per sample of [q]. *)
Definition well_shaped_multi (ny nx : nat) : Prop :=
  well_shaped (length (in_K inp)) ny nx
  /\ length (in_cn inp) = length (in_K inp)
  /\ length (in_COS inp) = length (in_K inp)
  /\ Forall (fun s => shape s = replicate ny nx) (in_COS inp).

End Formula.

(** The store [h] holds the arrays [inp] behind the given names. *)
Definition holds (h : gmap loc obj) (As CE X Y t : loc) (inp : inputs)
  : Prop :=
  h !! X = Some (NdR2 (in_X inp))
  /\ h !! Y = Some (NdR2 (in_Y inp))
  /\ h !! t = Some (NdR1 (in_t inp))
  /\ (exists lCE, h !! CE = Some (PyList lCE)
        /\ Forall2 (fun l c => h !! l = Some (NdC3 c)) lCE (in_CE inp))
  /\ (exists d, h !! As = Some (PyDict d)
        /\ (forall n A, in_A inp !! n = Some A ->
              exists l, d !! ("A" +:+ str (2 * n)) = Some l
                        /\ h !! l = Some (NdC2 A))
        /\ (forall n a, in_a inp !! n = Some a ->
              exists l, d !! ("a" +:+ str (2 * n)) = Some l
                        /\ h !! l = Some (NdC1 a))).

Definition holds_multi (h : gmap loc obj) (COS As CE K cn X Y t : loc)
    (inp : inputs) : Prop :=
  holds h As CE X Y t inp
  /\ h !! K = Some (NdR1 (in_K inp))
  /\ h !! cn = Some (PyFloats (in_cn inp))
  /\ (exists lCOS, h !! COS = Some (PyList lCOS)
        /\ Forall2 (fun l c => h !! l = Some (NdC2 c)) lCOS (in_COS inp)).

(** [ds.Theta.data[i, y, x]]: [Some (Some v)] for a float [v],
    [Some None] for [nan]. *)
Definition Theta_at (h : gmap loc obj) (ds : loc) (i y x : nat)
  : option (option R) :=
  match h !! ds with
  | Some (XrDataset vars _ _ _) =>
      θ ← vars !! "Theta";
      match h !! θ with
      | Some (NdF3 d) => s ← d !! i; row ← s !! y; row !! x
      | _ => None
      end
  | _ => None
  end.

(** The call returns a dataset whose [Theta] is [scale] times the
    synthesis formula [F] on the whole [nt] by [ny] by [nx] grid. *)
Definition returns_theta (run : Py loc) (s0 : state) (scale : R)
    (F : nat -> nat -> nat -> R) (nt ny nx : nat) : Prop :=
  exists ds s1,
    run s0 = Some (ds, s1)
    /\ forall i y x, (i < nt)%nat -> (y < ny)%nat -> (x < nx)%nat ->
         Theta_at (heap s1) ds i y x = Some (Some (scale * F i y x)%R).

(** What a call leaves behind: a dataset [ds] and its [Theta] array, both
    new; every object of the old store as it was; and one slice
    assignment per time index, all into the new array. *)
Definition frame (s0 s1 : state) (ds : loc) (nt : nat) : Prop :=
  exists θ tv yc xc,
    (ds ∉ dom (heap s0)) /\ (θ ∉ dom (heap s0)) /\ θ <> ds
    /\ heap s1 !! ds = Some (XrDataset {["Theta" := θ]} tv yc xc)
    /\ (exists d, heap s1 !! θ = Some (NdF3 d))
    /\ dom (heap s1) = dom (heap s0) ∪ {[θ; ds]}
    /\ (forall l o, heap s0 !! l = Some o -> heap s1 !! l = Some o)
    /\ writes s1 = writes s0 ++ ((fun i => (θ, i)) <$> seq 0 nt).

(** The entry a value contributes at the grid point [(y, x)] when it is
    broadcast to a grid: a scalar contributes itself everywhere, and an
    axis of length one is read at index 0. *)
Definition stretched_at (v : rval) (y x : nat) : option R :=
  match v with
  | RScal r => Some r
  | RArr a =>
      row ← a !! (if decide (length a = 1%nat) then 0%nat else y);
      row !! (if decide (length row = 1%nat) then 0%nat else x)
  end.

(** On the [nt] by [ny] by [nx] grid, every slice of the dataset's [Theta]
    holds the value [T i] of its time index, broadcast to the grid: no
    [nan] of the initial array is left. *)
Definition slices_hold (s1 : state) (ds : loc) (nt ny nx : nat)
    (T : nat -> option rval) : Prop :=
  forall i y x, (i < nt)%nat -> (y < ny)%nat -> (x < nx)%nat ->
    exists T0 r,
      T i = Some T0 /\ stretched_at T0 y x = Some r
      /\ Theta_at (heap s1) ds i y x = Some (Some r).

(** ** Shapes and cells, for the proofs *)

(** What the synthesis cannot read: a free location, a dataset, or the
    float array behind one. *)
Definition opaque (o : option obj) : Prop :=
  match o with
  | None | Some (NdF3 _) | Some (XrDataset _ _ _ _) => True
  | _ => False
  end.

(** Two stores hold the same arrays, lists and dictionaries. *)
Definition same_inputs (h h' : gmap loc obj) : Prop :=
  forall l, h !! l = h' !! l \/ (opaque (h !! l) /\ opaque (h' !! l)).

(** A value fits a [ny] by [nx] grid: a scalar, or an array of that shape. *)
Definition fits (ny nx : nat) (v : val) : Prop :=
  match v with
  | VScal _ => True
  | VArr a => shape a = replicate ny nx
  end.

(** The entry of a value at a grid point. *)
Definition at_ (v : val) (y x : nat) : RC.cplx :=
  match v with
  | VScal z => z
  | VArr a => default RC.zero (row ← a !! y; row !! x)
  end.

(** The same for real values. *)
Definition rfits (ny nx : nat) (v : rval) : Prop :=
  match v with
  | RScal _ => True
  | RArr a => shape a = replicate ny nx
  end.

Definition rat_ (v : rval) (y x : nat) : R :=
  match v with
  | RScal r => r
  | RArr a => default 0%R (row ← a !! y; row !! x)
  end.

(** The value of a cell of a slice. *)
Definition cell (s : list (list (option R))) (y x : nat) : option (option R) :=
  row ← s !! y; row !! x.

(** The index exists in an array of [nq] samples. *)
Definition index_ok (nq : nat) (ix : index) : Prop :=
  match ix with
  | At k => (k < nq)%nat
  | Last => (0 < nq)%nat
  end.

(** One term of the [r]-sum as the code associates it. *)
Definition code_term (inp : inputs) (ix : index) (kk : R) (i r y x : nat)
  : RC.cplx :=
  RC.mul (RC.mul (RC.mul (RC.of_R 2) (A0 inp r ix)) (ce2n inp r ix y x))
         (RC.exp (RC.mul (RC.opp (RC.add (RC.mul (RC.of_R 0.25) (a2n inp r ix))
                                         (RC.of_R (kk ^ 2))))
                         (RC.of_R (t_at inp i)))).

(** One term of the [k]-sum as the code associates it. *)
Definition code_coeff (inp : inputs) (i k y x : nat) : RC.cplx :=
  RC.mul (RC.mul (RC.of_R (cn_at inp k))
                 (Csum (length (in_CE inp))
                       (fun r => code_term inp (At k) (K_at inp k) i r y x)))
         (COS_at inp k y x).

(** The state right after [init_dataset]. *)
Definition init_state (s0 : state) (ds θ : loc) (tv yc xc : list R) : state :=
  State (<[ds := XrDataset {["Theta" := θ]} tv yc xc]>
           (<[θ := NdF3 (nan_array (length tv) (length yc) (length xc))]>
              (heap s0)))
        (writes s0).

(** The frame invariant of the time loop. *)
Definition loop_frame (h0 : gmap loc obj) (w0 : list (loc * nat))
    (ds θ : loc) (tv yc xc : list R) (s : state) (done : list nat) : Prop :=
  h0 ⊆ heap s
  /\ heap s !! ds = Some (XrDataset {["Theta" := θ]} tv yc xc)
  /\ dom (heap s) = dom h0 ∪ {[θ; ds]}
  /\ writes s = w0 ++ ((fun i => (θ, i)) <$> done)
  /\ exists d, heap s !! θ = Some (NdF3 d).

(** The body of the time loop: compute the slice, then assign it. *)
Definition slice_body (ds : loc) (f : gmap loc obj -> nat -> option rval)
    (g : rval -> rval) (i : nat) : Py unit :=
  let! T0 := gets (fun h => f h i) in store_slice ds "Theta" i (g T0).

(** The data invariant of the time loop: the slices written so far hold
    [G]. *)
Definition loop_data (θ : loc) (nt ny nx : nat) (G : nat -> nat -> nat -> R)
    (s : state) (done : list nat) : Prop :=
  exists d, heap s !! θ = Some (NdF3 d) /\ length d = nt
    /\ Forall (fun sl => shape sl = replicate ny nx) d
    /\ forall i sl, In i done -> d !! i = Some sl ->
         forall y x, (y < ny)%nat -> (x < nx)%nat ->
           cell sl y x = Some (Some (G i y x)).

(** The content invariant of the time loop: the slices assigned so far
    hold what the body computed from the caller's arrays. *)
Definition loop_filled (θ : loc) (nt ny nx : nat) (T : nat -> option rval)
    (s : state) (done : list nat) : Prop :=
  exists d, heap s !! θ = Some (NdF3 d) /\ length d = nt
    /\ Forall (fun sl => shape sl = replicate ny nx) d
    /\ forall i sl, In i done -> d !! i = Some sl ->
         forall y x, (y < ny)%nat -> (x < nx)%nat ->
           exists T0 r, T i = Some T0 /\ stretched_at T0 y x = Some r
                        /\ cell sl y x = Some (Some r).

(** A smallest call: one wavenumber [k = 0], one harmonic with
    [A^(0)_0 = 1], [a_0 = 0] and [ce_0 = 1], one grid point, one time. *)
Definition ex_inputs : inputs :=
  Inputs [ [[RC.of_R 1]] ] [ [RC.zero] ] [ [[[RC.of_R 1]]] ]
         [0%R] [1%R] [[0%R]] [[0%R]] [0%R] [phase 0 [[0%R]]].

Definition ex_COS : loc := 1%positive.
Definition ex_As : loc := 2%positive.
Definition ex_CE : loc := 3%positive.
Definition ex_K : loc := 4%positive.
Definition ex_cn : loc := 5%positive.
Definition ex_X : loc := 6%positive.
Definition ex_Y : loc := 7%positive.
Definition ex_t : loc := 8%positive.

Definition ex_heap : gmap loc obj :=
  list_to_map
    [ (ex_COS, PyList [12%positive]);
      (ex_As, PyDict (list_to_map [("A0", 9%positive); ("a0", 10%positive)]));
      (ex_CE, PyList [11%positive]);
      (ex_K, NdR1 (in_K ex_inputs));
      (ex_cn, PyFloats (in_cn ex_inputs));
      (ex_X, NdR2 (in_X ex_inputs));
      (ex_Y, NdR2 (in_Y ex_inputs));
      (ex_t, NdR1 (in_t ex_inputs));
      (9%positive, NdC2 [[RC.of_R 1]]);
      (10%positive, NdC1 [RC.zero]);
      (11%positive, NdC3 [[[RC.of_R 1]]]);
      (12%positive, NdC2 (phase 0 [[0%R]])) ].

Definition ex_state : state := State ex_heap [].

(** A call that relies on broadcasting: the same tables on a grid of two
    points along [x], with [CE[0]] of shape (1, 1, 1), not repeated along
    [x]. *)
Definition bc_heap : gmap loc obj :=
  list_to_map
    [ (ex_As, PyDict (list_to_map [("A0", 9%positive); ("a0", 10%positive)]));
      (ex_CE, PyList [11%positive]);
      (ex_X, NdR2 [[0%R; 1%R]]);
      (ex_Y, NdR2 [[0%R; 0%R]]);
      (ex_t, NdR1 [0%R]);
      (9%positive, NdC2 [[RC.of_R 1]]);
      (10%positive, NdC1 [RC.zero]);
      (11%positive, NdC3 [[[RC.of_R 1]]]) ].

Definition bc_state : state := State bc_heap [].

(* ================================================================= *)
(** * Properties *)

(** ** Solver call sites *)

(** C5: every call of [A_coefficients] in the notebooks passes the parity
    selector 'even' and the period selector 'one'. *)
Theorem calls_even_one :
  Forall (fun c => call_symmetry c = "even" /\ call_period c = "one")
         call_sites.
Proof. repeat constructor. Qed.

(** The truncation orders, in call-site order. *)
Lemma call_orders : map call_order call_sites = [25; 50; 75; 25; 25]%Z.
Proof. reflexivity. Qed.

(** C3, as stated, fails: not every truncation order passed to
    [A_coefficients] is a positive even integer ([M = 25] of the ellipse
    notebook is odd). *)
Lemma orders_not_all_even :
  ~ Forall (fun c => positive_even (call_order c)) call_sites.
Proof.
  intros H. apply Forall_cons_1 in H as [[_ Hev] _].
  vm_compute in Hev. discriminate.
Qed.

(** C3, amended: the truncation orders passed to [A_coefficients] are
    25, 50, 75, 25 and 25, all positive; only the 50 of the second
    Gaussian notebook is even. *)
Theorem orders_positive :
  map call_order call_sites = [25; 50; 75; 25; 25]%Z
  /\ Forall (fun c => (0 < call_order c)%Z) call_sites
  /\ map (fun c => Z.even (call_order c)) call_sites
     = [false; true; false; false; false].
Proof.
  split; [reflexivity|]. split; [|reflexivity].
  repeat constructor.
Qed.

(** ** Tabulated constants of the ellipse notebook *)

(** C10: for every l in {0, 1, 2}, [Delta[l] = 8 l + 2] and
    [gamma[l] = 16 l^2 + 8 l + 2]. *)
Theorem Delta_gamma_closed_form (l : nat) :
  (l < 3)%nat ->
  Ellipse.Delta !! l = Some (8 * Z.of_nat l + 2)%Z
  /\ Ellipse.gamma !! l = Some (16 * Z.of_nat l ^ 2 + 8 * Z.of_nat l + 2)%Z.
Proof.
  intros Hl.
  destruct l as [|[|[|l]]]; [split; reflexivity ..|lia].
Qed.

Lemma Delta_gamma_closed_form_witness :
  (1 < 3)%nat
  /\ Ellipse.Delta !! 1%nat = Some 10%Z
  /\ Ellipse.gamma !! 1%nat = Some 26%Z.
Proof.
  split; [lia|]. apply (Delta_gamma_closed_form 1). lia.
Defined.

(** ** The guard cell *)

(** Above 1000 the guard raises [Warning] with its message. *)
Lemma guard_raises (msg : string) (qf : rat) :
  (1000 < qf)%Q -> guard msg qf = inl (Raise "Warning" msg).
Proof.
  intros H. unfold guard. destruct (Qlt_le_dec 1000 qf) as [_|Hle].
  - reflexivity.
  - exfalso. apply (Qlt_not_le _ _ H Hle).
Qed.

(** Up to 1000, 1000 included, the guard lets the run continue. *)
Lemma guard_passes (msg : string) (qf : rat) :
  (qf <= 1000)%Q -> guard msg qf = inr tt.
Proof.
  intros H. unfold guard. destruct (Qlt_le_dec 1000 qf) as [Hlt|_].
  - exfalso. apply (Qlt_not_le _ _ Hlt H).
  - reflexivity.
Qed.

(** The guard raises exactly above 1000. *)
Lemma guard_inl_iff (msg : string) (qf : rat) :
  (exists e, guard msg qf = inl e) <-> (1000 < qf)%Q.
Proof.
  split.
  - intros [e He]. destruct (Qlt_le_dec 1000 qf) as [Hlt|Hle]; [exact Hlt|].
    rewrite (guard_passes _ _ Hle) in He. discriminate.
  - intros H. eexists. apply guard_raises, H.
Qed.

(** C9: in each notebook's guard cell an exception, of class Warning, is
    raised if and only if [qf > 1000]; for [qf <= 1000], 1000 included,
    nothing is raised and the run reaches the [A_coefficients] call. *)
Theorem guard_cell_iff :
  Forall (fun '(g, run, call) =>
            forall qf : rat,
              ((exists e, g qf = inl e) <-> (1000 < qf)%Q)
              /\ (forall e, g qf = inl e ->
                            exc_class e = "Warning" /\ run qf = inl e)
              /\ ((qf <= 1000)%Q -> g qf = inr tt /\ run qf = inr call))
         guarded_notebooks.
Proof.
  assert (Hg : forall msg (call : solver_call) qf,
             ((exists e, guard msg qf = inl e) <-> (1000 < qf)%Q)
             /\ (forall e, guard msg qf = inl e ->
                   exc_class e = "Warning"
                   /\ (try! _ := guard msg qf in inr call) = inl e)
             /\ ((qf <= 1000)%Q ->
                   guard msg qf = inr tt
                   /\ (try! _ := guard msg qf in inr call) = inr call)).
  { intros msg call qf. split; [apply guard_inl_iff|]. split.
    - intros e He. rewrite He. split; [|reflexivity].
      unfold guard in He. destruct (Qlt_le_dec 1000 qf); [|discriminate].
      injection He as <-. reflexivity.
    - intros Hle. rewrite (guard_passes _ _ Hle). split; reflexivity. }
  unfold guarded_notebooks.
  repeat (constructor; [intros qf; apply Hg|]). constructor.
Qed.

Lemma guard_cell_iff_witness :
  (1000 <= 1000)%Q
  /\ ShearAvg.guard_cell 1000 = inr tt
  /\ ShearAvg.run_from_guard 1000 = inr ShearAvg.solver_cell.
Proof.
  assert (Hle : (1000 <= 1000)%Q) by apply Qle_refl.
  split; [exact Hle|].
  pose proof guard_cell_iff as H.
  apply Forall_cons_1 in H as [_ H].
  apply Forall_cons_1 in H as [H _].
  apply (H 1000%Q), Hle.
Defined.

(** With the parameters as committed, no notebook raises: the largest
    magnitudes are 784, 980, 4 and 20. *)
Lemma committed_runs_reach_solver :
  Gauss02.run = inr Gauss02.solver_cell
  /\ ShearAvg.run = inr ShearAvg.solver_cell
  /\ Anim01a.run = inr Anim01a.solver_cell
  /\ Anim01b.run = inr Anim01b.solver_cell
  /\ Ellipse.run = inr Ellipse.solver_cell.
Proof. repeat split; vm_compute; reflexivity. Qed.

(** ** The batches of Mathieu parameters *)

(** On the non-negative imaginary axis the magnitude grows with the
    imaginary part. *)
Lemma abs2_imag_lt (z w : QC.cplx) :
  QC.purely_imaginary z -> QC.purely_imaginary w ->
  (0 <= QC.im z)%Q -> (QC.im z < QC.im w)%Q ->
  (QC.abs2 z < QC.abs2 w)%Q.
Proof.
  unfold QC.purely_imaginary, QC.abs2. intros Hz Hw H0 Hlt.
  rewrite Hz, Hw.
  assert (H1 : (0 <= QC.im z * (QC.im w - QC.im z))%Q).
  { apply Qmult_le_0_compat; lra. }
  assert (H2 : (0 < QC.im w * (QC.im w - QC.im z))%Q).
  { apply Qmult_lt_0_compat; lra. }
  lra.
Qed.

(** A batch whose n-th sample is [i * c * n] with [c > 0] is purely
    imaginary and ordered by increasing magnitude. *)
Lemma linear_batch (g : nat -> QC.cplx) (c : rat) (n : nat) :
  (0 < c)%Q ->
  (forall i, (QC.re (g i) == 0)%Q
             /\ (QC.im (g i) == c * inject_Z (Z.of_nat i))%Q) ->
  Forall QC.purely_imaginary (map g (seq 0 n))
  /\ increasing_magnitude (map g (seq 0 n)).
Proof.
  intros Hc Hg. split.
  - apply List.Forall_forall. intros z Hz.
    apply in_map_iff in Hz as [i [<- _]]. apply Hg.
  - intros i j z w Hij Hi Hj.
    rewrite list_lookup_fmap in Hi, Hj.
    destruct (seq 0 n !! i) as [i'|] eqn:Ei; [|discriminate].
    destruct (seq 0 n !! j) as [j'|] eqn:Ej; [|discriminate].
    apply lookup_seq in Ei as [-> _]. apply lookup_seq in Ej as [-> _].
    simpl in Hi, Hj. injection Hi as <-. injection Hj as <-.
    destruct (Hg i) as [Hri Hii]. destruct (Hg j) as [Hrj Hij'].
    apply abs2_imag_lt; [exact Hri|exact Hrj| |].
    + rewrite Hii. apply Qmult_le_0_compat; [apply Qlt_le_weak, Hc|].
      change 0%Q with (inject_Z 0). rewrite <- Zle_Qle. lia.
    + rewrite Hii, Hij'. apply Qmult_lt_l; [exact Hc|].
      rewrite <- Zlt_Qlt. lia.
Qed.

(** A batch computed by mapping [g] over [Kb] is the image of [Kb] under
    any [f] that agrees with [g]. *)
Lemma image_of_map (f g : rat -> QC.cplx) (Kb : list rat) :
  (forall k, QC.eqc (g k) (f k)) -> image_of f (map g Kb) Kb.
Proof.
  intros Hfg. unfold image_of.
  induction Kb as [|k Kb IH]; simpl; constructor; [apply Hfg|exact IH].
Qed.

Ltac batch_is_linear c :=
  rewrite map_map;
  apply (linear_batch _ c);
  [ reflexivity
  | intros i; cbn [QC.re QC.im QC.divr QC.mulr QC.j]; split; field ].

Lemma Ellipse_batch :
  Forall QC.purely_imaginary Ellipse.Q /\ increasing_magnitude Ellipse.Q.
Proof.
  unfold Ellipse.Q, Ellipse.K_test, linspace, Ellipse.N, Ellipse.alpha,
    Ellipse.eps.
  change (Z.of_nat (1000 - 1)) with 999%Z.
  batch_is_linear (875 # 5994).
Qed.

Lemma Gauss02_batch :
  Forall QC.purely_imaginary Gauss02.Q /\ increasing_magnitude Gauss02.Q.
Proof.
  unfold Gauss02.Q, Gauss02.K, arange, Gauss02.Nk, Gauss02.alpha, Gauss02.Pe.
  batch_is_linear 16%Q.
Qed.

Lemma ShearAvg_batch :
  Forall QC.purely_imaginary ShearAvg.Q /\ increasing_magnitude ShearAvg.Q.
Proof.
  unfold ShearAvg.Q, ShearAvg.K, arange, ShearAvg.N, ShearAvg.alpha,
    ShearAvg.eps.
  batch_is_linear 20%Q.
Qed.

Lemma Anim01a_batch :
  Forall QC.purely_imaginary Anim01a.Q /\ increasing_magnitude Anim01a.Q.
Proof.
  unfold Anim01a.Q, linspace, Anim01a.qf, Anim01a.k, Anim01a.eps.
  change (Z.of_nat (100 - 1)) with 99%Z.
  batch_is_linear (4 # 99).
Qed.

Lemma Anim01b_batch :
  Forall QC.purely_imaginary Anim01b.Q /\ increasing_magnitude Anim01b.Q.
Proof.
  unfold Anim01b.Q, linspace, Anim01b.qf, Anim01b.k, Anim01b.Pe,
    Anim01b.alpha.
  change (Z.of_nat (100 - 1)) with 99%Z.
  batch_is_linear (20 # 99).
Qed.

(** The notebooks build one phase table per wavenumber: [range(Nk)] and
    [range(N)] run over the whole of [K]. *)
Lemma K_lengths :
  length Gauss02.K = Z.to_nat Gauss02.Nk
  /\ length ShearAvg.K = Z.to_nat ShearAvg.N.
Proof. split; vm_compute; reflexivity. Qed.

(** C4, as stated, fails: the batch of the ellipse notebook is not the
    image of its wavenumber array under [q = i * 2 * k / eps]. *)
Lemma ellipse_batch_not_2k_over_eps :
  ~ image_of (q_eps Ellipse.eps) Ellipse.Q Ellipse.K_test.
Proof.
  intros H.
  assert (Hq : Ellipse.Q !! 1%nat
               = Some (QC.mk (0 # 47952) (7000 # 47952)))
    by (vm_compute; reflexivity).
  assert (Hk : Ellipse.K_test !! 1%nat = Some (70 # 1998))
    by (vm_compute; reflexivity).
  destruct (Forall2_lookup_lr _ _ _ _ _ _ H Hq Hk) as [_ Him].
  vm_compute in Him. discriminate.
Qed.

(** C4, amended: every batch passed to [A_coefficients] is purely
    imaginary and ordered by increasing magnitude.  It is the image of the
    wavenumber array under [q = i*2*k/eps] in part_002 and under
    [q = i*2*k*Pe] in the second notebook of part_001; the ellipse
    notebook uses [q = i*k/(8*eps)]; the two single-mode notebooks space
    100 samples directly in [q], from 0 to [i*2*k/eps] and to
    [i*2*k*Pe]. *)
Theorem batches_imaginary_increasing :
  image_of (q_eps ShearAvg.eps) ShearAvg.Q ShearAvg.K
  /\ image_of (q_Pe Gauss02.Pe) Gauss02.Q Gauss02.K
  /\ image_of (q_eps8 Ellipse.eps) Ellipse.Q Ellipse.K_test
  /\ image_of q_direct Anim01a.Q
              (linspace 0 (2 * Anim01a.k / Anim01a.eps) 100)
  /\ image_of q_direct Anim01b.Q
              (linspace 0 (2 * Anim01b.k * Anim01b.Pe) 100)
  /\ Forall (fun c => Forall QC.purely_imaginary (call_q c)
                      /\ increasing_magnitude (call_q c))
            call_sites.
Proof.
  split; [|split; [|split; [|split; [|split]]]].
  - apply image_of_map. intros k.
    split; simpl; unfold ShearAvg.eps; field.
  - apply image_of_map. intros k.
    split; simpl; unfold Gauss02.Pe; field.
  - apply image_of_map. intros k.
    split; simpl; unfold Ellipse.eps; field.
  - apply image_of_map. intros k. split; simpl; field.
  - apply image_of_map. intros k. split; simpl; field.
  - unfold call_sites.
    constructor; [exact Ellipse_batch|].
    constructor; [exact Gauss02_batch|].
    constructor; [exact ShearAvg_batch|].
    constructor; [exact Anim01a_batch|].
    constructor; [exact Anim01b_batch|].
    constructor.
Qed.

(** ** The fits of the ellipse notebook *)

(** Complex numbers are equal when their parts are. *)
Lemma RC_eq (z w : RC.cplx) :
  RC.re z = RC.re w -> RC.im z = RC.im w -> z = w.
Proof. destruct z, w; simpl; intros -> ->; reflexivity. Qed.

(** The principal square root of a non-negative real square. *)
Lemma sqrt_pos_real (s : R) :
  (0 <= s)%R -> RC.sqrt (RC.mk (s * s) 0) = RC.mk s 0.
Proof.
  intros Hs. unfold RC.sqrt. cbn [RC.re RC.im].
  replace (s * s * (s * s) + 0 * 0)%R with ((s * s) * (s * s))%R by ring.
  rewrite (sqrt_square (s * s)) by nra.
  replace ((s * s + s * s) / 2)%R with (s * s)%R by lra.
  replace ((s * s - s * s) / 2)%R with 0%R by lra.
  rewrite sqrt_square by exact Hs. rewrite sqrt_0.
  apply RC_eq; simpl; [reflexivity|].
  destruct (Rle_dec 0 0); lra.
Qed.

(** The tabulated exceptional points lie on the positive imaginary axis. *)
Lemma ql_at_imaginary (l : nat) :
  (l < 3)%nat ->
  RC.re (Ellipse.ql_at l) = 0%R /\ (0 < Ellipse.ql_imag l)%R.
Proof.
  intros Hl. unfold Ellipse.ql_imag, Ellipse.ql_at, RC.of_QC.
  destruct l as [|[|[|l]]]; [ | | |lia]; cbn [nth Ellipse.ql RC.re RC.im];
    unfold Q2R; simpl;
    rewrite Z.mul_0_r, Z.mul_1_r, Pos.mul_1_r; split; lra.
Qed.

(** The tabulated gaps are positive. *)
Lemma Delta_at_pos (l : nat) : (l < 3)%nat -> (0 < Ellipse.Delta_at l)%R.
Proof.
  intros Hl. unfold Ellipse.Delta_at.
  destruct l as [|[|[|l]]]; [ | | |lia]; simpl; lra.
Qed.

(** At [q = 0] the square root of the ellipse term is [|q_l|]. *)
Lemma root_at_zero (l : nat) :
  (l < 3)%nat -> Ellipse.root l RC.zero = RC.of_R (Ellipse.ql_imag l).
Proof.
  intros Hl. destruct (ql_at_imaginary l Hl) as [Hre Him].
  unfold Ellipse.root, Ellipse.ql_imag in *.
  destruct (Ellipse.ql_at l) as [a s]. simpl in Hre, Him. subst a.
  replace (RC.add (RC.opp (RC.mul (RC.mk 0 s) (RC.mk 0 s)))
                  (RC.mul RC.zero RC.zero))
    with (RC.mk (s * s) 0).
  - apply sqrt_pos_real. lra.
  - apply RC_eq; simpl; ring.
Qed.

(** The square root of the ellipse term vanishes at the exceptional point. *)
Lemma root_at_ql (l : nat) : Ellipse.root l (Ellipse.ql_at l) = RC.zero.
Proof.
  unfold Ellipse.root.
  replace (RC.add (RC.opp (RC.mul (Ellipse.ql_at l) (Ellipse.ql_at l)))
                  (RC.mul (Ellipse.ql_at l) (Ellipse.ql_at l)))
    with (RC.mk (0 * 0) 0) by (apply RC_eq; simpl; ring).
  rewrite sqrt_pos_real by lra. reflexivity.
Qed.

(** The tabulated first exceptional point and centre, and the two
    region-I fits of the first pair meeting at the centre there. *)
Lemma first_pair_fits_meet :
  Ellipse.ql !! 0%nat = Some (QC.rmul 1.466466 QC.j)
  /\ Ellipse.gamma !! 0%nat = Some 2%Z
  /\ Ellipse.Pair0.a0cs (Ellipse.ql_at 0) = RC.of_R 2
  /\ Ellipse.Pair0.a2cs (Ellipse.ql_at 0) = RC.of_R 2.
Proof.
  split; [reflexivity|]. split; [reflexivity|].
  unfold Ellipse.Pair0.a0cs, Ellipse.Pair0.a2cs, Ellipse.Pair0.l.
  rewrite root_at_ql.
  generalize (Ellipse.Delta_at 0 / Ellipse.ql_imag 0)%R. intros c.
  assert (Hg : Ellipse.gamma_at 0 = 2%R) by reflexivity.
  split; apply RC_eq; simpl; rewrite ?Hg; ring.
Qed.

(** ** Array values *)

(** Every cell of an [ny] by [nx] array exists. *)
Lemma shape_lookup {A : Type} (a : list (list A)) (ny nx y x : nat) :
  shape a = replicate ny nx -> (y < ny)%nat -> (x < nx)%nat ->
  exists row z, a !! y = Some row /\ length row = nx /\ row !! x = Some z.
Proof.
  intros Hs Hy Hx.
  assert (Hlen : length a = ny).
  { apply (f_equal length) in Hs. unfold shape in Hs.
    rewrite length_fmap, length_replicate in Hs. exact Hs. }
  destruct (lookup_lt_is_Some_2 a y) as [row Hrow]; [lia|].
  assert (Hr : length row = nx).
  { assert (H : shape a !! y = Some (length row)).
    { unfold shape. rewrite list_lookup_fmap, Hrow. reflexivity. }
    rewrite Hs in H. apply lookup_replicate in H as [H _]. exact H. }
  destruct (lookup_lt_is_Some_2 row x) as [z Hz]; [lia|].
  exists row, z. auto.
Qed.

(** Mapping over the cells keeps the shape. *)
Lemma shape_map {A B : Type} (f : A -> B) (a : list (list A)) :
  shape (map (map f) a) = shape a.
Proof.
  unfold shape. rewrite <- list_fmap_compose.
  apply list_fmap_ext. intros i row _. simpl. apply length_map.
Qed.

(** So does combining two arrays of one shape cell by cell. *)
Lemma shape_zip_with {A B C : Type} (f : A -> B -> C)
    (a : list (list A)) (b : list (list B)) :
  shape a = shape b -> shape (zip_with (zip_with f) a b) = shape a.
Proof.
  revert b. induction a as [|ra a IH]; intros [|rb b] H; simpl in *;
    try discriminate; [reflexivity|].
  injection H as Hr Ht. f_equal.
  - rewrite length_zip_with. lia.
  - apply IH, Ht.
Qed.

(** The cells of a mapped array. *)
Lemma at_map (f : RC.cplx -> RC.cplx) (a : list (list RC.cplx)) (ny nx y x : nat) :
  shape a = replicate ny nx -> (y < ny)%nat -> (x < nx)%nat ->
  at_ (VArr (map (map f) a)) y x = f (at_ (VArr a) y x).
Proof.
  intros Hs Hy Hx.
  destruct (shape_lookup a ny nx y x Hs Hy Hx) as (row & z & Hrow & _ & Hz).
  simpl. rewrite !list_lookup_fmap, Hrow. simpl.
  rewrite list_lookup_fmap, Hz. reflexivity.
Qed.

(** Pairing up two lists member by member. *)
Lemma mapM_zip {A B C : Type} (h : A -> B -> option C) (g : A -> B -> C)
    (l : list A) (k : list B) :
  Forall2 (fun a b => h a b = Some (g a b)) l k ->
  mapM (fun p => h (fst p) (snd p)) (zip l k) = Some (zip_with g l k).
Proof.
  induction 1 as [|a b l k Hab _ IH]; [reflexivity|].
  cbn [zip zip_with mapM fst snd]. rewrite Hab, IH. reflexivity.
Qed.

(** Operands of one length are paired up: nothing is stretched. *)
Lemma broadcast_same {A B C : Type} (h : A -> B -> option C) (g : A -> B -> C)
    (l : list A) (k : list B) :
  Forall2 (fun a b => h a b = Some (g a b)) l k ->
  broadcast h l k = Some (zip_with g l k).
Proof.
  intros H. unfold broadcast.
  rewrite decide_True by (eapply Forall2_length, H).
  apply mapM_zip, H.
Qed.

(** Two arrays of one shape are combined cell by cell. *)
Lemma broadcast_same_shape {A B C : Type} (f : A -> B -> C)
    (a : list (list A)) (b : list (list B)) :
  shape a = shape b ->
  broadcast (broadcast (fun x y => Some (f x y))) a b
  = Some (zip_with (zip_with f) a b).
Proof.
  intros Hs. apply broadcast_same.
  revert b Hs. induction a as [|ra a IH]; intros [|rb b] Hs;
    try discriminate; constructor.
  - injection Hs as Hr _. apply broadcast_same.
    revert rb Hr. induction ra as [|x ra IHr]; intros [|y rb] Hr;
      try discriminate; constructor; [reflexivity|].
    apply IHr. simpl in Hr. lia.
  - apply IH. injection Hs as _ Ht. exact Ht.
Qed.

(** An elementwise operation on values that fit the grid succeeds, fits
    the grid and acts cell by cell. *)
Lemma vlift2_fits (f : RC.cplx -> RC.cplx -> RC.cplx) (ny nx : nat) (u v : val) :
  fits ny nx u -> fits ny nx v ->
  exists w, vlift2 f u v = Some w /\ fits ny nx w
    /\ forall y x, (y < ny)%nat -> (x < nx)%nat ->
         at_ w y x = f (at_ u y x) (at_ v y x).
Proof.
  intros Hu Hv. destruct u as [a|A], v as [b|B]; cbn [vlift2 fits] in *.
  - eexists. split; [reflexivity|]. repeat split; auto.
  - eexists. split; [reflexivity|]. simpl. rewrite shape_map.
    repeat split; auto.
    intros y x Hy Hx. apply (at_map (f a) B ny nx); auto.
  - eexists. split; [reflexivity|]. simpl. rewrite shape_map.
    repeat split; auto.
    intros y x Hy Hx. apply (at_map (fun z => f z b) A ny nx); auto.
  - rewrite broadcast_same_shape by congruence.
    eexists. split; [reflexivity|]. simpl.
    rewrite shape_zip_with by congruence.
    repeat split; auto.
    intros y x Hy Hx.
    destruct (shape_lookup A ny nx y x Hu Hy Hx) as (ra & za & Hra & _ & Hza).
    destruct (shape_lookup B ny nx y x Hv Hy Hx) as (rb & zb & Hrb & _ & Hzb).
    rewrite lookup_zip_with, Hra, Hrb. simpl.
    rewrite lookup_zip_with, Hza, Hzb. reflexivity.
Qed.

(** Two arrays of shapes (2, 1) and (1, 3) are stretched to (2, 3). *)
Lemma vmul_stretches (a b c d e : RC.cplx) :
  vmul (VArr [[a]; [b]]) (VArr [[c; d; e]])
  = Some (VArr [[RC.mul a c; RC.mul a d; RC.mul a e];
                [RC.mul b c; RC.mul b d; RC.mul b e]]).
Proof. reflexivity. Qed.

(** A row is assigned to every row of a slice; a row that is too long is
    refused. *)
Lemma fill_slice_stretches (r1 r2 : R) :
  fill_slice [[None; None]; [None; None]] (RArr [[r1; r2]])
  = Some [[Some r1; Some r2]; [Some r1; Some r2]]
  /\ fill_slice [[None]; [None]] (RArr [[r1; r2]]) = None.
Proof. split; reflexivity. Qed.

(** Summing one more value. *)
Lemma sum_from_snoc (l : list val) (acc v : val) :
  sum_from acc (l ++ [v]) = (w ← sum_from acc l; vadd w v).
Proof.
  revert acc. induction l as [|u l IH]; intros acc; simpl.
  - destruct (vadd acc v); reflexivity.
  - destruct (vadd acc u) as [acc'|]; simpl; [apply IH|reflexivity].
Qed.

(** [sum] of values that fit the grid is, cell by cell, the sum of their
    cells. *)
Lemma py_sum_spec (ny nx : nat) (l : list val) (F : nat -> nat -> nat -> RC.cplx) :
  (forall k v, l !! k = Some v ->
     fits ny nx v
     /\ forall y x, (y < ny)%nat -> (x < nx)%nat -> at_ v y x = F k y x) ->
  exists w, py_sum l = Some w /\ fits ny nx w
    /\ forall y x, (y < ny)%nat -> (x < nx)%nat ->
         at_ w y x = Csum (length l) (fun k => F k y x).
Proof.
  unfold py_sum. induction l as [|v l IH] using rev_ind; intros H.
  - exists (VScal RC.zero). simpl. auto.
  - destruct IH as (w & Hw & Hfw & Hat).
    { intros k u Hk. apply H. rewrite lookup_app_l; [exact Hk|].
      apply lookup_lt_Some in Hk. exact Hk. }
    destruct (H (length l) v) as [Hfv Hv].
    { rewrite lookup_app_r by lia. rewrite Nat.sub_diag. reflexivity. }
    destruct (vlift2_fits RC.add ny nx w v Hfw Hfv) as (w' & Hw' & Hfw' & Hat').
    exists w'. rewrite sum_from_snoc, Hw. simpl. split; [exact Hw'|].
    split; [exact Hfw'|]. intros y x Hy Hx.
    rewrite length_app, Nat.add_1_r. simpl.
    rewrite Hat', Hat, Hv by assumption. reflexivity.
Qed.

(** A list comprehension over [range(n)] whose entries all evaluate. *)
Lemma mapM_seq {B : Type} (f : nat -> option B) (P : nat -> B -> Prop) (n : nat) :
  (forall k, (k < n)%nat -> exists b, f k = Some b /\ P k b) ->
  exists l, mapM f (seq 0 n) = Some l /\ length l = n
    /\ forall k b, l !! k = Some b -> P k b.
Proof.
  intros H.
  destruct (mapM_is_Some_2 f (seq 0 n)) as [l Hl].
  { apply List.Forall_forall. intros k Hk. apply in_seq in Hk.
    destruct (H k) as (b & Hb & _); [lia|]. simpl. rewrite Hb. eauto. }
  exists l. split; [exact Hl|].
  pose proof (length_mapM _ _ _ Hl) as Hlen. rewrite length_seq in Hlen.
  split; [lia|]. intros k b Hk.
  apply mapM_Some_1 in Hl.
  assert (Hkn : (k < n)%nat) by (apply lookup_lt_Some in Hk; lia).
  assert (Hs : seq 0 n !! k = Some k) by (apply lookup_seq; lia).
  pose proof (Forall2_lookup_lr _ _ _ _ _ _ Hl Hs Hk) as Hfk.
  destruct (H k Hkn) as (b' & Hb' & HP). congruence.
Qed.

(** ** The synthesis terms *)

(** An index that exists selects a member of the array. *)
Lemma getitem_ok {A : Type} (l : list A) (nq : nat) (ix : index) :
  length l = nq -> index_ok nq ix ->
  exists a, getitem l ix = Some a /\ In a l.
Proof.
  intros Hlen Hix. destruct ix as [k|]; simpl in *.
  - destruct (lookup_lt_is_Some_2 l k) as [a Ha]; [lia|].
    exists a. split; [exact Ha|]. apply list_elem_of_In.
    eapply list_elem_of_lookup_2, Ha.
  - destruct (last l) as [a|] eqn:Hl.
    + exists a. split; [reflexivity|]. apply last_Some in Hl as [l' ->].
      apply in_or_app. right. left. reflexivity.
    + apply last_None in Hl. subst l. simpl in Hlen. lia.
Qed.

Section Synthesis.

Variables (h : gmap loc obj) (As CE X Y t : loc) (inp : inputs).
Variables (nq ny nx : nat).
Hypothesis Hh : holds h As CE X Y t inp.
Hypothesis Hw : well_shaped inp nq ny nx.

(** One entry of the comprehension over harmonics. *)
Lemma CE2n_entry_spec (ix : index) (kk : R) (i r : nat) :
  index_ok nq ix -> (i < length (in_t inp))%nat ->
  (r < length (in_CE inp))%nat ->
  exists v, CE2n_entry h As CE t ix kk i r = Some v /\ fits ny nx v
    /\ forall y x, (y < ny)%nat -> (x < nx)%nat ->
         at_ v y x = code_term inp ix kk i r y x.
Proof.
  intros Hix Hi Hr. unfold code_term.
  destruct Hh as (HX & HY & Ht & (lCE & HCE & HlCE) & (d & HAs & HdA & Hda)).
  destruct Hw as (Hny & Hnx & HsX & HsY & HlA & Hla & HwA & Hwa & HwCE).
  (* the coefficient array of harmonic 2r *)
  destruct (lookup_lt_is_Some_2 (in_A inp) r) as [A HA]; [lia|].
  destruct (HdA r A HA) as (lA & HkA & HhA).
  assert (HAf := HwA). rewrite Forall_lookup in HAf.
  destruct (HAf r A HA) as [HAlen HArows].
  destruct (getitem_ok A nq ix HAlen Hix) as (row & Hrow & Hin).
  assert (Hrow0 : exists z, row !! 0%nat = Some z).
  { rewrite List.Forall_forall in HArows. specialize (HArows row Hin).
    destruct row as [|z row]; [congruence|]. exists z. reflexivity. }
  destruct Hrow0 as [A0v HA0].
  (* its eigenvalue array *)
  destruct (lookup_lt_is_Some_2 (in_a inp) r) as [a Ha]; [lia|].
  destruct (Hda r a Ha) as (la & Hka & Hha).
  assert (Haf := Hwa). rewrite Forall_lookup in Haf.
  destruct (getitem_ok a nq ix (Haf r a Ha) Hix) as (aq & Haq & _).
  (* its function table *)
  destruct (lookup_lt_is_Some_2 (in_CE inp) r) as [c Hc]; [lia|].
  destruct (Forall2_lookup_r _ _ _ _ _ HlCE Hc) as (lce & Hlce & Hhce).
  assert (Hcf := HwCE). rewrite Forall_lookup in Hcf.
  destruct (Hcf r c Hc) as [Hclen Hcsh].
  destruct (getitem_ok c nq ix Hclen Hix) as (s & Hs & Hsin).
  assert (Hss : shape s = replicate ny nx).
  { rewrite List.Forall_forall in Hcsh. apply Hcsh, Hsin. }
  (* the time sample *)
  destruct (lookup_lt_is_Some_2 (in_t inp) i) as [ti Hti]; [lia|].
  (* run the entry *)
  unfold CE2n_entry, read_dict, read_c2, read_list, read_c3, read_c1, read_r1.
  rewrite HAs; cbn [mbind option_bind].
  rewrite HkA; cbn [mbind option_bind]. rewrite HhA; cbn [mbind option_bind].
  rewrite Hrow; cbn [mbind option_bind]. rewrite HA0; cbn [mbind option_bind].
  rewrite HCE; cbn [mbind option_bind]. rewrite Hlce; cbn [mbind option_bind].
  rewrite Hhce; cbn [mbind option_bind]. rewrite Hs; cbn [mbind option_bind].
  rewrite Hka; cbn [mbind option_bind]. rewrite Hha; cbn [mbind option_bind].
  rewrite Haq; cbn [mbind option_bind]. rewrite Ht; cbn [mbind option_bind].
  rewrite Hti; cbn [mbind option_bind vmul vlift2].
  eexists. split; [reflexivity|]. split.
  - simpl. rewrite !shape_map. exact Hss.
  - intros y x Hy Hx.
    rewrite (at_map _ _ ny nx) by (rewrite ?shape_map; auto).
    rewrite (at_map _ _ ny nx) by auto.
    unfold A0, a2n, ce2n, t_at.
    rewrite HA, Ha, Hc, Hti. simpl. rewrite Hrow, Haq, Hs. simpl.
    rewrite HA0. simpl. reflexivity.
Qed.

(** [len(CE)] is the number of harmonics. *)
Lemma holds_CE_length :
  exists lCE, read_list h CE = Some lCE /\ length lCE = length (in_CE inp).
Proof.
  destruct Hh as (_ & _ & _ & (lCE & HCE & HlCE) & _).
  exists lCE. unfold read_list. rewrite HCE. split; [reflexivity|].
  eapply Forall2_length, HlCE.
Qed.

(** The [r]-sum. *)
Lemma CE2n_sum_spec (ix : index) (kk : R) (i : nat) :
  index_ok nq ix -> (i < length (in_t inp))%nat ->
  exists v, CE2n_sum h As CE t ix kk i = Some v /\ fits ny nx v
    /\ forall y x, (y < ny)%nat -> (x < nx)%nat ->
         at_ v y x
         = Csum (length (in_CE inp)) (fun r => code_term inp ix kk i r y x).
Proof.
  intros Hix Hi. destruct holds_CE_length as (lCE & HCE & Hlen).
  unfold CE2n_sum. rewrite HCE; cbn [mbind option_bind]. rewrite Hlen.
  destruct (mapM_seq (CE2n_entry h As CE t ix kk i)
              (fun r v => fits ny nx v
                 /\ forall y x, (y < ny)%nat -> (x < nx)%nat ->
                      at_ v y x = code_term inp ix kk i r y x)
              (length (in_CE inp))) as (terms & Hterms & Htl & Hspec).
  { intros r Hr. apply CE2n_entry_spec; assumption. }
  rewrite Hterms; cbn [mbind option_bind].
  destruct (py_sum_spec ny nx terms (fun r y x => code_term inp ix kk i r y x) Hspec)
    as (w & Hw' & Hfw & Hat).
  exists w. rewrite Htl in Hat. auto.
Qed.

(** The slice the single-mode notebook assigns at time index [i]. *)
Lemma T0_single_spec (kk : R) (i : nat) :
  (0 < nq)%nat -> (i < length (in_t inp))%nat ->
  exists v, T0_single h As CE X t kk i = Some (vreal v) /\ fits ny nx v
    /\ forall y x, (y < ny)%nat -> (x < nx)%nat ->
         at_ v y x
         = RC.mul (Csum (length (in_CE inp)) (fun r => code_term inp Last kk i r y x))
                  (RC.exp (RC.mul (RC.of_R (kk * X_at inp y x)) RC.j)).
Proof.
  intros Hq Hi.
  destruct (CE2n_sum_spec Last kk i Hq Hi) as (v & Hv & Hfv & Hat).
  destruct Hh as (HX & _). destruct Hw as (_ & _ & HsX & _).
  assert (Hfp : fits ny nx (VArr (phase kk (in_X inp)))).
  { simpl. unfold phase. rewrite shape_map. exact HsX. }
  destruct (vlift2_fits RC.mul ny nx v _ Hfv Hfp) as (w & Hw' & Hfw & Hatw).
  exists w. unfold T0_single, read_r2. rewrite Hv; cbn [mbind option_bind].
  rewrite HX; cbn [mbind option_bind]. unfold vmul. rewrite Hw'.
  cbn [mbind option_bind]. split; [reflexivity|]. split; [exact Hfw|].
  intros y x Hy Hx. rewrite Hatw, Hat by assumption. f_equal.
  destruct (shape_lookup (in_X inp) ny nx y x HsX Hy Hx) as (row & z & Hrow & _ & Hz).
  unfold phase, X_at. simpl. rewrite !list_lookup_fmap, Hrow. simpl.
  rewrite list_lookup_fmap, Hz. reflexivity.
Qed.

End Synthesis.

Section SynthesisMulti.

Variables (h : gmap loc obj) (COS As CE K cn X Y t : loc) (inp : inputs).
Variables (ny nx : nat).
Hypothesis Hh : holds_multi h COS As CE K cn X Y t inp.
Hypothesis Hw : well_shaped_multi inp ny nx.

(** One entry of [coeff]. *)
Lemma coeff_entry_spec (i k : nat) :
  (i < length (in_t inp))%nat -> (k < length (in_K inp))%nat ->
  exists v, coeff_entry h COS As CE K cn t i k = Some v /\ fits ny nx v
    /\ forall y x, (y < ny)%nat -> (x < nx)%nat ->
         at_ v y x = code_coeff inp i k y x.
Proof.
  intros Hi Hk.
  destruct Hh as (Hh0 & HK & Hcn & (lCOS & HCOS & HlCOS)).
  destruct Hw as (Hw0 & Hlcn & HlC & HsC).
  destruct (lookup_lt_is_Some_2 (in_K inp) k) as [Kk HKk]; [lia|].
  destruct (lookup_lt_is_Some_2 (in_cn inp) k) as [cnk Hcnk]; [lia|].
  destruct (lookup_lt_is_Some_2 (in_COS inp) k) as [c Hc]; [lia|].
  destruct (Forall2_lookup_r _ _ _ _ _ HlCOS Hc) as (lc & Hlc & Hhc).
  assert (Hcs : shape c = replicate ny nx).
  { rewrite Forall_lookup in HsC. apply (HsC k c Hc). }
  destruct (CE2n_sum_spec h As CE X Y t inp _ ny nx Hh0 Hw0 (At k) Kk i Hk Hi)
    as (v & Hv & Hfv & Hat).
  destruct (vlift2_fits RC.mul ny nx (VScal (RC.of_R cnk)) v I Hfv)
    as (w1 & Hw1 & Hfw1 & Hat1).
  destruct (vlift2_fits RC.mul ny nx w1 (VArr c) Hfw1 Hcs)
    as (w2 & Hw2 & Hfw2 & Hat2).
  exists w2. unfold coeff_entry, read_r1, read_floats, read_list, read_c2.
  rewrite HK; cbn [mbind option_bind]. rewrite HKk; cbn [mbind option_bind].
  rewrite Hv; cbn [mbind option_bind]. rewrite Hcn; cbn [mbind option_bind].
  rewrite Hcnk; cbn [mbind option_bind]. rewrite HCOS; cbn [mbind option_bind].
  rewrite Hlc; cbn [mbind option_bind]. rewrite Hhc; cbn [mbind option_bind].
  unfold vmul. rewrite Hw1; cbn [mbind option_bind]. rewrite Hw2.
  split; [reflexivity|]. split; [exact Hfw2|].
  intros y x Hy Hx. rewrite Hat2, Hat1, Hat by assumption.
  unfold code_coeff, cn_at, K_at, COS_at. rewrite Hcnk, HKk, Hc. reflexivity.
Qed.

(** The slice the Gaussian notebooks assign at time index [i], before
    scaling. *)
Lemma T0_multi_spec (i : nat) :
  (i < length (in_t inp))%nat ->
  exists v, T0_multi h COS As CE K cn t (length (in_K inp)) i = Some (vreal v)
    /\ fits ny nx v
    /\ forall y x, (y < ny)%nat -> (x < nx)%nat ->
         at_ v y x = Csum (length (in_K inp)) (fun k => code_coeff inp i k y x).
Proof.
  intros Hi. unfold T0_multi.
  destruct (mapM_seq (coeff_entry h COS As CE K cn t i)
              (fun k v => fits ny nx v
                 /\ forall y x, (y < ny)%nat -> (x < nx)%nat ->
                      at_ v y x = code_coeff inp i k y x)
              (length (in_K inp))) as (coeff & Hcoeff & Hcl & Hspec).
  { intros k Hk. apply coeff_entry_spec; assumption. }
  rewrite Hcoeff; cbn [mbind option_bind].
  destruct (py_sum_spec ny nx coeff (fun k y x => code_coeff inp i k y x) Hspec)
    as (w & Hw' & Hfw & Hat).
  exists w. rewrite Hw'; cbn [mbind option_bind]. rewrite Hcl in Hat. auto.
Qed.

End SynthesisMulti.

(** ** Slices and the time loop *)

(** The cells of a mapped real array. *)
Lemma rat_map (f : R -> R) (a : list (list R)) (ny nx y x : nat) :
  shape a = replicate ny nx -> (y < ny)%nat -> (x < nx)%nat ->
  rat_ (RArr (map (map f) a)) y x = f (rat_ (RArr a) y x).
Proof.
  intros Hs Hy Hx.
  destruct (shape_lookup a ny nx y x Hs Hy Hx) as (row & z & Hrow & _ & Hz).
  simpl. rewrite !list_lookup_fmap, Hrow. simpl.
  rewrite list_lookup_fmap, Hz. reflexivity.
Qed.

(** [.real] keeps the shape and takes the real part of every cell. *)
Lemma vreal_fits (ny nx : nat) (v : val) :
  fits ny nx v -> rfits ny nx (vreal v)
  /\ forall y x, (y < ny)%nat -> (x < nx)%nat ->
       rat_ (vreal v) y x = RC.re (at_ v y x).
Proof.
  destruct v as [z|a]; simpl; intros Hf.
  - auto.
  - rewrite shape_map. split; [exact Hf|]. intros y x Hy Hx.
    destruct (shape_lookup a ny nx y x Hf Hy Hx) as (row & z & Hrow & _ & Hz).
    rewrite !list_lookup_fmap, Hrow. simpl.
    rewrite list_lookup_fmap, Hz. reflexivity.
Qed.

(** Scaling keeps the shape and scales every cell. *)
Lemma rmap_fits (ny nx : nat) (f : R -> R) (v : rval) :
  rfits ny nx v -> rfits ny nx (rmap f v)
  /\ forall y x, (y < ny)%nat -> (x < nx)%nat ->
       rat_ (rmap f v) y x = f (rat_ v y x).
Proof.
  destruct v as [r|a]; intros Hf.
  - simpl. auto.
  - split; [simpl; rewrite shape_map; exact Hf|].
    intros y x Hy Hx. apply (rat_map f a ny nx); assumption.
Qed.

(** A value of the target's length is assigned member by member. *)
Lemma assign_same {A B : Type} (h : A -> B -> option B) (g : A -> B -> B)
    (v : list A) (old : list B) :
  Forall2 (fun a b => h a b = Some (g a b)) v old ->
  assign h v old = Some (zip_with g v old).
Proof.
  intros H. unfold assign.
  rewrite decide_True by (eapply Forall2_length, H).
  apply mapM_zip, H.
Qed.

(** An array of the slice's shape replaces every cell of the slice. *)
Lemma assign_same_shape (a : list (list R)) (old : list (list (option R))) :
  shape a = shape old ->
  assign (assign (fun r _ => Some (Some r))) a old = Some (map (map Some) a).
Proof.
  intros Hs.
  rewrite (assign_same _ (fun ra _ => map Some ra)).
  - f_equal. revert old Hs. induction a as [|ra a IH]; intros [|ro old] Hs;
      try discriminate; [reflexivity|].
    simpl. f_equal. apply IH. injection Hs as _ Ht. exact Ht.
  - revert old Hs. induction a as [|ra a IH]; intros [|ro old] Hs;
      try discriminate; constructor.
    + injection Hs as Hr _.
      rewrite (assign_same _ (fun r _ => Some r)).
      * f_equal. revert ro Hr. induction ra as [|x ra IHr]; intros [|y ro] Hr;
          try discriminate; [reflexivity|].
        simpl. f_equal. apply IHr. simpl in Hr. lia.
      * revert ro Hr. induction ra as [|x ra IHr]; intros [|y ro] Hr;
          try discriminate; constructor; [reflexivity|].
        apply IHr. simpl in Hr. lia.
    + apply IH. injection Hs as _ Ht. exact Ht.
Qed.

(** Assigning a value that fits to a slice of the grid shape succeeds and
    sets every cell. *)
Lemma fill_slice_spec (ny nx : nat) (old : list (list (option R))) (v : rval) :
  shape old = replicate ny nx -> rfits ny nx v ->
  exists new, fill_slice old v = Some new /\ shape new = replicate ny nx
    /\ forall y x, (y < ny)%nat -> (x < nx)%nat ->
         cell new y x = Some (Some (rat_ v y x)).
Proof.
  intros Ho Hv. destruct v as [r|a]; cbn [fill_slice rfits rat_] in *.
  - eexists. split; [reflexivity|]. rewrite shape_map. split; [exact Ho|].
    intros y x Hy Hx.
    destruct (shape_lookup old ny nx y x Ho Hy Hx) as (row & z & Hrow & _ & Hz).
    unfold cell. rewrite list_lookup_fmap, Hrow. simpl.
    rewrite list_lookup_fmap, Hz. reflexivity.
  - rewrite assign_same_shape by congruence.
    eexists. split; [reflexivity|]. rewrite shape_map. split; [exact Hv|].
    intros y x Hy Hx.
    destruct (shape_lookup a ny nx y x Hv Hy Hx) as (row & z & Hrow & _ & Hz).
    unfold cell. rewrite list_lookup_fmap, Hrow. simpl.
    rewrite list_lookup_fmap, Hz. reflexivity.
Qed.

(** What a successful slice assignment did. *)
Lemma store_slice_inv (ds : loc) (var : string) (i : nat) (v : rval) (s s' : state) :
  store_slice ds var i v s = Some (tt, s') ->
  exists vars tv yc xc θ d old new,
    heap s !! ds = Some (XrDataset vars tv yc xc)
    /\ vars !! var = Some θ
    /\ heap s !! θ = Some (NdF3 d)
    /\ d !! i = Some old
    /\ fill_slice old v = Some new
    /\ s' = State (<[θ := NdF3 (<[i := new]> d)]> (heap s)) (writes s ++ [(θ, i)]).
Proof.
  unfold store_slice. intros H.
  destruct (heap s !! ds) as [[| | | | | | | | |vars tv yc xc]|] eqn:Hds; try discriminate.
  destruct (vars !! var) as [θ|] eqn:Hv; [|discriminate].
  cbn [mbind option_bind] in H.
  destruct (heap s !! θ) as [[| | | | |d| | | |]|] eqn:Hθ; try discriminate.
  destruct (d !! i) as [old|] eqn:Hi; [|discriminate].
  cbn [mbind option_bind] in H.
  destruct (fill_slice old v) as [new|] eqn:Hn; [|discriminate].
  cbn [mbind option_bind] in H. injection H as <-.
  exists vars, tv, yc, xc, θ, d, old, new.
  repeat split; first [assumption|reflexivity].
Qed.

(** A slice assignment whose operands exist runs. *)
Lemma store_slice_run (ds θ : loc) (var : string) (i : nat) (v : rval) (s : state)
    vars tv yc xc d old new :
  heap s !! ds = Some (XrDataset vars tv yc xc) ->
  vars !! var = Some θ ->
  heap s !! θ = Some (NdF3 d) ->
  d !! i = Some old ->
  fill_slice old v = Some new ->
  store_slice ds var i v s
  = Some (tt, State (<[θ := NdF3 (<[i := new]> d)]> (heap s))
                    (writes s ++ [(θ, i)])).
Proof.
  intros Hds Hv Hθ Hi Hn. unfold store_slice.
  rewrite Hds, Hv. cbn [mbind option_bind]. rewrite Hθ, Hi.
  cbn [mbind option_bind]. rewrite Hn. reflexivity.
Qed.

(** A loop whose body runs and keeps the invariant runs to the end. *)
Lemma for_each_total (I : state -> list nat -> Prop) (ok : nat -> Prop)
    (body : nat -> Py unit) :
  (forall s done i, I s done -> ok i ->
     exists s', body i s = Some (tt, s') /\ I s' (done ++ [i])) ->
  forall l done s, Forall ok l -> I s done ->
    exists s', for_each l body s = Some (tt, s') /\ I s' (done ++ l).
Proof.
  intros Hstep. induction l as [|i l IH]; intros done s Hok HI.
  - exists s. rewrite app_nil_r. split; [reflexivity|exact HI].
  - apply Forall_cons_1 in Hok as [Hi Hl].
    destruct (Hstep s done i HI Hi) as (s1 & Hb & HI1).
    destruct (IH (done ++ [i]) s1 Hl HI1) as (s2 & Hf & HI2).
    exists s2. simpl. unfold bind. rewrite Hb.
    rewrite <- app_assoc in HI2. split; [exact Hf|exact HI2].
Qed.

(** A loop that ran kept every invariant its body keeps. *)
Lemma for_each_partial (I : state -> list nat -> Prop) (body : nat -> Py unit) :
  (forall s done i s', I s done -> body i s = Some (tt, s') -> I s' (done ++ [i])) ->
  forall l done s s', I s done -> for_each l body s = Some (tt, s') ->
    I s' (done ++ l).
Proof.
  intros Hstep. induction l as [|i l IH]; intros done s s' HI Hrun.
  - simpl in Hrun. injection Hrun as <-. rewrite app_nil_r. exact HI.
  - simpl in Hrun. unfold bind in Hrun.
    destruct (body i s) as [[[] s1]|] eqn:Hb; [|discriminate].
    specialize (IH (done ++ [i]) s1 s' (Hstep _ _ _ _ HI Hb) Hrun).
    rewrite <- app_assoc in IH. exact IH.
Qed.

(** What a successful initialisation did: two new objects, nothing else. *)
Lemma init_dataset_inv (ys : R -> R) (X Y t ds : loc) (s0 s1 : state) :
  init_dataset ys X Y t s0 = Some (ds, s1) ->
  exists tv ycol xrow θ,
    read_r1 (heap s0) t = Some tv
    /\ column0 (heap s0) Y = Some ycol
    /\ row0 (heap s0) X = Some xrow
    /\ (θ ∉ dom (heap s0)) /\ (ds ∉ dom (heap s0)) /\ θ <> ds
    /\ s1 = State (<[ds := XrDataset {["Theta" := θ]} tv (ys <$> ycol) xrow]>
                    (<[θ := NdF3 (nan_array (length tv) (length (ys <$> ycol)) (length xrow))]>
                       (heap s0)))
                  (writes s0).
Proof.
  unfold init_dataset, bind, gets, new_dataset, bind, alloc. intros H.
  destruct (read_r1 (heap s0) t) as [tv|] eqn:Ht; [|discriminate].
  cbn [mbind option_bind] in H.
  destruct (column0 (heap s0) Y) as [ycol|] eqn:HY; [|discriminate].
  cbn [mbind option_bind] in H.
  destruct (row0 (heap s0) X) as [xrow|] eqn:HX; [|discriminate].
  cbn [mbind option_bind heap writes] in H.
  injection H as <- <-.
  set (θ := fresh (dom (heap s0))).
  set (h1 := <[θ := _]> (heap s0)).
  assert (Hθ : θ ∉ dom (heap s0)) by apply is_fresh.
  assert (Hds : fresh (dom h1) ∉ dom h1) by apply is_fresh.
  unfold h1 in Hds at 2. rewrite dom_insert_L in Hds.
  exists tv, ycol, xrow, θ. repeat split; try reflexivity; try assumption.
  - set_solver.
  - set_solver.
Qed.

(** The initialisation runs when [t], [Y[:, 0]] and [X[0, :]] can be
    read. *)
Lemma init_dataset_run (ys : R -> R) (X Y t : loc) (s0 : state) tv ycol xrow :
  read_r1 (heap s0) t = Some tv ->
  column0 (heap s0) Y = Some ycol ->
  row0 (heap s0) X = Some xrow ->
  exists ds s1, init_dataset ys X Y t s0 = Some (ds, s1).
Proof.
  intros Ht HY HX. unfold init_dataset, bind, gets, new_dataset, bind, alloc.
  rewrite Ht; cbn [mbind option_bind]. rewrite HY; cbn [mbind option_bind].
  rewrite HX; cbn [mbind option_bind]. eauto.
Qed.

Section Loop.

Variables (h0 : gmap loc obj) (w0 : list (loc * nat)).
Variables (ds θ : loc) (tv yc xc : list R).
Hypothesis Hθ : θ ∉ dom h0.
Hypothesis Hds : ds ∉ dom h0.
Hypothesis Hne : θ <> ds.
Variable f : gmap loc obj -> nat -> option rval.
Variable g : rval -> rval.

(** A slice assignment into the new array keeps the frame. *)
Lemma store_keeps_frame (s : state) (done : list nat) (i : nat)
    (d : list (list (list (option R)))) (new : list (list (option R))) :
  loop_frame h0 w0 ds θ tv yc xc s done ->
  loop_frame h0 w0 ds θ tv yc xc
    (State (<[θ := NdF3 (<[i := new]> d)]> (heap s)) (writes s ++ [(θ, i)]))
    (done ++ [i]).
Proof.
  intros (Hsub & Hd & Hdom & Hw & (d' & Hd')). unfold loop_frame. simpl.
  split; [|split; [|split; [|split]]].
  - apply insert_subseteq_r; [|exact Hsub]. apply not_elem_of_dom, Hθ.
  - rewrite lookup_insert_ne by exact Hne. exact Hd.
  - rewrite dom_insert_L, Hdom. apply subseteq_union_1_L.
    apply singleton_subseteq_l, elem_of_union_r, elem_of_union_l.
    apply elem_of_singleton. reflexivity.
  - rewrite Hw, fmap_app, <- app_assoc. reflexivity.
  - eexists. apply lookup_insert_eq.
Qed.

(** So does an iteration of the loop that ran. *)
Lemma body_frame (s : state) (done : list nat) (i : nat) (s' : state) :
  loop_frame h0 w0 ds θ tv yc xc s done ->
  (slice_body ds f g) i s = Some (tt, s') ->
  loop_frame h0 w0 ds θ tv yc xc s' (done ++ [i]).
Proof.
  intros HI Hb. unfold slice_body, bind, gets in Hb.
  destruct (f (heap s) i) as [T|]; [|discriminate].
  cbn [mbind option_bind] in Hb.
  destruct (store_slice_inv _ _ _ _ _ _ Hb)
    as (vars & tv' & yc' & xc' & θ' & d & old & new & H1 & H2 & H3 & H4 & H5 & ->).
  destruct HI as (Hsub & Hd & Hrest). rewrite Hd in H1. injection H1 as <- <- <- <-.
  rewrite lookup_singleton_eq in H2. injection H2 as <-.
  apply store_keeps_frame. unfold loop_frame. auto.
Qed.

(** A loop that ran kept the frame. *)
Lemma loop_frame_partial (l : list nat) (s s' : state) :
  loop_frame h0 w0 ds θ tv yc xc s [] ->
  for_each l (slice_body ds f g) s = Some (tt, s') ->
  loop_frame h0 w0 ds θ tv yc xc s' l.
Proof.
  intros HI Hrun.
  apply (for_each_partial (loop_frame h0 w0 ds θ tv yc xc) (slice_body ds f g)
           body_frame l [] s s' HI Hrun).
Qed.

Variables (nt ny nx : nat) (G : nat -> nat -> nat -> R).

Hypothesis Hf : forall h i, h0 ⊆ h -> (i < nt)%nat ->
  exists T, f h i = Some T /\ rfits ny nx (g T)
    /\ forall y x, (y < ny)%nat -> (x < nx)%nat -> rat_ (g T) y x = G i y x.

(** An iteration runs and sets its slice to [G]. *)
Lemma body_total (s : state) (done : list nat) (i : nat) :
  loop_frame h0 w0 ds θ tv yc xc s done /\ loop_data θ nt ny nx G s done ->
  (i < nt)%nat ->
  exists s', (slice_body ds f g) i s = Some (tt, s')
    /\ (loop_frame h0 w0 ds θ tv yc xc s' (done ++ [i])
        /\ loop_data θ nt ny nx G s' (done ++ [i])).
Proof.
  intros [HI (d & Hd & Hlen & Hsh & Hdone)] Hi.
  assert (HI' := HI). destruct HI' as (Hsub & Hdsl & _).
  destruct (Hf (heap s) i Hsub Hi) as (T & HT & HfT & HatT).
  destruct (lookup_lt_is_Some_2 d i) as [old Hold]; [lia|].
  assert (Hos : shape old = replicate ny nx).
  { rewrite Forall_lookup in Hsh. apply (Hsh i old Hold). }
  destruct (fill_slice_spec ny nx old (g T) Hos HfT) as (new & Hnew & Hns & Hnc).
  eexists. split.
  - unfold slice_body, bind, gets. rewrite HT. cbn [mbind option_bind].
    eapply store_slice_run; eauto.
  - split; [apply store_keeps_frame, HI|].
    exists (<[i := new]> d). simpl. split; [apply lookup_insert_eq|].
    split; [rewrite length_insert; exact Hlen|]. split.
    + apply Forall_insert; assumption.
    + intros k sl Hk Hsl y x Hy Hx.
      destruct (decide (k = i)) as [->|Hki].
      * rewrite list_lookup_insert_eq in Hsl by lia. injection Hsl as <-.
        rewrite Hnc, HatT by assumption. reflexivity.
      * rewrite list_lookup_insert_ne in Hsl by congruence.
        apply in_app_or in Hk as [Hk|[Hk|[]]]; [|congruence].
        apply (Hdone k sl Hk Hsl y x Hy Hx).
Qed.

(** The whole loop runs and sets every slice to [G]. *)
Lemma loop_total (s : state) :
  loop_frame h0 w0 ds θ tv yc xc s [] -> loop_data θ nt ny nx G s [] ->
  exists s', for_range nt (slice_body ds f g) s = Some (tt, s')
    /\ loop_frame h0 w0 ds θ tv yc xc s' (seq 0 nt)
    /\ loop_data θ nt ny nx G s' (seq 0 nt).
Proof.
  intros HI HD. unfold for_range.
  destruct (for_each_total
              (fun s done => loop_frame h0 w0 ds θ tv yc xc s done
                             /\ loop_data θ nt ny nx G s done)
              (fun i => (i < nt)%nat) (slice_body ds f g) body_total (seq 0 nt) [] s)
    as (s' & Hrun & HI' & HD'); [|split; assumption|].
  - apply List.Forall_forall. intros i Hi. apply in_seq in Hi. lia.
  - exists s'. auto.
Qed.

End Loop.

(** ** [evolve_ds]: frame and result *)

(** Arrays held by a store are held by every extension of it. *)
Lemma holds_mono (h h' : gmap loc obj) (As CE X Y t : loc) (inp : inputs) :
  h ⊆ h' -> holds h As CE X Y t inp -> holds h' As CE X Y t inp.
Proof.
  intros Hsub (HX & HY & Ht & (lCE & HCE & HlCE) & (d & HAs & HdA & Hda)).
  pose proof (fun l o => lookup_weaken h h' l o) as W.
  unfold holds. split; [eauto|]. split; [eauto|]. split; [eauto|]. split.
  - exists lCE. split; [eauto|].
    eapply Forall2_impl; [exact HlCE|]. simpl. eauto.
  - exists d. split; [eauto|]. split.
    + intros n A HA. destruct (HdA n A HA) as (l & Hl & Hhl). eauto.
    + intros n a Ha. destruct (Hda n a Ha) as (l & Hl & Hhl). eauto.
Qed.

(** The same with the wavenumbers, coefficients and phase tables. *)
Lemma holds_multi_mono (h h' : gmap loc obj) (COS As CE K cn X Y t : loc)
    (inp : inputs) :
  h ⊆ h' -> holds_multi h COS As CE K cn X Y t inp ->
  holds_multi h' COS As CE K cn X Y t inp.
Proof.
  intros Hsub (H0 & HK & Hcn & (lCOS & HCOS & HlCOS)).
  pose proof (fun l o => lookup_weaken h h' l o) as W.
  split; [eapply holds_mono; eassumption|]. split; [eauto|]. split; [eauto|].
  exists lCOS. split; [eauto|].
  eapply Forall2_impl; [exact HlCOS|]. simpl. eauto.
Qed.

(** The shape of equal rows. *)
Lemma shape_replicate {A : Type} (n m : nat) (row : list A) :
  length row = m -> shape (replicate n row) = replicate n m.
Proof. intros <-. unfold shape. apply fmap_replicate. Qed.

(** The frame holds right after the initialisation. *)
Lemma init_state_frame (s0 : state) (ds θ : loc) (tv yc xc : list R) :
  θ ∉ dom (heap s0) -> ds ∉ dom (heap s0) -> θ <> ds ->
  loop_frame (heap s0) (writes s0) ds θ tv yc xc (init_state s0 ds θ tv yc xc) [].
Proof.
  intros Hθ Hds Hne. unfold loop_frame, init_state. simpl.
  split; [|split; [|split; [|split]]].
  - apply insert_subseteq_r; [apply not_elem_of_dom, Hds|].
    apply insert_subseteq_r; [apply not_elem_of_dom, Hθ|]. reflexivity.
  - apply lookup_insert_eq.
  - rewrite !dom_insert_L.
    rewrite (union_comm_L {[ds]}), (union_comm_L {[θ]}), <- union_assoc_L.
    reflexivity.
  - rewrite app_nil_r. reflexivity.
  - eexists. rewrite lookup_insert_ne by congruence. apply lookup_insert_eq.
Qed.

(** So does the data invariant: no slice is assigned yet. *)
Lemma init_state_data (s0 : state) (ds θ : loc) (tv yc xc : list R)
    (G : nat -> nat -> nat -> R) :
  θ <> ds ->
  loop_data θ (length tv) (length yc) (length xc) G
            (init_state s0 ds θ tv yc xc) [].
Proof.
  intros Hne. exists (nan_array (length tv) (length yc) (length xc)).
  unfold init_state. simpl. split.
  - rewrite lookup_insert_ne by congruence. apply lookup_insert_eq.
  - unfold nan_array. split; [apply length_replicate|]. split.
    + apply Forall_replicate. apply shape_replicate, length_replicate.
    + intros i sl [].
Qed.

(** A loop that ran left the frame of a call behind. *)
Lemma loop_frame_is_frame (s0 s1 : state) (ds θ : loc) (tv yc xc : list R)
    (nt : nat) :
  θ ∉ dom (heap s0) -> ds ∉ dom (heap s0) -> θ <> ds ->
  loop_frame (heap s0) (writes s0) ds θ tv yc xc s1 (seq 0 nt) ->
  frame s0 s1 ds nt.
Proof.
  intros Hθ Hds Hne (Hsub & Hd & Hdom & Hw & Hex).
  exists θ, tv, yc, xc. repeat split; try assumption.
  intros l o Hl. eapply lookup_weaken; eassumption.
Qed.

(** An array read from a store is read from every extension of it. *)
Lemma read_r1_weaken (h h' : gmap loc obj) (l : loc) (d : list R) :
  h ⊆ h' -> read_r1 h l = Some d -> read_r1 h' l = Some d.
Proof.
  unfold read_r1. intros Hsub H.
  destruct (h !! l) as [o|] eqn:Hl; [|discriminate].
  rewrite (lookup_weaken _ _ _ _ Hl Hsub). exact H.
Qed.

(** The frame of a call of the Gaussian [evolve_ds] that returned. *)
Lemma evolve_ds_multi_frame (ys post : R -> R) (COS As CE K cn X Y t ds : loc)
    (s0 s1 : state) :
  evolve_ds_multi ys post COS As CE K cn X Y t s0 = Some (ds, s1) ->
  exists tv, read_r1 (heap s0) t = Some tv /\ frame s0 s1 ds (length tv).
Proof.
  unfold evolve_ds_multi. unfold bind at 1. intros H.
  destruct (init_dataset ys X Y t s0) as [[ds' si]|] eqn:Hinit; [|discriminate].
  destruct (init_dataset_inv _ _ _ _ _ _ _ Hinit)
    as (tv & ycol & xrow & θ & Ht & HY & HX & Hθ & Hds & Hne & ->).
  fold (init_state s0 ds' θ tv (ys <$> ycol) xrow) in H.
  pose proof (init_state_frame s0 ds' θ tv (ys <$> ycol) xrow Hθ Hds Hne) as HI.
  unfold bind, gets, len_r1 in H.
  destruct (read_r1 (heap (init_state s0 ds' θ tv (ys <$> ycol) xrow)) K) as [Kv|];
    [|discriminate].
  cbn [fmap option_fmap option_map mbind option_bind] in H.
  rewrite (read_r1_weaken (heap s0) _ t tv) in H; [|apply HI|exact Ht].
  cbn [fmap option_fmap option_map mbind option_bind] in H.
  match type of H with
  | match for_range ?n ?b ?s with _ => _ end = _ =>
      destruct (for_range n b s) as [[[] s2]|] eqn:Hloop; [|discriminate]
  end.
  unfold ret in H. injection H as <- <-.
  exists tv. split; [exact Ht|].
  apply (loop_frame_is_frame s0 s2 ds' θ tv (ys <$> ycol) xrow); try assumption.
  eapply loop_frame_partial
    with (f := fun h i => T0_multi h COS As CE K cn t (length Kv) i)
         (g := rmap post) (s := init_state s0 ds' θ tv (ys <$> ycol) xrow);
    try eassumption.
Qed.

(** [Y[:, 0]] of a grid with at least one column. *)
Lemma column0_ok (h : gmap loc obj) (Y : loc) (a : list (list R)) (ny nx : nat) :
  h !! Y = Some (NdR2 a) -> shape a = replicate ny nx -> (0 < nx)%nat ->
  exists col, column0 h Y = Some col /\ length col = ny.
Proof.
  intros HY Hs Hnx. unfold column0, read_r2. rewrite HY. cbn [mbind option_bind].
  destruct (mapM_is_Some_2 head a) as [col Hcol].
  - apply Forall_lookup. intros y row Hrow. simpl.
    assert (Hl : shape a !! y = Some (length row)).
    { unfold shape. rewrite list_lookup_fmap, Hrow. reflexivity. }
    rewrite Hs in Hl. apply lookup_replicate in Hl as [Hl _].
    destruct row; [simpl in Hl; lia|]. simpl. eauto.
  - exists col. split; [exact Hcol|].
    apply length_mapM in Hcol. rewrite <- Hcol.
    apply (f_equal length) in Hs. unfold shape in Hs.
    rewrite length_fmap, length_replicate in Hs. exact Hs.
Qed.

(** [X[0, :]] of a grid with at least one row. *)
Lemma row0_ok (h : gmap loc obj) (X : loc) (a : list (list R)) (ny nx : nat) :
  h !! X = Some (NdR2 a) -> shape a = replicate ny nx -> (0 < ny)%nat ->
  exists row, row0 h X = Some row /\ length row = nx.
Proof.
  intros HX Hs Hny. unfold row0, read_r2. rewrite HX. cbn [mbind option_bind].
  destruct a as [|row a].
  - destruct ny; [lia|discriminate].
  - exists row. split; [reflexivity|]. destruct ny; [lia|].
    simpl in Hs. injection Hs as Hr _. exact Hr.
Qed.

(** Reading [Theta] back after the loop. *)
Lemma Theta_at_loop (h0 : gmap loc obj) (w0 : list (loc * nat)) (ds θ : loc)
    (tv yc xc : list R) (nt ny nx : nat) (G : nat -> nat -> nat -> R) (s1 : state) :
  loop_frame h0 w0 ds θ tv yc xc s1 (seq 0 nt) ->
  loop_data θ nt ny nx G s1 (seq 0 nt) ->
  forall i y x, (i < nt)%nat -> (y < ny)%nat -> (x < nx)%nat ->
    Theta_at (heap s1) ds i y x = Some (Some (G i y x)).
Proof.
  intros (_ & Hd & _) (d & Hθ & Hlen & _ & Hdata) i y x Hi Hy Hx.
  unfold Theta_at. rewrite Hd, lookup_singleton_eq. cbn [mbind option_bind].
  rewrite Hθ. destruct (lookup_lt_is_Some_2 d i) as [sl Hsl]; [lia|].
  rewrite Hsl. cbn [mbind option_bind].
  apply (Hdata i sl); [apply in_seq; lia|exact Hsl|exact Hy|exact Hx].
Qed.

(** On well-shaped arrays the Gaussian [evolve_ds] returns, and [Theta]
    holds the scaled real part of the sum as the code associates it. *)
Lemma evolve_ds_multi_total (ys post : R -> R) (COS As CE K cn X Y t : loc)
    (inp : inputs) (ny nx : nat) (s0 : state) :
  holds_multi (heap s0) COS As CE K cn X Y t inp ->
  well_shaped_multi inp ny nx ->
  exists ds s1,
    evolve_ds_multi ys post COS As CE K cn X Y t s0 = Some (ds, s1)
    /\ forall i y x, (i < length (in_t inp))%nat -> (y < ny)%nat -> (x < nx)%nat ->
         Theta_at (heap s1) ds i y x
         = Some (Some (post (RC.re (Csum (length (in_K inp))
                                         (fun k => code_coeff inp i k y x))))).
Proof.
  intros Hh Hw.
  assert (Hh' := Hh). destruct Hh' as ((HX & HY & Ht & _) & HK & _).
  assert (Hw' := Hw).
  destruct Hw' as ((Hny & Hnx & HsX & HsY & _) & _).
  destruct (column0_ok _ _ _ _ _ HY HsY Hnx) as (ycol & Hycol & Hyl).
  destruct (row0_ok _ _ _ _ _ HX HsX Hny) as (xrow & Hxrow & Hxl).
  assert (Htv : read_r1 (heap s0) t = Some (in_t inp)).
  { unfold read_r1. rewrite Ht. reflexivity. }
  destruct (init_dataset_run ys X Y t s0 _ _ _ Htv Hycol Hxrow) as (ds & si & Hinit).
  destruct (init_dataset_inv _ _ _ _ _ _ _ Hinit)
    as (tv & ycol' & xrow' & θ & Ht' & HY' & HX' & Hθ & Hds & Hne & Hsi).
  rewrite Htv in Ht'. injection Ht' as <-.
  rewrite Hycol in HY'. injection HY' as <-.
  rewrite Hxrow in HX'. injection HX' as <-.
  fold (init_state s0 ds θ (in_t inp) (ys <$> ycol) xrow) in Hsi.
  pose proof (init_state_frame s0 ds θ (in_t inp) (ys <$> ycol) xrow Hθ Hds Hne) as HI.
  set (G := fun i y x => post (RC.re (Csum (length (in_K inp))
                                          (fun k => code_coeff inp i k y x)))).
  pose proof (init_state_data s0 ds θ (in_t inp) (ys <$> ycol) xrow G Hne) as HD.
  rewrite length_fmap, Hyl, Hxl in HD.
  edestruct (loop_total (heap s0) (writes s0) ds θ (in_t inp) (ys <$> ycol) xrow)
    with (f := fun h i => T0_multi h COS As CE K cn t (length (in_K inp)) i)
         (g := rmap post) (nt := length (in_t inp)) (ny := ny) (nx := nx) (G := G)
    as (s1 & Hloop & HI1 & HD1); try eassumption.
  { intros h i Hsub Hi.
    destruct (T0_multi_spec h COS As CE K cn X Y t inp ny nx
                (holds_multi_mono _ _ _ _ _ _ _ _ _ _ _ Hsub Hh) Hw i Hi)
      as (v & Hv & Hfv & Hat).
    exists (vreal v). split; [exact Hv|].
    destruct (vreal_fits ny nx v Hfv) as [Hrf Hrat].
    destruct (rmap_fits ny nx post (vreal v) Hrf) as [Hmf Hmat].
    split; [exact Hmf|]. intros y x Hy Hx.
    rewrite Hmat, Hrat, Hat by assumption. reflexivity. }
  exists ds, s1. split.
  - unfold evolve_ds_multi. unfold bind at 1. rewrite Hinit, Hsi.
    unfold bind at 1. unfold gets at 1. unfold len_r1 at 1.
    assert (HKi : read_r1 (heap (init_state s0 ds θ (in_t inp) (ys <$> ycol) xrow)) K
                  = Some (in_K inp)).
    { apply (read_r1_weaken (heap s0)); [apply HI|].
      unfold read_r1. rewrite HK. reflexivity. }
    rewrite HKi. cbn [fmap option_fmap option_map mbind option_bind].
    unfold bind at 1. unfold gets at 1. unfold len_r1 at 1.
    rewrite (read_r1_weaken (heap s0) _ t (in_t inp)); [|apply HI|exact Htv].
    cbn [fmap option_fmap option_map mbind option_bind].
    unfold bind at 1.
    change (for_range (length (in_t inp)) _ _)
      with (for_range (length (in_t inp))
              (slice_body ds (fun h i => T0_multi h COS As CE K cn t (length (in_K inp)) i)
                    (rmap post))
              (init_state s0 ds θ (in_t inp) (ys <$> ycol) xrow)).
    rewrite Hloop. reflexivity.
  - apply (Theta_at_loop (heap s0) (writes s0) ds θ (in_t inp) (ys <$> ycol) xrow
             (length (in_t inp)) ny nx G s1 HI1 HD1).
Qed.

(** The frame of a call of the single-mode [evolve_ds] that returned. *)
Lemma evolve_ds_single_frame (As CE : loc) (k : R) (X Y t ds : loc)
    (s0 s1 : state) :
  evolve_ds_single As CE k X Y t s0 = Some (ds, s1) ->
  exists tv, read_r1 (heap s0) t = Some tv /\ frame s0 s1 ds (length tv).
Proof.
  unfold evolve_ds_single. unfold bind at 1. intros H.
  destruct (init_dataset _ X Y t s0) as [[ds' si]|] eqn:Hinit; [|discriminate].
  destruct (init_dataset_inv _ _ _ _ _ _ _ Hinit)
    as (tv & ycol & xrow & θ & Ht & HY & HX & Hθ & Hds & Hne & ->).
  set (ys := fun v : R => (2 * v)%R) in *.
  fold (init_state s0 ds' θ tv (ys <$> ycol) xrow) in H.
  pose proof (init_state_frame s0 ds' θ tv (ys <$> ycol) xrow Hθ Hds Hne) as HI.
  unfold bind, gets, len_r1 in H.
  rewrite (read_r1_weaken (heap s0) _ t tv) in H; [|apply HI|exact Ht].
  cbn [fmap option_fmap option_map mbind option_bind] in H.
  match type of H with
  | match for_range ?n ?b ?s with _ => _ end = _ =>
      destruct (for_range n b s) as [[[] s2]|] eqn:Hloop; [|discriminate]
  end.
  unfold ret in H. injection H as <- <-.
  exists tv. split; [exact Ht|].
  apply (loop_frame_is_frame s0 s2 ds' θ tv (ys <$> ycol) xrow); try assumption.
  eapply loop_frame_partial
    with (f := fun h i => T0_single h As CE X t k i)
         (g := fun v => v) (s := init_state s0 ds' θ tv (ys <$> ycol) xrow);
    try eassumption.
Qed.

(** On well-shaped arrays the single-mode [evolve_ds] returns, and
    [Theta] holds the real part of the sum as the code associates it. *)
Lemma evolve_ds_single_total (As CE : loc) (k : R) (X Y t : loc)
    (inp : inputs) (nq ny nx : nat) (s0 : state) :
  holds (heap s0) As CE X Y t inp ->
  well_shaped inp nq ny nx -> (0 < nq)%nat ->
  exists ds s1,
    evolve_ds_single As CE k X Y t s0 = Some (ds, s1)
    /\ forall i y x, (i < length (in_t inp))%nat -> (y < ny)%nat -> (x < nx)%nat ->
         Theta_at (heap s1) ds i y x
         = Some (Some (RC.re (RC.mul
                   (Csum (length (in_CE inp)) (fun r => code_term inp Last k i r y x))
                   (RC.exp (RC.mul (RC.of_R (k * X_at inp y x)) RC.j))))).
Proof.
  intros Hh Hw Hq.
  assert (Hh' := Hh). destruct Hh' as (HX & HY & Ht & _).
  assert (Hw' := Hw). destruct Hw' as (Hny & Hnx & HsX & HsY & _).
  destruct (column0_ok _ _ _ _ _ HY HsY Hnx) as (ycol & Hycol & Hyl).
  destruct (row0_ok _ _ _ _ _ HX HsX Hny) as (xrow & Hxrow & Hxl).
  assert (Htv : read_r1 (heap s0) t = Some (in_t inp)).
  { unfold read_r1. rewrite Ht. reflexivity. }
  set (ys := fun v : R => (2 * v)%R).
  destruct (init_dataset_run ys X Y t s0 _ _ _ Htv Hycol Hxrow) as (ds & si & Hinit).
  destruct (init_dataset_inv _ _ _ _ _ _ _ Hinit)
    as (tv & ycol' & xrow' & θ & Ht' & HY' & HX' & Hθ & Hds & Hne & Hsi).
  rewrite Htv in Ht'. injection Ht' as <-.
  rewrite Hycol in HY'. injection HY' as <-.
  rewrite Hxrow in HX'. injection HX' as <-.
  fold (init_state s0 ds θ (in_t inp) (ys <$> ycol) xrow) in Hsi.
  pose proof (init_state_frame s0 ds θ (in_t inp) (ys <$> ycol) xrow Hθ Hds Hne) as HI.
  set (G := fun i y x =>
              RC.re (RC.mul
                   (Csum (length (in_CE inp)) (fun r => code_term inp Last k i r y x))
                   (RC.exp (RC.mul (RC.of_R (k * X_at inp y x)) RC.j)))).
  pose proof (init_state_data s0 ds θ (in_t inp) (ys <$> ycol) xrow G Hne) as HD.
  rewrite length_fmap, Hyl, Hxl in HD.
  edestruct (loop_total (heap s0) (writes s0) ds θ (in_t inp) (ys <$> ycol) xrow)
    with (f := fun h i => T0_single h As CE X t k i)
         (g := fun v : rval => v) (nt := length (in_t inp)) (ny := ny) (nx := nx) (G := G)
    as (s1 & Hloop & HI1 & HD1); try eassumption.
  { intros h i Hsub Hi.
    destruct (T0_single_spec h As CE X Y t inp nq ny nx
                (holds_mono _ _ _ _ _ _ _ _ Hsub Hh) Hw k i Hq Hi)
      as (v & Hv & Hfv & Hat).
    exists (vreal v). split; [exact Hv|].
    destruct (vreal_fits ny nx v Hfv) as [Hrf Hrat].
    split; [exact Hrf|]. intros y x Hy Hx.
    rewrite Hrat, Hat by assumption. reflexivity. }
  exists ds, s1. split.
  - unfold evolve_ds_single. unfold bind at 1. fold ys. rewrite Hinit, Hsi.
    unfold bind at 1. unfold gets at 1. unfold len_r1 at 1.
    rewrite (read_r1_weaken (heap s0) _ t (in_t inp)); [|apply HI|exact Htv].
    cbn [fmap option_fmap option_map mbind option_bind].
    unfold bind at 1.
    change (for_range (length (in_t inp)) _ _)
      with (for_range (length (in_t inp))
              (slice_body ds (fun h i => T0_single h As CE X t k i) (fun v => v))
              (init_state s0 ds θ (in_t inp) (ys <$> ycol) xrow)).
    rewrite Hloop. reflexivity.
  - apply (Theta_at_loop (heap s0) (writes s0) ds θ (in_t inp) (ys <$> ycol) xrow
             (length (in_t inp)) ny nx G s1 HI1 HD1).
Qed.

(** ** What the time loop leaves in [Theta] *)

(** The synthesis reads the same from two stores that hold the same
    arrays, lists and dictionaries. *)
Lemma read_r1_same (h h' : gmap loc obj) (l : loc) :
  same_inputs h h' -> read_r1 h l = read_r1 h' l.
Proof.
  intros H. unfold read_r1. destruct (H l) as [->|[H1 H2]]; [reflexivity|].
  destruct (h !! l) as [[]|], (h' !! l) as [[]|]; simpl in *; tauto.
Qed.

Lemma read_r2_same (h h' : gmap loc obj) (l : loc) :
  same_inputs h h' -> read_r2 h l = read_r2 h' l.
Proof.
  intros H. unfold read_r2. destruct (H l) as [->|[H1 H2]]; [reflexivity|].
  destruct (h !! l) as [[]|], (h' !! l) as [[]|]; simpl in *; tauto.
Qed.

Lemma read_c1_same (h h' : gmap loc obj) (l : loc) :
  same_inputs h h' -> read_c1 h l = read_c1 h' l.
Proof.
  intros H. unfold read_c1. destruct (H l) as [->|[H1 H2]]; [reflexivity|].
  destruct (h !! l) as [[]|], (h' !! l) as [[]|]; simpl in *; tauto.
Qed.

Lemma read_c2_same (h h' : gmap loc obj) (l : loc) :
  same_inputs h h' -> read_c2 h l = read_c2 h' l.
Proof.
  intros H. unfold read_c2. destruct (H l) as [->|[H1 H2]]; [reflexivity|].
  destruct (h !! l) as [[]|], (h' !! l) as [[]|]; simpl in *; tauto.
Qed.

Lemma read_c3_same (h h' : gmap loc obj) (l : loc) :
  same_inputs h h' -> read_c3 h l = read_c3 h' l.
Proof.
  intros H. unfold read_c3. destruct (H l) as [->|[H1 H2]]; [reflexivity|].
  destruct (h !! l) as [[]|], (h' !! l) as [[]|]; simpl in *; tauto.
Qed.

Lemma read_floats_same (h h' : gmap loc obj) (l : loc) :
  same_inputs h h' -> read_floats h l = read_floats h' l.
Proof.
  intros H. unfold read_floats. destruct (H l) as [->|[H1 H2]]; [reflexivity|].
  destruct (h !! l) as [[]|], (h' !! l) as [[]|]; simpl in *; tauto.
Qed.

Lemma read_list_same (h h' : gmap loc obj) (l : loc) :
  same_inputs h h' -> read_list h l = read_list h' l.
Proof.
  intros H. unfold read_list. destruct (H l) as [->|[H1 H2]]; [reflexivity|].
  destruct (h !! l) as [[]|], (h' !! l) as [[]|]; simpl in *; tauto.
Qed.

Lemma read_dict_same (h h' : gmap loc obj) (l : loc) :
  same_inputs h h' -> read_dict h l = read_dict h' l.
Proof.
  intros H. unfold read_dict. destruct (H l) as [->|[H1 H2]]; [reflexivity|].
  destruct (h !! l) as [[]|], (h' !! l) as [[]|]; simpl in *; tauto.
Qed.

(** One step of a chain of reads: the same read on both sides, then the
    rest on its result. *)
Ltac same_step H :=
  rewrite ?(read_r1_same _ _ _ H), ?(read_r2_same _ _ _ H),
    ?(read_c1_same _ _ _ H), ?(read_c2_same _ _ _ H),
    ?(read_c3_same _ _ _ H), ?(read_floats_same _ _ _ H),
    ?(read_list_same _ _ _ H), ?(read_dict_same _ _ _ H);
  match goal with
  | |- mbind _ ?m = mbind _ ?m =>
      destruct m; cbn [mbind option_bind]; [|reflexivity]
  end.

Lemma CE2n_entry_same (h h' : gmap loc obj) (As CE t : loc) (ix : index)
    (kk : R) (i r : nat) :
  same_inputs h h' ->
  CE2n_entry h As CE t ix kk i r = CE2n_entry h' As CE t ix kk i r.
Proof.
  intros H. unfold CE2n_entry. repeat same_step H. reflexivity.
Qed.

Lemma CE2n_sum_same (h h' : gmap loc obj) (As CE t : loc) (ix : index)
    (kk : R) (i : nat) :
  same_inputs h h' ->
  CE2n_sum h As CE t ix kk i = CE2n_sum h' As CE t ix kk i.
Proof.
  intros H. unfold CE2n_sum. same_step H.
  rewrite (mapM_ext _ (CE2n_entry h' As CE t ix kk i)); [reflexivity|].
  intros r. apply CE2n_entry_same, H.
Qed.

Lemma T0_multi_same (h h' : gmap loc obj) (COS As CE K cn t : loc) (N i : nat) :
  same_inputs h h' ->
  T0_multi h COS As CE K cn t N i = T0_multi h' COS As CE K cn t N i.
Proof.
  intros H. unfold T0_multi.
  rewrite (mapM_ext _ (coeff_entry h' COS As CE K cn t i)); [reflexivity|].
  intros k. unfold coeff_entry. do 2 same_step H.
  rewrite (CE2n_sum_same h h' _ _ _ _ _ _ H). repeat same_step H. reflexivity.
Qed.

Lemma T0_single_same (h h' : gmap loc obj) (As CE X t : loc) (k : R) (i : nat) :
  same_inputs h h' ->
  T0_single h As CE X t k i = T0_single h' As CE X t k i.
Proof.
  intros H. unfold T0_single.
  rewrite (CE2n_sum_same h h' _ _ _ _ _ _ H). repeat same_step H. reflexivity.
Qed.

(** What a successful assignment along one axis did: the target keeps its
    length, and every member is assigned from the member of the value at
    its index, or at index 0 when the value has length one. *)
Lemma assign_inv {A B : Type} (f : A -> B -> option B) (v : list A)
    (old new : list B) :
  assign f v old = Some new ->
  length new = length old
  /\ forall y o, old !! y = Some o ->
       exists a n,
         v !! (if decide (length v = 1%nat) then 0%nat else y) = Some a
         /\ f a o = Some n /\ new !! y = Some n.
Proof.
  unfold assign. destruct (decide (length v = length old)) as [Hl|Hl].
  - intros H. apply mapM_Some in H.
    split.
    { apply Forall2_length in H. rewrite length_zip_with in H. lia. }
    intros y o Ho.
    destruct (lookup_lt_is_Some_2 v y) as [a Ha].
    { rewrite Hl. eapply lookup_lt_Some, Ho. }
    assert (Hz : zip v old !! y = Some (a, o)).
    { rewrite lookup_zip_with, Ha, Ho. reflexivity. }
    destruct (Forall2_lookup_l _ _ _ _ _ H Hz) as (n & Hn & Hf).
    exists a, n. split; [|split; assumption].
    destruct (decide (length v = 1%nat)) as [H1|_]; [|exact Ha].
    apply lookup_lt_Some in Ho.
    replace y with 0%nat in Ha by lia. exact Ha.
  - destruct v as [|a [|b v]]; try discriminate.
    intros H. apply mapM_Some in H. split.
    { apply Forall2_length in H. lia. }
    intros y o Ho.
    destruct (Forall2_lookup_l _ _ _ _ _ H Ho) as (n & Hn & Hf).
    exists a, n. split; [reflexivity|]. split; assumption.
Qed.

(** What a successful slice assignment did: the slice keeps its shape and
    every cell holds the entry of the value broadcast to it. *)
Lemma fill_slice_inv (ny nx : nat) (old new : list (list (option R)))
    (v : rval) :
  fill_slice old v = Some new -> shape old = replicate ny nx ->
  shape new = replicate ny nx
  /\ forall y x, (y < ny)%nat -> (x < nx)%nat ->
       exists r, stretched_at v y x = Some r /\ cell new y x = Some (Some r).
Proof.
  intros Hf Ho. destruct v as [r|a]; cbn [fill_slice] in Hf.
  - injection Hf as <-. rewrite shape_map. split; [exact Ho|].
    intros y x Hy Hx. exists r. split; [reflexivity|].
    destruct (shape_lookup old ny nx y x Ho Hy Hx) as (row & z & Hrow & _ & Hz).
    unfold cell. rewrite list_lookup_fmap, Hrow. simpl.
    rewrite list_lookup_fmap, Hz. reflexivity.
  - destruct (assign_inv _ _ _ _ Hf) as [Hlen Hrows].
    assert (Hsh : shape new = shape old).
    { apply list_eq. intros y. unfold shape. rewrite !list_lookup_fmap.
      destruct (old !! y) as [orow|] eqn:Hy.
      - destruct (Hrows y orow Hy) as (arow & nrow & _ & Hin & Hn).
        rewrite Hn. simpl. f_equal.
        apply (assign_inv _ _ _ _ Hin).
      - rewrite (lookup_ge_None_2 new y); [reflexivity|].
        rewrite Hlen. apply lookup_ge_None_1, Hy. }
    split; [congruence|]. intros y x Hy Hx.
    destruct (shape_lookup old ny nx y x Ho Hy Hx) as (orow & z & Horow & _ & Hz).
    destruct (Hrows y orow Horow) as (arow & nrow & Ha & Hin & Hn).
    destruct (assign_inv _ _ _ _ Hin) as [_ Hcells].
    destruct (Hcells x z Hz) as (r & n & Hr & Hrn & Hnx).
    injection Hrn as <-.
    exists r. split.
    + cbn [stretched_at]. rewrite Ha. cbn [mbind option_bind]. exact Hr.
    + unfold cell. rewrite Hn. cbn [mbind option_bind]. exact Hnx.
Qed.

(** During the loop the store holds the caller's arrays, lists and
    dictionaries as they were. *)
Lemma frame_same_inputs (h0 : gmap loc obj) (w0 : list (loc * nat))
    (ds θ : loc) (tv yc xc : list R) (s : state) (done : list nat) :
  loop_frame h0 w0 ds θ tv yc xc s done -> same_inputs h0 (heap s).
Proof.
  intros (Hsub & Hd & Hdom & _ & (d & Hθd)) l.
  destruct (h0 !! l) as [o|] eqn:Hl.
  - left. symmetry. eapply lookup_weaken; eassumption.
  - right. split; [exact I|].
    destruct (decide (l = θ)) as [->|Hlθ]; [rewrite Hθd; exact I|].
    destruct (decide (l = ds)) as [->|Hlds]; [rewrite Hd; exact I|].
    assert (Hnot : l ∉ dom (heap s)).
    { rewrite Hdom. intros [Hin|Hin]%elem_of_union.
      - apply elem_of_dom in Hin as [o Ho]. congruence.
      - apply elem_of_union in Hin as [Hin|Hin];
          apply elem_of_singleton in Hin; congruence. }
    apply not_elem_of_dom in Hnot. rewrite Hnot. exact I.
Qed.

Section Filled.

Variables (h0 : gmap loc obj) (w0 : list (loc * nat)).
Variables (ds θ : loc) (tv yc xc : list R).
Hypothesis Hθ : θ ∉ dom h0.
Hypothesis Hne : θ <> ds.
Variable f : gmap loc obj -> nat -> option rval.
Variable g : rval -> rval.
Hypothesis Hsame : forall h i, same_inputs h0 h -> f h i = f h0 i.
Variables (nt ny nx : nat).

(** An iteration that ran kept the frame and left its slice filled. *)
Lemma body_filled (s : state) (done : list nat) (i : nat) (s' : state) :
  loop_frame h0 w0 ds θ tv yc xc s done
  /\ loop_filled θ nt ny nx (fun i => g <$> f h0 i) s done ->
  (slice_body ds f g) i s = Some (tt, s') ->
  loop_frame h0 w0 ds θ tv yc xc s' (done ++ [i])
  /\ loop_filled θ nt ny nx (fun i => g <$> f h0 i) s' (done ++ [i]).
Proof.
  intros [HI (d & Hd & Hlen & Hsh & Hdone)] Hb.
  split; [apply (body_frame h0 w0 ds θ tv yc xc Hθ Hne f g s done i s' HI Hb)|].
  pose proof (frame_same_inputs _ _ _ _ _ _ _ s done HI) as Hin.
  unfold slice_body, bind, gets in Hb.
  rewrite (Hsame _ i Hin) in Hb.
  destruct (f h0 i) as [T|] eqn:HT; [|discriminate].
  cbn [mbind option_bind] in Hb.
  destruct (store_slice_inv _ _ _ _ _ _ Hb)
    as (vars & tv' & yc' & xc' & θ' & d' & old & new
        & H1 & H2 & H3 & H4 & H5 & ->).
  destruct HI as (_ & Hdsl & _). rewrite Hdsl in H1. injection H1 as <- <- <- <-.
  rewrite lookup_singleton_eq in H2. injection H2 as <-.
  rewrite Hd in H3. injection H3 as <-.
  assert (Hos : shape old = replicate ny nx).
  { rewrite Forall_lookup in Hsh. apply (Hsh i old H4). }
  destruct (fill_slice_inv ny nx old new (g T) H5 Hos) as [Hns Hnc].
  exists (<[i := new]> d). cbn [heap]. split; [apply lookup_insert_eq|].
  split; [rewrite length_insert; exact Hlen|]. split.
  - apply Forall_insert; assumption.
  - intros k sl Hk Hsl y x Hy Hx.
    destruct (decide (k = i)) as [->|Hki].
    + rewrite list_lookup_insert_eq in Hsl
        by (eapply lookup_lt_Some, H4).
      injection Hsl as <-.
      destruct (Hnc y x Hy Hx) as (r & Hr & Hc).
      exists (g T), r. rewrite HT. auto.
    + rewrite list_lookup_insert_ne in Hsl by congruence.
      apply in_app_or in Hk as [Hk|[Hk|[]]]; [|congruence].
      apply (Hdone k sl Hk Hsl y x Hy Hx).
Qed.

(** A loop that ran left every slice it visited filled. *)
Lemma loop_filled_partial (l : list nat) (s s' : state) :
  loop_frame h0 w0 ds θ tv yc xc s [] ->
  loop_filled θ nt ny nx (fun i => g <$> f h0 i) s [] ->
  for_each l (slice_body ds f g) s = Some (tt, s') ->
  loop_frame h0 w0 ds θ tv yc xc s' l
  /\ loop_filled θ nt ny nx (fun i => g <$> f h0 i) s' l.
Proof.
  intros HI HD Hrun.
  apply (for_each_partial
           (fun s done => loop_frame h0 w0 ds θ tv yc xc s done
                          /\ loop_filled θ nt ny nx (fun i => g <$> f h0 i)
                                         s done)
           (slice_body ds f g) body_filled l [] s s' (conj HI HD) Hrun).
Qed.

End Filled.

(** No slice is assigned right after the initialisation. *)
Lemma init_state_filled (s0 : state) (ds θ : loc) (tv yc xc : list R)
    (T : nat -> option rval) :
  θ <> ds ->
  loop_filled θ (length tv) (length yc) (length xc) T
              (init_state s0 ds θ tv yc xc) [].
Proof.
  intros Hne. exists (nan_array (length tv) (length yc) (length xc)).
  unfold init_state. simpl. split.
  - rewrite lookup_insert_ne by congruence. apply lookup_insert_eq.
  - unfold nan_array. split; [apply length_replicate|]. split.
    + apply Forall_replicate. apply shape_replicate, length_replicate.
    + intros i sl [].
Qed.

(** Reading [Theta] back after a loop that ran. *)
Lemma slices_hold_loop (h0 : gmap loc obj) (w0 : list (loc * nat)) (ds θ : loc)
    (tv yc xc : list R) (T : nat -> option rval) (s1 : state) :
  loop_frame h0 w0 ds θ tv yc xc s1 (seq 0 (length tv)) ->
  loop_filled θ (length tv) (length yc) (length xc) T s1 (seq 0 (length tv)) ->
  slices_hold s1 ds (length tv) (length yc) (length xc) T.
Proof.
  intros (_ & Hd & _) (d & Hθ & Hlen & _ & Hdata).
  intros i y x Hi Hy Hx.
  destruct (lookup_lt_is_Some_2 d i) as [sl Hsl]; [lia|].
  destruct (Hdata i sl ltac:(apply in_seq; lia) Hsl y x Hy Hx)
    as (T0 & r & HT & Hr & Hc).
  exists T0, r. split; [exact HT|]. split; [exact Hr|].
  unfold Theta_at. rewrite Hd, lookup_singleton_eq. cbn [mbind option_bind].
  rewrite Hθ, Hsl. cbn [mbind option_bind]. exact Hc.
Qed.

(** The slices may be described by any function that agrees with [T]. *)
Lemma slices_hold_ext (s1 : state) (ds : loc) (nt ny nx : nat)
    (T T' : nat -> option rval) :
  (forall i, T i = T' i) ->
  slices_hold s1 ds nt ny nx T -> slices_hold s1 ds nt ny nx T'.
Proof.
  intros HT H i y x Hi Hy Hx. rewrite <- HT. apply H; assumption.
Qed.

(** Scaling by the identity changes nothing. *)
Lemma rmap_id (v : rval) : rmap (fun r => r) v = v.
Proof.
  destruct v as [r|a]; [reflexivity|]. simpl. f_equal.
  rewrite <- (map_id a) at 2. apply map_ext. intros row. apply map_id.
Qed.

(** The content of [Theta] after a call of the Gaussian [evolve_ds] that
    returned. *)
Lemma evolve_ds_multi_filled (ys post : R -> R) (COS As CE K cn X Y t ds : loc)
    (s0 s1 : state) :
  evolve_ds_multi ys post COS As CE K cn X Y t s0 = Some (ds, s1) ->
  exists tv ycol xrow Kv,
    read_r1 (heap s0) t = Some tv
    /\ column0 (heap s0) Y = Some ycol
    /\ row0 (heap s0) X = Some xrow
    /\ read_r1 (heap s0) K = Some Kv
    /\ slices_hold s1 ds (length tv) (length ycol) (length xrow)
         (fun i => rmap post
                   <$> T0_multi (heap s0) COS As CE K cn t (length Kv) i).
Proof.
  unfold evolve_ds_multi. unfold bind at 1. intros H.
  destruct (init_dataset ys X Y t s0) as [[ds' si]|] eqn:Hinit; [|discriminate].
  destruct (init_dataset_inv _ _ _ _ _ _ _ Hinit)
    as (tv & ycol & xrow & θ & Ht & HY & HX & Hθ & Hds & Hne & ->).
  fold (init_state s0 ds' θ tv (ys <$> ycol) xrow) in H.
  pose proof (init_state_frame s0 ds' θ tv (ys <$> ycol) xrow Hθ Hds Hne) as HI.
  pose proof (frame_same_inputs _ _ _ _ _ _ _ _ _ HI) as Hin.
  unfold bind, gets, len_r1 in H.
  rewrite <- (read_r1_same _ _ K Hin) in H.
  destruct (read_r1 (heap s0) K) as [Kv|]; [|discriminate].
  cbn [fmap option_fmap option_map mbind option_bind] in H.
  rewrite <- (read_r1_same _ _ t Hin), Ht in H.
  cbn [fmap option_fmap option_map mbind option_bind] in H.
  match type of H with
  | match for_range ?n ?b ?s with _ => _ end = _ =>
      destruct (for_range n b s) as [[[] s2]|] eqn:Hloop; [|discriminate]
  end.
  unfold ret in H. injection H as <- <-.
  exists tv, ycol, xrow, Kv. repeat (split; [first [assumption|reflexivity]|]).
  pose proof (init_state_filled s0 ds' θ tv (ys <$> ycol) xrow
                (fun i => rmap post
                          <$> T0_multi (heap s0) COS As CE K cn t (length Kv) i)
                Hne) as HD.
  destruct (loop_filled_partial (heap s0) (writes s0) ds' θ tv (ys <$> ycol) xrow
              Hθ Hne
              (fun h i => T0_multi h COS As CE K cn t (length Kv) i)
              (rmap post)
              (fun h i Hh => eq_sym (T0_multi_same _ _ _ _ _ _ _ _ _ _ Hh))
              (length tv) (length (ys <$> ycol)) (length xrow)
              (seq 0 (length tv)) _ s2 HI HD Hloop) as [HI2 HD2].
  rewrite <- (length_fmap ys ycol).
  apply (slices_hold_loop _ _ _ _ _ _ _ _ _ HI2 HD2).
Qed.

(** The same for the single-mode [evolve_ds]. *)
Lemma evolve_ds_single_filled (As CE : loc) (k : R) (X Y t ds : loc)
    (s0 s1 : state) :
  evolve_ds_single As CE k X Y t s0 = Some (ds, s1) ->
  exists tv ycol xrow,
    read_r1 (heap s0) t = Some tv
    /\ column0 (heap s0) Y = Some ycol
    /\ row0 (heap s0) X = Some xrow
    /\ slices_hold s1 ds (length tv) (length ycol) (length xrow)
         (fun i => T0_single (heap s0) As CE X t k i).
Proof.
  unfold evolve_ds_single. unfold bind at 1. intros H.
  destruct (init_dataset _ X Y t s0) as [[ds' si]|] eqn:Hinit; [|discriminate].
  destruct (init_dataset_inv _ _ _ _ _ _ _ Hinit)
    as (tv & ycol & xrow & θ & Ht & HY & HX & Hθ & Hds & Hne & ->).
  set (ys := fun v : R => (2 * v)%R) in *.
  fold (init_state s0 ds' θ tv (ys <$> ycol) xrow) in H.
  pose proof (init_state_frame s0 ds' θ tv (ys <$> ycol) xrow Hθ Hds Hne) as HI.
  pose proof (frame_same_inputs _ _ _ _ _ _ _ _ _ HI) as Hin.
  unfold bind, gets, len_r1 in H.
  rewrite <- (read_r1_same _ _ t Hin), Ht in H.
  cbn [fmap option_fmap option_map mbind option_bind] in H.
  match type of H with
  | match for_range ?n ?b ?s with _ => _ end = _ =>
      destruct (for_range n b s) as [[[] s2]|] eqn:Hloop; [|discriminate]
  end.
  unfold ret in H. injection H as <- <-.
  pose proof (init_state_filled s0 ds' θ tv (ys <$> ycol) xrow
                (fun i => (fun v : rval => v)
                          <$> T0_single (heap s0) As CE X t k i)
                Hne) as HD.
  destruct (loop_filled_partial (heap s0) (writes s0) ds' θ tv (ys <$> ycol) xrow
              Hθ Hne
              (fun h i => T0_single h As CE X t k i)
              (fun v => v)
              (fun h i Hh => eq_sym (T0_single_same _ _ _ _ _ _ _ _ Hh))
              (length tv) (length (ys <$> ycol)) (length xrow)
              (seq 0 (length tv)) _ s2 HI HD Hloop) as [HI2 HD2].
  exists tv, ycol, xrow. repeat (split; [first [assumption|reflexivity]|]).
  rewrite <- (length_fmap ys ycol).
  eapply slices_hold_ext; [|apply (slices_hold_loop _ _ _ _ _ _ _ _ _ HI2 HD2)].
  intros i. cbn beta. destruct (T0_single (heap s0) As CE X t k i); reflexivity.
Qed.

(** ** Algebra of the sums *)

(** Sums of equal terms are equal. *)
Lemma Csum_ext (n : nat) (F G : nat -> RC.cplx) :
  (forall k, (k < n)%nat -> F k = G k) -> Csum n F = Csum n G.
Proof.
  induction n as [|n IH]; intros H; simpl; [reflexivity|].
  rewrite IH by (intros k Hk; apply H; lia). rewrite H by lia. reflexivity.
Qed.

(** A factor distributes over a sum from the left *)
Lemma Csum_mul_l (c : RC.cplx) (n : nat) (F : nat -> RC.cplx) :
  RC.mul c (Csum n F) = Csum n (fun k => RC.mul c (F k)).
Proof.
  induction n as [|n IH]; simpl.
  - apply RC_eq; simpl; ring.
  - rewrite <- IH. apply RC_eq; simpl; ring.
Qed.

(** and from the right. *)
Lemma Csum_mul_r (c : RC.cplx) (n : nat) (F : nat -> RC.cplx) :
  RC.mul (Csum n F) c = Csum n (fun k => RC.mul (F k) c).
Proof.
  induction n as [|n IH]; simpl.
  - apply RC_eq; simpl; ring.
  - rewrite <- IH. apply RC_eq; simpl; ring.
Qed.

(** [r * 1j] is [i r]. *)
Lemma phase_point (r : R) : RC.mul (RC.of_R r) RC.j = RC.mk 0 r.
Proof. apply RC_eq; simpl; ring. Qed.

(** A term of the code times the phase is a term of the formula. *)
Lemma code_term_mode_term (inp : inputs) (ix : index) (kk : R) (i r y x : nat) :
  RC.mul (code_term inp ix kk i r y x) (RC.exp (RC.mk 0 (kk * X_at inp y x)))
  = mode_term inp r ix kk i y x.
Proof.
  unfold code_term, mode_term.
  replace 0.25%R with (/ 4)%R by lra.
  generalize (RC.exp (RC.mul (RC.opp (RC.add (RC.mul (RC.of_R (/ 4)) (a2n inp r ix))
                                              (RC.of_R (kk ^ 2))))
                              (RC.of_R (t_at inp i)))).
  generalize (RC.exp (RC.mk 0 (kk * X_at inp y x))).
  generalize (RC.mul (RC.mul (RC.of_R 2) (A0 inp r ix)) (ce2n inp r ix y x)).
  intros a p e. apply RC_eq; simpl; ring.
Qed.

(** The sum of the single-mode code is the formula. *)
Lemma single_is_spec (inp : inputs) (kk : R) (i y x : nat) :
  RC.re (RC.mul (Csum (length (in_CE inp)) (fun r => code_term inp Last kk i r y x))
                (RC.exp (RC.mul (RC.of_R (kk * X_at inp y x)) RC.j)))
  = theta_spec_single inp kk i y x.
Proof.
  unfold theta_spec_single. rewrite phase_point, Csum_mul_r. f_equal.
  apply Csum_ext. intros r _. apply code_term_mode_term.
Qed.

(** The entries of the phase table the notebook builds. *)
Lemma COS_cell_lookup (Kv : list R) (Xv : list (list R))
    (COS : list (list (list RC.cplx)))
    (k : nat) (Kk : R) :
  COS_cell Kv Xv (length Kv) = Some COS -> Kv !! k = Some Kk ->
  COS !! k = Some (phase Kk Xv).
Proof.
  unfold COS_cell. intros Hc HK. apply mapM_Some_1 in Hc.
  assert (Hs : seq 0 (length Kv) !! k = Some k).
  { apply lookup_seq. apply lookup_lt_Some in HK. lia. }
  destruct (Forall2_lookup_l _ _ _ _ _ Hc Hs) as (c & Hck & Hf).
  rewrite HK in Hf. cbn [mbind option_bind] in Hf. congruence.
Qed.

(** Its cells are [exp(i K[k] X)]. *)
Lemma COS_at_cell (inp : inputs) (ny nx k y x : nat) :
  COS_cell (in_K inp) (in_X inp) (length (in_K inp)) = Some (in_COS inp) ->
  shape (in_X inp) = replicate ny nx ->
  (k < length (in_K inp))%nat -> (y < ny)%nat -> (x < nx)%nat ->
  COS_at inp k y x = RC.exp (RC.mk 0 (K_at inp k * X_at inp y x)).
Proof.
  intros Hc Hs Hk Hy Hx.
  destruct (lookup_lt_is_Some_2 (in_K inp) k Hk) as [Kk HKk].
  pose proof (COS_cell_lookup _ _ _ k Kk Hc HKk) as Hl.
  destruct (shape_lookup (in_X inp) ny nx y x Hs Hy Hx) as (row & z & Hrow & _ & Hz).
  unfold COS_at, K_at, X_at. rewrite Hl, HKk, Hrow. simpl.
  unfold phase. rewrite list_lookup_fmap, Hrow. simpl.
  rewrite list_lookup_fmap, Hz. simpl.
  rewrite phase_point. reflexivity.
Qed.

(** The sum of the Gaussian code is the formula. *)
Lemma multi_is_spec (inp : inputs) (ny nx i y x : nat) :
  COS_cell (in_K inp) (in_X inp) (length (in_K inp)) = Some (in_COS inp) ->
  shape (in_X inp) = replicate ny nx -> (y < ny)%nat -> (x < nx)%nat ->
  RC.re (Csum (length (in_K inp)) (fun k => code_coeff inp i k y x))
  = theta_spec inp i y x.
Proof.
  intros Hc Hs Hy Hx. unfold theta_spec. f_equal.
  apply Csum_ext. intros k Hk. unfold code_coeff.
  rewrite (COS_at_cell inp ny nx k y x Hc Hs Hk Hy Hx).
  rewrite Csum_mul_l, Csum_mul_r. apply Csum_ext. intros r _.
  rewrite <- code_term_mode_term.
  generalize (code_term inp (At k) (K_at inp k) i r y x).
  generalize (RC.exp (RC.mk 0 (K_at inp k * X_at inp y x))).
  generalize (RC.of_R (cn_at inp k)).
  intros c p a. apply RC_eq; simpl; ring.
Qed.

(** ** A smallest call *)

(** The store of the smallest call holds its arrays. *)
Lemma ex_holds :
  holds_multi (heap ex_state) ex_COS ex_As ex_CE ex_K ex_cn ex_X ex_Y ex_t
              ex_inputs.
Proof.
  unfold holds_multi, holds.
  repeat split; try reflexivity.
  - exists [11%positive]. split; [reflexivity|]. repeat constructor.
  - eexists. split; [reflexivity|]. split.
    + intros [|n] A H; [|discriminate]. injection H as <-.
      exists 9%positive. split; reflexivity.
    + intros [|n] a H; [|discriminate]. injection H as <-.
      exists 10%positive. split; reflexivity.
  - exists [12%positive]. split; [reflexivity|]. repeat constructor.
Qed.

(** They are well shaped for a grid of one point. *)
Lemma ex_shaped : well_shaped_multi ex_inputs 1 1.
Proof.
  unfold well_shaped_multi, well_shaped. simpl.
  repeat split; try lia; repeat constructor; discriminate.
Qed.

(** Its phase table is the one the notebook cell builds. *)
Lemma ex_cell :
  COS_cell (in_K ex_inputs) (in_X ex_inputs) (length (in_K ex_inputs))
  = Some (in_COS ex_inputs).
Proof. reflexivity. Qed.

(** [exp(0) = 1]. *)
Lemma exp_zero : RC.exp (RC.mk 0 0) = RC.of_R 1.
Proof.
  unfold RC.exp. simpl. rewrite exp_0, cos_0, sin_0.
  apply RC_eq; simpl; ring.
Qed.

Ltac zero_args :=
  repeat match goal with
         | |- context [exp ?a] =>
             lazymatch a with 0%R => fail | _ => replace a with 0%R by lra end
         | |- context [cos ?a] =>
             lazymatch a with 0%R => fail | _ => replace a with 0%R by lra end
         | |- context [sin ?a] =>
             lazymatch a with 0%R => fail | _ => replace a with 0%R by lra end
         end.

(** The formula gives 2 on the smallest call. *)
Lemma ex_theta : theta_spec ex_inputs 0 0 0 = 2%R.
Proof.
  unfold theta_spec, mode_term, A0, a2n, ce2n, K_at, cn_at, t_at, X_at. simpl.
  zero_args. rewrite exp_0, cos_0, sin_0. lra.
Qed.

(** ** [evolve_ds]: the claims *)

(** The Gaussian [evolve_ds] with a linear factor [c] returns [c] times
    the formula. *)
Lemma evolve_ds_multi_theta (ys post : R -> R) (c : R)
    (COS As CE K cn X Y t : loc) (inp : inputs) (ny nx : nat) (s0 : state) :
  (forall v, post v = (c * v)%R) ->
  holds_multi (heap s0) COS As CE K cn X Y t inp ->
  well_shaped_multi inp ny nx ->
  COS_cell (in_K inp) (in_X inp) (length (in_K inp)) = Some (in_COS inp) ->
  returns_theta (evolve_ds_multi ys post COS As CE K cn X Y t) s0 c
                (theta_spec inp) (length (in_t inp)) ny nx.
Proof.
  intros Hpost Hh Hw Hc.
  destruct (evolve_ds_multi_total ys post COS As CE K cn X Y t inp ny nx s0 Hh Hw)
    as (ds & s1 & Hrun & HT).
  exists ds, s1. split; [exact Hrun|]. intros i y x Hi Hy Hx.
  rewrite (HT i y x Hi Hy Hx), Hpost.
  destruct Hw as ((_ & _ & HsX & _) & _).
  rewrite (multi_is_spec inp ny nx i y x Hc HsX Hy Hx). reflexivity.
Qed.

(** The single-mode [evolve_ds] returns the single-mode formula. *)
Lemma evolve_ds_single_theta (As CE : loc) (k : R) (X Y t : loc)
    (inp : inputs) (nq ny nx : nat) (s0 : state) :
  holds (heap s0) As CE X Y t inp ->
  well_shaped inp nq ny nx -> (0 < nq)%nat ->
  returns_theta (evolve_ds_single As CE k X Y t) s0 1
                (theta_spec_single inp k) (length (in_t inp)) ny nx.
Proof.
  intros Hh Hw Hq.
  destruct (evolve_ds_single_total As CE k X Y t inp nq ny nx s0 Hh Hw Hq)
    as (ds & s1 & Hrun & HT).
  exists ds, s1. split; [exact Hrun|]. intros i y x Hi Hy Hx.
  rewrite (HT i y x Hi Hy Hx), single_is_spec, Rmult_1_l. reflexivity.
Qed.

(** C2, as stated, fails: called as in part_002 with [sigma = 0.5] on the
    smallest input, [evolve_ds] does not return the synthesis formula (it
    returns a quarter of it). *)
Lemma shear_theta_not_formula :
  ~ returns_theta
      (ShearAvg.evolve_ds ex_COS ex_As ex_CE ex_K ex_cn (Q2R ShearAvg.sigma)
                          ex_X ex_Y ex_t)
      ex_state 1 (theta_spec ex_inputs) 1 1 1.
Proof.
  intros (ds & s1 & Hrun & HT).
  destruct (evolve_ds_multi_theta (fun v => v) (fun v => Q2R ShearAvg.sigma ^ 2 * v)%R
              (Q2R ShearAvg.sigma ^ 2)
              ex_COS ex_As ex_CE ex_K ex_cn ex_X ex_Y ex_t ex_inputs 1 1 ex_state
              (fun v => eq_refl) ex_holds ex_shaped ex_cell)
    as (ds' & s1' & Hrun' & HT').
  unfold ShearAvg.evolve_ds in Hrun. rewrite Hrun in Hrun'.
  injection Hrun' as <- <-.
  specialize (HT 0%nat 0%nat 0%nat). specialize (HT' 0%nat 0%nat 0%nat).
  simpl in HT, HT'. rewrite HT in HT' by lia.
  specialize (HT' ltac:(lia) ltac:(lia) ltac:(lia)).
  injection HT' as HT'. rewrite ex_theta in HT'.
  unfold ShearAvg.sigma, Q2R in HT'. simpl in HT'. lra.
Qed.

(** C2, amended: on well-shaped arrays, with [COS] the notebook's table
    [exp(i K[k] X)], [evolve_ds] returns a dataset whose [Theta] at every
    time index and grid point is the real part of the double sum of
    [cn[k] * 2 A^(2n)_0 ce_2n exp(i k x) exp(-(a_2n/4 + k^2) t[i])] in
    part_001, and [sigma^2] times it in part_002; the single-mode
    [evolve_ds] takes one wavenumber and no [cn], and returns the sum over
    harmonics at the last sample of [q]. *)
Theorem evolve_ds_theta :
  (forall (COS As CE K cn : loc) (sigma : R) (X Y t : loc) (inp : inputs)
          (ny nx : nat) (s0 : state),
      holds_multi (heap s0) COS As CE K cn X Y t inp ->
      well_shaped_multi inp ny nx ->
      COS_cell (in_K inp) (in_X inp) (length (in_K inp)) = Some (in_COS inp) ->
      returns_theta (Gauss02.evolve_ds COS As CE K cn sigma X Y t) s0 1
                    (theta_spec inp) (length (in_t inp)) ny nx
      /\ returns_theta (ShearAvg.evolve_ds COS As CE K cn sigma X Y t) s0
                       (sigma ^ 2) (theta_spec inp) (length (in_t inp)) ny nx)
  /\ (forall (As CE : loc) (k : R) (X Y t : loc) (inp : inputs)
             (nq ny nx : nat) (s0 : state),
      holds (heap s0) As CE X Y t inp ->
      well_shaped inp nq ny nx -> (0 < nq)%nat ->
      returns_theta (Anim01b.evolve_ds As CE k X Y t) s0 1
                    (theta_spec_single inp k) (length (in_t inp)) ny nx).
Proof.
  split.
  - intros COS As CE K cn sigma X Y t inp ny nx s0 Hh Hw Hc. split.
    + apply evolve_ds_multi_theta; try assumption. intros v. lra.
    + apply evolve_ds_multi_theta; try assumption. intros v. reflexivity.
  - intros As CE k X Y t inp nq ny nx s0 Hh Hw Hq.
    apply (evolve_ds_single_theta As CE k X Y t inp nq ny nx s0 Hh Hw Hq).
Qed.

Lemma evolve_ds_theta_witness :
  returns_theta
    (ShearAvg.evolve_ds ex_COS ex_As ex_CE ex_K ex_cn (Q2R ShearAvg.sigma)
                        ex_X ex_Y ex_t)
    ex_state (Q2R ShearAvg.sigma ^ 2) (theta_spec ex_inputs) 1 1 1
  /\ returns_theta (Anim01b.evolve_ds ex_As ex_CE 0 ex_X ex_Y ex_t)
                   ex_state 1 (theta_spec_single ex_inputs 0) 1 1 1.
Proof.
  split.
  - apply (proj1 evolve_ds_theta ex_COS ex_As ex_CE ex_K ex_cn
                 (Q2R ShearAvg.sigma) ex_X ex_Y ex_t ex_inputs 1%nat 1%nat
                 ex_state ex_holds ex_shaped ex_cell).
  - apply (proj2 evolve_ds_theta ex_As ex_CE 0%R ex_X ex_Y ex_t ex_inputs
                 1%nat 1%nat 1%nat ex_state (proj1 ex_holds) (proj1 ex_shaped)).
    lia.
Defined.

(** C8: every call of [evolve_ds] that returns has allocated a new
    dataset and a new [Theta] array, has left every object of the caller's
    store, its arguments among them, as it was, and has assigned one slice
    of the new array per time index and nothing else.  After the call the
    slice at every time index holds the value the loop computes from the
    caller's arrays at that index, broadcast to the grid of [Y[:, 0]] and
    [X[0, :]]: no [nan] of the initial array is left.  On well-shaped
    arrays the call returns. *)
Theorem evolve_ds_frame :
  (forall (COS As CE K cn : loc) (sigma : R) (X Y t : loc) (s0 : state)
          (ds : loc) (s1 : state),
      Gauss02.evolve_ds COS As CE K cn sigma X Y t s0 = Some (ds, s1) ->
      exists tv ycol xrow Kv,
        read_r1 (heap s0) t = Some tv
        /\ column0 (heap s0) Y = Some ycol
        /\ row0 (heap s0) X = Some xrow
        /\ read_r1 (heap s0) K = Some Kv
        /\ frame s0 s1 ds (length tv)
        /\ slices_hold s1 ds (length tv) (length ycol) (length xrow)
             (fun i => T0_multi (heap s0) COS As CE K cn t (length Kv) i))
  /\ (forall (COS As CE K cn : loc) (sigma : R) (X Y t : loc) (s0 : state)
             (ds : loc) (s1 : state),
      ShearAvg.evolve_ds COS As CE K cn sigma X Y t s0 = Some (ds, s1) ->
      exists tv ycol xrow Kv,
        read_r1 (heap s0) t = Some tv
        /\ column0 (heap s0) Y = Some ycol
        /\ row0 (heap s0) X = Some xrow
        /\ read_r1 (heap s0) K = Some Kv
        /\ frame s0 s1 ds (length tv)
        /\ slices_hold s1 ds (length tv) (length ycol) (length xrow)
             (fun i => rmap (fun v => sigma ^ 2 * v)%R
                       <$> T0_multi (heap s0) COS As CE K cn t (length Kv) i))
  /\ (forall (As CE : loc) (k : R) (X Y t : loc) (s0 : state)
             (ds : loc) (s1 : state),
      Anim01b.evolve_ds As CE k X Y t s0 = Some (ds, s1) ->
      exists tv ycol xrow,
        read_r1 (heap s0) t = Some tv
        /\ column0 (heap s0) Y = Some ycol
        /\ row0 (heap s0) X = Some xrow
        /\ frame s0 s1 ds (length tv)
        /\ slices_hold s1 ds (length tv) (length ycol) (length xrow)
             (fun i => T0_single (heap s0) As CE X t k i))
  /\ (forall (COS As CE K cn : loc) (sigma : R) (X Y t : loc) (inp : inputs)
             (ny nx : nat) (s0 : state),
      holds_multi (heap s0) COS As CE K cn X Y t inp ->
      well_shaped_multi inp ny nx ->
      (exists ds s1,
          Gauss02.evolve_ds COS As CE K cn sigma X Y t s0 = Some (ds, s1))
      /\ (exists ds s1,
          ShearAvg.evolve_ds COS As CE K cn sigma X Y t s0 = Some (ds, s1)))
  /\ (forall (As CE : loc) (k : R) (X Y t : loc) (inp : inputs)
             (nq ny nx : nat) (s0 : state),
      holds (heap s0) As CE X Y t inp ->
      well_shaped inp nq ny nx -> (0 < nq)%nat ->
      exists ds s1, Anim01b.evolve_ds As CE k X Y t s0 = Some (ds, s1)).
Proof.
  split; [|split; [|split; [|split]]].
  - intros COS As CE K cn sigma X Y t s0 ds s1 H.
    destruct (evolve_ds_multi_frame _ _ _ _ _ _ _ _ _ _ _ _ _ H)
      as (tv' & Htv' & Hf).
    destruct (evolve_ds_multi_filled _ _ _ _ _ _ _ _ _ _ _ _ _ H)
      as (tv & ycol & xrow & Kv & Htv & HY & HX & HK & Hs).
    rewrite Htv in Htv'. injection Htv' as <-.
    exists tv, ycol, xrow, Kv. repeat (split; [assumption|]).
    eapply slices_hold_ext; [|exact Hs].
    intros i. cbn beta.
    destruct (T0_multi (heap s0) COS As CE K cn t (length Kv) i) as [T|];
      [|reflexivity].
    cbn [fmap option_fmap option_map]. rewrite rmap_id. reflexivity.
  - intros COS As CE K cn sigma X Y t s0 ds s1 H.
    destruct (evolve_ds_multi_frame _ _ _ _ _ _ _ _ _ _ _ _ _ H)
      as (tv' & Htv' & Hf).
    destruct (evolve_ds_multi_filled _ _ _ _ _ _ _ _ _ _ _ _ _ H)
      as (tv & ycol & xrow & Kv & Htv & HY & HX & HK & Hs).
    rewrite Htv in Htv'. injection Htv' as <-.
    exists tv, ycol, xrow, Kv. repeat (split; [assumption|]). exact Hs.
  - intros As CE k X Y t s0 ds s1 H.
    destruct (evolve_ds_single_frame _ _ _ _ _ _ _ _ _ H) as (tv' & Htv' & Hf).
    destruct (evolve_ds_single_filled _ _ _ _ _ _ _ _ _ H)
      as (tv & ycol & xrow & Htv & HY & HX & Hs).
    rewrite Htv in Htv'. injection Htv' as <-.
    exists tv, ycol, xrow. repeat (split; [assumption|]). exact Hs.
  - intros COS As CE K cn sigma X Y t inp ny nx s0 Hh Hw. split.
    + destruct (evolve_ds_multi_total (fun v => 2 * v)%R (fun v => v)
                  COS As CE K cn X Y t inp ny nx s0 Hh Hw) as (ds & s1 & H & _).
      exists ds, s1. exact H.
    + destruct (evolve_ds_multi_total (fun v => v) (fun v => sigma ^ 2 * v)%R
                  COS As CE K cn X Y t inp ny nx s0 Hh Hw) as (ds & s1 & H & _).
      exists ds, s1. exact H.
  - intros As CE k X Y t inp nq ny nx s0 Hh Hw Hq.
    destruct (evolve_ds_single_total As CE k X Y t inp nq ny nx s0 Hh Hw Hq)
      as (ds & s1 & H & _).
    exists ds, s1. exact H.
Qed.

Lemma evolve_ds_frame_witness :
  (exists ds s1 r,
      ShearAvg.evolve_ds ex_COS ex_As ex_CE ex_K ex_cn (Q2R ShearAvg.sigma)
                         ex_X ex_Y ex_t ex_state = Some (ds, s1)
      /\ frame ex_state s1 ds 1
      /\ Theta_at (heap s1) ds 0 0 0 = Some (Some r))
  /\ (exists ds s1 r,
      Anim01b.evolve_ds ex_As ex_CE 0 ex_X ex_Y ex_t ex_state = Some (ds, s1)
      /\ frame ex_state s1 ds 1
      /\ Theta_at (heap s1) ds 0 0 0 = Some (Some r))
  /\ (exists ds s1 r,
      Anim01b.evolve_ds ex_As ex_CE 0 ex_X ex_Y ex_t bc_state = Some (ds, s1)
      /\ frame bc_state s1 ds 1
      /\ Theta_at (heap s1) ds 0 0 1 = Some (Some r)).
Proof.
  assert (Ht : forall tv, read_r1 (heap ex_state) ex_t = Some tv ->
                          length tv = 1%nat).
  { intros tv Htv. unfold read_r1 in Htv. simpl in Htv.
    injection Htv as <-. reflexivity. }
  assert (HY : forall ycol, column0 (heap ex_state) ex_Y = Some ycol ->
                            length ycol = 1%nat).
  { intros ycol H. unfold column0, read_r2 in H. simpl in H.
    injection H as <-. reflexivity. }
  assert (HX : forall xrow, row0 (heap ex_state) ex_X = Some xrow ->
                            length xrow = 1%nat).
  { intros xrow H. unfold row0, read_r2 in H. simpl in H.
    injection H as <-. reflexivity. }
  split; [|split].
  - destruct (proj2 (proj1 (proj2 (proj2 (proj2 evolve_ds_frame)))
                       ex_COS ex_As ex_CE ex_K ex_cn (Q2R ShearAvg.sigma)
                       ex_X ex_Y ex_t ex_inputs 1%nat 1%nat ex_state
                       ex_holds ex_shaped))
      as (ds & s1 & Hrun).
    destruct (proj1 (proj2 evolve_ds_frame) ex_COS ex_As ex_CE ex_K ex_cn
                (Q2R ShearAvg.sigma) ex_X ex_Y ex_t ex_state ds s1 Hrun)
      as (tv & ycol & xrow & Kv & Htv & Hyc & Hxr & _ & Hf & Hs).
    rewrite (Ht tv Htv) in Hf, Hs.
    rewrite (HY ycol Hyc), (HX xrow Hxr) in Hs.
    destruct (Hs 0%nat 0%nat 0%nat) as (T0 & r & _ & _ & Hr); try lia.
    exists ds, s1, r. auto.
  - destruct (proj2 (proj2 (proj2 (proj2 evolve_ds_frame)))
                ex_As ex_CE 0%R ex_X ex_Y ex_t ex_inputs 1%nat 1%nat 1%nat
                ex_state (proj1 ex_holds) (proj1 ex_shaped) ltac:(lia))
      as (ds & s1 & Hrun).
    destruct (proj1 (proj2 (proj2 evolve_ds_frame)) ex_As ex_CE 0%R ex_X ex_Y
                ex_t ex_state ds s1 Hrun)
      as (tv & ycol & xrow & Htv & Hyc & Hxr & Hf & Hs).
    rewrite (Ht tv Htv) in Hf, Hs.
    rewrite (HY ycol Hyc), (HX xrow Hxr) in Hs.
    destruct (Hs 0%nat 0%nat 0%nat) as (T0 & r & _ & _ & Hr); try lia.
    exists ds, s1, r. auto.
  - destruct (Anim01b.evolve_ds ex_As ex_CE 0 ex_X ex_Y ex_t bc_state)
      as [[ds s1]|] eqn:Hrun.
    2:{ exfalso. vm_compute in Hrun. discriminate. }
    destruct (proj1 (proj2 (proj2 evolve_ds_frame)) ex_As ex_CE 0%R ex_X ex_Y
                ex_t bc_state ds s1 Hrun)
      as (tv & ycol & xrow & Htv & Hyc & Hxr & Hf & Hs).
    assert (Et : read_r1 (heap bc_state) ex_t = Some [0%R])
      by (vm_compute; reflexivity).
    assert (Ey : column0 (heap bc_state) ex_Y = Some [0%R])
      by (vm_compute; reflexivity).
    assert (Ex : row0 (heap bc_state) ex_X = Some [0%R; 1%R])
      by (vm_compute; reflexivity).
    rewrite Et in Htv. injection Htv as <-.
    rewrite Ey in Hyc. injection Hyc as <-.
    rewrite Ex in Hxr. injection Hxr as <-.
    destruct (Hs 0%nat 0%nat 1%nat) as (T0 & r & _ & _ & Hr);
      [simpl; lia..|].
    exists ds, s1, r. auto.
Defined.

(** ** The cells that prepare the arrays *)

(** A comprehension [[f(l[i]) for i in range(n)]] within bounds is [f]
    mapped over the first [n] entries. *)
Lemma mapM_lookup_take {A B : Type} (f : A -> B) (l : list A) (n : nat) :
  (n <= length l)%nat ->
  mapM (fun i => a ← l !! i; Some (f a)) (seq 0 n) = Some (f <$> take n l).
Proof.
  intros Hn. apply mapM_Some_2, Forall2_same_length_lookup_2.
  - rewrite length_seq, length_fmap, length_take. lia.
  - intros i x y Hx Hy. apply lookup_seq in Hx as [-> Hi]. simpl.
    rewrite list_lookup_fmap, lookup_take_lt in Hy by exact Hi.
    destruct (l !! i) as [a|]; [|discriminate]. exact Hy.
Qed.

(** Past the end of [l] the comprehension raises [IndexError]. *)
Lemma mapM_lookup_past {A B : Type} (f : A -> B) (l : list A) (n : nat) :
  (length l < n)%nat ->
  mapM (fun i => a ← l !! i; Some (f a)) (seq 0 n) = None.
Proof.
  intros Hn. apply mapM_None_2, Exists_exists. exists (length l). split.
  - apply elem_of_seq. lia.
  - rewrite lookup_ge_None_2 by lia. reflexivity.
Qed.

(** The shape of an array of [n] equal rows. *)
Lemma meshgrid_shape (x y : list R) :
  shape (fst (meshgrid x y)) = replicate (length y) (length x)
  /\ shape (snd (meshgrid x y)) = replicate (length y) (length x).
Proof.
  unfold meshgrid, shape. simpl. split.
  - apply fmap_replicate.
  - rewrite <- list_fmap_compose.
    induction y as [|v y IH]; simpl; [reflexivity|].
    rewrite length_replicate. f_equal. exact IH.
Qed.

(** [Y[:, 0]] of a mesh with at least one column is [y]. *)
Lemma mapM_head_mesh (x y : list R) :
  x <> [] -> mapM head (snd (meshgrid x y)) = Some y.
Proof.
  intros Hx. unfold meshgrid. simpl. apply mapM_Some_2.
  apply Forall2_same_length_lookup_2.
  - apply length_map.
  - intros i row v Hrow Hv.
    change (map ?f y) with (f <$> y) in Hrow.
    rewrite list_lookup_fmap, Hv in Hrow. simpl in Hrow.
    injection Hrow as <-. destruct x as [|a x]; [congruence|]. reflexivity.
Qed.

(** The coordinates read back from a mesh. *)
Lemma meshgrid_reads (h : gmap loc obj) (X Y : loc) (x y : list R) :
  h !! X = Some (NdR2 (fst (meshgrid x y))) ->
  h !! Y = Some (NdR2 (snd (meshgrid x y))) ->
  (y <> [] -> row0 h X = Some x) /\ (x <> [] -> column0 h Y = Some y).
Proof.
  intros HX HY. unfold row0, column0, read_r2. rewrite HX, HY.
  cbn [mbind option_bind]. split.
  - intros Hy. destruct y as [|v y]; [congruence|]. reflexivity.
  - apply mapM_head_mesh.
Qed.

(** X1: [X, Y = np.meshgrid(x, y)] gives two arrays of shape
    [(len(y), len(x))], and the coordinates [evolve_ds] reads back from
    them are the originals: [X[0, :]] is [x] when [y] is not empty and
    raises otherwise, and [Y[:, 0]] is [y] when [x] is not empty and
    raises when only [x] is empty. *)
Theorem meshgrid_round_trip (h : gmap loc obj) (X Y : loc) (x y : list R) :
  h !! X = Some (NdR2 (fst (meshgrid x y))) ->
  h !! Y = Some (NdR2 (snd (meshgrid x y))) ->
  shape (fst (meshgrid x y)) = replicate (length y) (length x)
  /\ shape (snd (meshgrid x y)) = replicate (length y) (length x)
  /\ (y <> [] -> row0 h X = Some x)
  /\ (y = [] -> row0 h X = None)
  /\ (x <> [] -> column0 h Y = Some y)
  /\ (x = [] -> y <> [] -> column0 h Y = None).
Proof.
  intros HX HY.
  split; [apply meshgrid_shape|]. split; [apply meshgrid_shape|].
  destruct (meshgrid_reads h X Y x y HX HY) as [Hrow Hcol].
  split; [exact Hrow|]. split; [|split; [exact Hcol|]].
  - intros ->. unfold row0, read_r2. rewrite HX. reflexivity.
  - intros -> Hy. unfold column0, read_r2. rewrite HY.
    destruct y as [|v y]; [congruence|]. reflexivity.
Qed.

Lemma meshgrid_round_trip_witness :
  row0 (<[1%positive := NdR2 (fst (meshgrid [1%R; 2%R; 3%R] [4%R; 5%R]))]>
          (<[2%positive := NdR2 (snd (meshgrid [1%R; 2%R; 3%R] [4%R; 5%R]))]> ∅))
       1%positive = Some [1%R; 2%R; 3%R]
  /\ column0 (<[1%positive := NdR2 (fst (meshgrid [1%R; 2%R; 3%R] [4%R; 5%R]))]>
          (<[2%positive := NdR2 (snd (meshgrid [1%R; 2%R; 3%R] [4%R; 5%R]))]> ∅))
       2%positive = Some [4%R; 5%R].
Proof.
  pose proof (meshgrid_round_trip
    (<[1%positive := NdR2 (fst (meshgrid [1%R; 2%R; 3%R] [4%R; 5%R]))]>
       (<[2%positive := NdR2 (snd (meshgrid [1%R; 2%R; 3%R] [4%R; 5%R]))]> ∅))
    1%positive 2%positive [1%R; 2%R; 3%R] [4%R; 5%R] eq_refl eq_refl)
    as (_ & _ & Hr & _ & Hc & _).
  split; [apply Hr|apply Hc]; discriminate.
Defined.

(** The list [CE] the cell returned: one array per harmonic, each a
    table of [vals] repeated along [x]. *)
Lemma CE_cell_some (vals : gmap string (list (list RC.cplx))) (N Nx : nat)
    (CE : list (list (list (list RC.cplx)))) :
  CE_cell vals N Nx = Some CE ->
  length CE = (N / 2)%nat
  /\ forall r ce, CE !! r = Some ce ->
       exists a, vals !! ("ce" +:+ str (2 * r)) = Some a
         /\ ce = map (map (replicate Nx)) a.
Proof.
  unfold CE_cell. intros H. pose proof (length_mapM _ _ _ H) as Hlen.
  rewrite length_seq in Hlen. split; [lia|].
  intros r ce Hce. apply mapM_Some_1 in H.
  destruct (Forall2_lookup_r _ _ _ _ _ H Hce) as (r' & Hr' & Hf).
  apply lookup_seq in Hr' as [-> _]. cbn beta in Hf.
  change (0 + r)%nat with r in Hf.
  destruct (vals !! ("ce" +:+ str (2 * r))) as [a|]; [|discriminate].
  injection Hf as <-. exists a. split; reflexivity.
Qed.

(** The shape of a table repeated along [x]. *)
Lemma shape_repeat {A : Type} (Nx : nat) (row : list A) :
  shape (map (replicate Nx) row) = replicate (length row) Nx.
Proof.
  unfold shape. change (map ?f row) with (f <$> row).
  rewrite <- list_fmap_compose.
  induction row as [|v row IH]; simpl; [reflexivity|].
  rewrite length_replicate. f_equal. exact IH.
Qed.

(** X2: the cell that builds [CE] either raises [KeyError], exactly when
    [vals] lacks one of the keys ['ce0'], ['ce2'], ..., up to
    ['ce' + str(2 (N//2 - 1))], or returns [N // 2] arrays; the array at
    [r] repeats [vals['ce' + str(2 r)]] along [x]: each row has [Nx]
    entries and [CE[r][q, y, x] = vals['ce' + str(2 r)][q, y]]. *)
Theorem CE_cell_spec (vals : gmap string (list (list RC.cplx))) (N Nx : nat) :
  (CE_cell vals N Nx = None
   <-> exists r, (r < N / 2)%nat /\ vals !! ("ce" +:+ str (2 * r)) = None)
  /\ forall CE, CE_cell vals N Nx = Some CE ->
       length CE = (N / 2)%nat
       /\ forall r ce, CE !! r = Some ce ->
            exists a, vals !! ("ce" +:+ str (2 * r)) = Some a
              /\ length ce = length a
              /\ Forall (fun s => shape s = replicate (length s) Nx) ce
              /\ forall q y x row v,
                   a !! q = Some row -> row !! y = Some v -> (x < Nx)%nat ->
                   (s ← ce !! q; line ← s !! y; line !! x) = Some v.
Proof.
  unfold CE_cell. split.
  - rewrite mapM_None, Exists_exists. split.
    + intros (r & Hr & Hf). apply elem_of_seq in Hr. exists r. split; [lia|].
      destruct (vals !! ("ce" +:+ str (2 * r))); [discriminate|reflexivity].
    + intros (r & Hr & Hk). exists r. split; [apply elem_of_seq; lia|].
      rewrite Hk. reflexivity.
  - intros CE H. destruct (CE_cell_some vals N Nx CE H) as [Hlen Hr].
    split; [exact Hlen|]. intros r ce Hce.
    destruct (Hr r ce Hce) as (a & Ha & ->).
    exists a. split; [exact Ha|].
    split; [rewrite length_map; reflexivity|]. split.
    + apply Forall_forall. intros s Hs.
      change (map ?f a) with (f <$> a) in Hs.
      apply list_elem_of_fmap in Hs as (row & -> & _).
      rewrite shape_repeat, length_map. reflexivity.
    + intros q y x row v Hq Hy Hx.
      change (map ?f a) with (f <$> a).
      rewrite list_lookup_fmap, Hq. simpl.
      change (map ?f row) with (f <$> row).
      rewrite list_lookup_fmap, Hy. simpl.
      apply lookup_replicate_2, Hx.
Qed.

Lemma CE_cell_spec_witness :
  length [ [[ [RC.zero; RC.zero] ]] ] = (2 / 2)%nat.
Proof.
  apply (proj2 (CE_cell_spec {["ce0" := [[RC.zero]]]} 2 2)
               [ [[ [RC.zero; RC.zero] ]] ]).
  vm_compute. reflexivity.
Defined.


(** The list [COS] the cell returned: one phase table per wavenumber. *)
Lemma COS_cell_some (Kv : list R) (Xv : list (list R)) (n : nat)
    (COS : list (list (list RC.cplx))) :
  COS_cell Kv Xv n = Some COS ->
  length COS = n
  /\ forall k table, COS !! k = Some table ->
       exists Kk, Kv !! k = Some Kk /\ table = phase Kk Xv.
Proof.
  unfold COS_cell. intros H.
  destruct (le_lt_dec n (length Kv)) as [Hle|Hlt].
  - rewrite (mapM_lookup_take (fun Kk => phase Kk Xv) Kv n Hle) in H.
    injection H as <-. split; [rewrite length_fmap, length_take; lia|].
    intros k table Hk. rewrite list_lookup_fmap in Hk.
    destruct (take n Kv !! k) as [Kk|] eqn:HKk; [|discriminate].
    injection Hk as <-. apply lookup_take_Some in HKk as [HKk _]. eauto.
  - rewrite (mapM_lookup_past (fun Kk => phase Kk Xv) Kv n Hlt) in H.
    discriminate.
Qed.







(** ** From the cells to [evolve_ds] *)

(** The arrays the cells build from a mesh, from tables of [ce_even] with
    one row per sample of [q] and one column per [y], and from coefficient
    arrays of the solver with one row per sample of [q], have the sizes
    [evolve_ds] indexes them with. *)
Lemma cells_well_shaped (vals : gmap string (list (list RC.cplx)))
    (N : nat) (x y Kv tv cnv : list R)
    (A : list (list (list RC.cplx))) (a : list (list RC.cplx))
    (CE : list (list (list (list RC.cplx))))
    (COS : list (list (list RC.cplx))) :
  x <> [] -> y <> [] ->
  CE_cell vals N (length x) = Some CE ->
  COS_cell Kv (fst (meshgrid x y)) (length Kv) = Some COS ->
  length cnv = length Kv ->
  (forall r t, (r < N / 2)%nat -> vals !! ("ce" +:+ str (2 * r)) = Some t ->
     length t = length Kv /\ Forall (fun row => length row = length y) t) ->
  length A = (N / 2)%nat ->
  Forall (fun Ar => length Ar = length Kv /\ Forall (fun row => row <> []) Ar) A ->
  length a = (N / 2)%nat ->
  Forall (fun ar => length ar = length Kv) a ->
  well_shaped_multi
    (Inputs A a CE Kv cnv (fst (meshgrid x y)) (snd (meshgrid x y)) tv COS)
    (length y) (length x).
Proof.
  intros Hx Hy HCE HCOS Hcn Hvals HA HAr Ha Har.
  destruct (meshgrid_shape x y) as [HsX HsY].
  destruct (CE_cell_some vals N (length x) CE HCE) as [HlCE HCEr].
  destruct (COS_cell_some Kv (fst (meshgrid x y)) (length Kv) COS HCOS)
    as [HlCOS HCOSr].
  unfold well_shaped_multi, well_shaped. cbn [in_A in_a in_CE in_K in_cn in_X in_Y in_t in_COS].
  repeat split; try assumption; try congruence.
  - destruct y; [congruence|simpl; lia].
  - destruct x; [congruence|simpl; lia].
  - apply Forall_lookup. intros r ce Hce.
    destruct (HCEr r ce Hce) as (t & Ht & ->).
    assert (Hr : (r < N / 2)%nat) by (apply lookup_lt_Some in Hce; lia).
    destruct (Hvals r t Hr Ht) as [Htl Hrows].
    split; [rewrite length_map; exact Htl|].
    apply Forall_forall. intros s Hs.
    change (map ?f t) with (f <$> t) in Hs.
    apply list_elem_of_fmap in Hs as (row & -> & Hin).
    rewrite shape_repeat. rewrite Forall_forall in Hrows.
    rewrite (Hrows row Hin). reflexivity.
  - apply Forall_lookup. intros k table Hk.
    destruct (HCOSr k table Hk) as (Kk & _ & ->).
    unfold phase. rewrite shape_map. exact HsX.
Qed.

(** X5: the arrays the notebook's own cells build meet the requirements
    of [evolve_ds].  With [X, Y] the mesh of non-empty [x] and [y], [CE]
    and [COS] built by their cells, one Fourier coefficient per
    wavenumber, and tables of the solver and of [ce_even] with one row per
    sample of [q] (and one column per [y]), the call returns and [Theta]
    is the synthesis formula on the whole grid, in part_001, and
    [sigma^2] times it in part_002. *)
Theorem cells_feed_evolve_ds (vals : gmap string (list (list RC.cplx)))
    (N : nat) (x y Kv tv cnv : list R)
    (A : list (list (list RC.cplx))) (a : list (list RC.cplx))
    (CE : list (list (list (list RC.cplx))))
    (COS : list (list (list RC.cplx)))
    (lCOS lAs lCE lK lcn lX lY lt : loc) (sigma : R) (s0 : state) :
  x <> [] -> y <> [] ->
  CE_cell vals N (length x) = Some CE ->
  COS_cell Kv (fst (meshgrid x y)) (length Kv) = Some COS ->
  length cnv = length Kv ->
  (forall r t, (r < N / 2)%nat -> vals !! ("ce" +:+ str (2 * r)) = Some t ->
     length t = length Kv /\ Forall (fun row => length row = length y) t) ->
  length A = (N / 2)%nat ->
  Forall (fun Ar => length Ar = length Kv /\ Forall (fun row => row <> []) Ar) A ->
  length a = (N / 2)%nat ->
  Forall (fun ar => length ar = length Kv) a ->
  holds_multi (heap s0) lCOS lAs lCE lK lcn lX lY lt
    (Inputs A a CE Kv cnv (fst (meshgrid x y)) (snd (meshgrid x y)) tv COS) ->
  returns_theta (Gauss02.evolve_ds lCOS lAs lCE lK lcn sigma lX lY lt) s0 1
    (theta_spec (Inputs A a CE Kv cnv (fst (meshgrid x y))
                        (snd (meshgrid x y)) tv COS))
    (length tv) (length y) (length x)
  /\ returns_theta (ShearAvg.evolve_ds lCOS lAs lCE lK lcn sigma lX lY lt) s0
       (sigma ^ 2)
       (theta_spec (Inputs A a CE Kv cnv (fst (meshgrid x y))
                           (snd (meshgrid x y)) tv COS))
       (length tv) (length y) (length x).
Proof.
  intros Hx Hy HCE HCOS Hcn Hvals HA HAr Ha Har Hh.
  pose proof (cells_well_shaped vals N x y Kv tv cnv A a CE COS
                Hx Hy HCE HCOS Hcn Hvals HA HAr Ha Har) as Hw.
  split.
  - exact (evolve_ds_multi_theta (fun v => 2 * v)%R (fun v => v) 1
             lCOS lAs lCE lK lcn lX lY lt _ (length y) (length x) s0
             (fun v => eq_sym (Rmult_1_l v)) Hh Hw HCOS).
  - exact (evolve_ds_multi_theta (fun v => v) (fun v => sigma ^ 2 * v)%R (sigma ^ 2)
             lCOS lAs lCE lK lcn lX lY lt _ (length y) (length x) s0
             (fun v => eq_refl) Hh Hw HCOS).
Qed.

Lemma cells_feed_evolve_ds_witness :
  returns_theta
    (Gauss02.evolve_ds ex_COS ex_As ex_CE ex_K ex_cn 1 ex_X ex_Y ex_t)
    ex_state 1 (theta_spec ex_inputs) 1 1 1
  /\ returns_theta
       (ShearAvg.evolve_ds ex_COS ex_As ex_CE ex_K ex_cn 1 ex_X ex_Y ex_t)
       ex_state (1 ^ 2) (theta_spec ex_inputs) 1 1 1.
Proof.
  refine (cells_feed_evolve_ds {["ce0" := [[RC.of_R 1]]]} 2
            [0%R] [0%R] [0%R] [0%R] [1%R] [ [[RC.of_R 1]] ] [ [RC.zero] ]
            [ [[[RC.of_R 1]]] ] [phase 0 [[0%R]]]
            ex_COS ex_As ex_CE ex_K ex_cn ex_X ex_Y ex_t 1%R ex_state
            _ _ _ ex_cell eq_refl _ eq_refl _ eq_refl _ ex_holds).
  - discriminate.
  - discriminate.
  - vm_compute. reflexivity.
  - intros [|r] t Hr Ht; [|simpl in Hr; lia].
    vm_compute in Ht. injection Ht as <-.
    split; [reflexivity|]. repeat constructor.
  - repeat constructor. discriminate.
  - repeat constructor.
Defined.

(** ** [evolve_ds]: coordinates, repeated calls and missing entries *)

(** The coordinates of the dataset a call of the Gaussian [evolve_ds]
    returned. *)
Lemma evolve_ds_multi_coords (ys post : R -> R) (COS As CE K cn X Y t ds : loc)
    (s0 s1 : state) :
  evolve_ds_multi ys post COS As CE K cn X Y t s0 = Some (ds, s1) ->
  exists tv ycol xrow θ,
    read_r1 (heap s0) t = Some tv
    /\ column0 (heap s0) Y = Some ycol
    /\ row0 (heap s0) X = Some xrow
    /\ heap s1 !! ds = Some (XrDataset {["Theta" := θ]} tv (ys <$> ycol) xrow).
Proof.
  unfold evolve_ds_multi. unfold bind at 1. intros H.
  destruct (init_dataset ys X Y t s0) as [[ds' si]|] eqn:Hinit; [|discriminate].
  destruct (init_dataset_inv _ _ _ _ _ _ _ Hinit)
    as (tv & ycol & xrow & θ & Ht & HY & HX & Hθ & Hds & Hne & ->).
  fold (init_state s0 ds' θ tv (ys <$> ycol) xrow) in H.
  pose proof (init_state_frame s0 ds' θ tv (ys <$> ycol) xrow Hθ Hds Hne) as HI.
  unfold bind, gets, len_r1 in H.
  destruct (read_r1 (heap (init_state s0 ds' θ tv (ys <$> ycol) xrow)) K) as [Kv|];
    [|discriminate].
  cbn [fmap option_fmap option_map mbind option_bind] in H.
  rewrite (read_r1_weaken (heap s0) _ t tv) in H; [|apply HI|exact Ht].
  cbn [fmap option_fmap option_map mbind option_bind] in H.
  match type of H with
  | match for_range ?n ?b ?s with _ => _ end = _ =>
      destruct (for_range n b s) as [[[] s2]|] eqn:Hloop; [|discriminate]
  end.
  unfold ret in H. injection H as <- <-.
  assert (HF : loop_frame (heap s0) (writes s0) ds' θ tv (ys <$> ycol) xrow
                          s2 (seq 0 (length tv))).
  { eapply loop_frame_partial
      with (f := fun h i => T0_multi h COS As CE K cn t (length Kv) i)
           (g := rmap post) (s := init_state s0 ds' θ tv (ys <$> ycol) xrow);
      try eassumption. }
  exists tv, ycol, xrow, θ. repeat split; try assumption. apply HF.
Qed.

(** The same for the single-mode [evolve_ds]. *)
Lemma evolve_ds_single_coords (As CE : loc) (k : R) (X Y t ds : loc)
    (s0 s1 : state) :
  evolve_ds_single As CE k X Y t s0 = Some (ds, s1) ->
  exists tv ycol xrow θ,
    read_r1 (heap s0) t = Some tv
    /\ column0 (heap s0) Y = Some ycol
    /\ row0 (heap s0) X = Some xrow
    /\ heap s1 !! ds
       = Some (XrDataset {["Theta" := θ]} tv ((fun v => 2 * v)%R <$> ycol) xrow).
Proof.
  unfold evolve_ds_single. unfold bind at 1. intros H.
  destruct (init_dataset _ X Y t s0) as [[ds' si]|] eqn:Hinit; [|discriminate].
  destruct (init_dataset_inv _ _ _ _ _ _ _ Hinit)
    as (tv & ycol & xrow & θ & Ht & HY & HX & Hθ & Hds & Hne & ->).
  set (ys := fun v : R => (2 * v)%R) in *.
  fold (init_state s0 ds' θ tv (ys <$> ycol) xrow) in H.
  pose proof (init_state_frame s0 ds' θ tv (ys <$> ycol) xrow Hθ Hds Hne) as HI.
  unfold bind, gets, len_r1 in H.
  rewrite (read_r1_weaken (heap s0) _ t tv) in H; [|apply HI|exact Ht].
  cbn [fmap option_fmap option_map mbind option_bind] in H.
  match type of H with
  | match for_range ?n ?b ?s with _ => _ end = _ =>
      destruct (for_range n b s) as [[[] s2]|] eqn:Hloop; [|discriminate]
  end.
  unfold ret in H. injection H as <- <-.
  assert (HF : loop_frame (heap s0) (writes s0) ds' θ tv (ys <$> ycol) xrow
                          s2 (seq 0 (length tv))).
  { eapply loop_frame_partial
      with (f := fun h i => T0_single h As CE X t k i)
           (g := fun v => v) (s := init_state s0 ds' θ tv (ys <$> ycol) xrow);
      try eassumption. }
  exists tv, ycol, xrow, θ. repeat split; try assumption. apply HF.
Qed.

(** X6: the coordinates of the returned dataset.  Called on the mesh of
    non-empty [x] and [y] and on the time array [t], [evolve_ds] returns
    a dataset with the single variable ['Theta'] whose coordinates are
    [time = t] and [x = x], and [y = 2 y] in part_001 and in
    Adv_Diff_IVP_Animation_01 but [y = y] in part_002. *)
Theorem evolve_ds_coords (x y tv : list R) (lX lY lt : loc) (s0 : state)
    (ds : loc) (s1 : state) :
  x <> [] -> y <> [] ->
  heap s0 !! lX = Some (NdR2 (fst (meshgrid x y))) ->
  heap s0 !! lY = Some (NdR2 (snd (meshgrid x y))) ->
  heap s0 !! lt = Some (NdR1 tv) ->
  (forall COS As CE K cn sigma,
      Gauss02.evolve_ds COS As CE K cn sigma lX lY lt s0 = Some (ds, s1) ->
      exists θ, heap s1 !! ds
        = Some (XrDataset {["Theta" := θ]} tv ((fun v => 2 * v)%R <$> y) x))
  /\ (forall COS As CE K cn sigma,
      ShearAvg.evolve_ds COS As CE K cn sigma lX lY lt s0 = Some (ds, s1) ->
      exists θ, heap s1 !! ds = Some (XrDataset {["Theta" := θ]} tv y x))
  /\ (forall As CE k,
      Anim01b.evolve_ds As CE k lX lY lt s0 = Some (ds, s1) ->
      exists θ, heap s1 !! ds
        = Some (XrDataset {["Theta" := θ]} tv ((fun v => 2 * v)%R <$> y) x)).
Proof.
  intros Hx Hy HX HY Ht.
  destruct (meshgrid_reads (heap s0) lX lY x y HX HY) as [Hrow Hcol].
  specialize (Hrow Hy). specialize (Hcol Hx).
  assert (Htv : read_r1 (heap s0) lt = Some tv).
  { unfold read_r1. rewrite Ht. reflexivity. }
  split; [|split].
  - intros COS As CE K cn sigma H.
    destruct (evolve_ds_multi_coords _ _ _ _ _ _ _ _ _ _ _ _ _ H)
      as (tv' & ycol & xrow & θ & H1 & H2 & H3 & H4).
    exists θ. congruence.
  - intros COS As CE K cn sigma H.
    destruct (evolve_ds_multi_coords _ _ _ _ _ _ _ _ _ _ _ _ _ H)
      as (tv' & ycol & xrow & θ & H1 & H2 & H3 & H4).
    exists θ. rewrite list_fmap_id in H4. congruence.
  - intros As CE k H.
    destruct (evolve_ds_single_coords _ _ _ _ _ _ _ _ _ H)
      as (tv' & ycol & xrow & θ & H1 & H2 & H3 & H4).
    exists θ. congruence.
Qed.

(** [Theta] read from a store is read from every store that keeps its
    objects. *)
Lemma Theta_at_keep (h h' : gmap loc obj) (ds : loc) (i y x : nat)
    (v : option R) :
  (forall l o, h !! l = Some o -> h' !! l = Some o) ->
  Theta_at h ds i y x = Some v -> Theta_at h' ds i y x = Some v.
Proof.
  intros Hk. unfold Theta_at.
  destruct (h !! ds) as [[| | | | | | | | |vars tv yc xc]|] eqn:Hds;
    try discriminate.
  rewrite (Hk _ _ Hds).
  destruct (vars !! "Theta") as [θ|]; [|discriminate].
  cbn [mbind option_bind].
  destruct (h !! θ) as [[| | | | |d| | | |]|] eqn:Hθ; try discriminate.
  rewrite (Hk _ _ Hθ). auto.
Qed.

(** A store that keeps every object of another extends it. *)
Lemma keep_subseteq (h h' : gmap loc obj) :
  (forall l o, h !! l = Some o -> h' !! l = Some o) -> h ⊆ h'.
Proof. intros H. apply map_subseteq_spec. exact H. Qed.

(** Two calls in a row of a function with the frame and the result of
    [evolve_ds]. *)
Lemma two_calls (run : Py loc) (P : gmap loc obj -> Prop) (nt ny nx : nat)
    (G : nat -> nat -> nat -> R) (s0 : state) :
  (forall h h', h ⊆ h' -> P h -> P h') ->
  (forall s, P (heap s) ->
     exists ds s', run s = Some (ds, s')
       /\ forall i y x, (i < nt)%nat -> (y < ny)%nat -> (x < nx)%nat ->
            Theta_at (heap s') ds i y x = Some (Some (G i y x))) ->
  (forall s ds s', run s = Some (ds, s') -> exists n, frame s s' ds n) ->
  P (heap s0) ->
  exists ds1 s1 ds2 s2,
    run s0 = Some (ds1, s1) /\ run s1 = Some (ds2, s2)
    /\ ds1 <> ds2
    /\ (forall l o, heap s1 !! l = Some o -> heap s2 !! l = Some o)
    /\ forall i y x, (i < nt)%nat -> (y < ny)%nat -> (x < nx)%nat ->
         Theta_at (heap s2) ds1 i y x = Some (Some (G i y x))
         /\ Theta_at (heap s2) ds2 i y x = Some (Some (G i y x)).
Proof.
  intros Hmono Htot Hframe HP.
  destruct (Htot s0 HP) as (ds1 & s1 & Hrun1 & HT1).
  destruct (Hframe _ _ _ Hrun1)
    as (n1 & θ1 & tv1 & yc1 & xc1 & _ & _ & _ & Hds1 & _ & _ & Hkeep1 & _).
  assert (HP1 : P (heap s1)).
  { apply (Hmono (heap s0)); [apply keep_subseteq, Hkeep1|exact HP]. }
  destruct (Htot s1 HP1) as (ds2 & s2 & Hrun2 & HT2).
  destruct (Hframe _ _ _ Hrun2)
    as (n2 & θ2 & tv2 & yc2 & xc2 & Hfresh & _ & _ & _ & _ & _ & Hkeep2 & _).
  exists ds1, s1, ds2, s2. repeat split; try assumption.
  - intros ->. apply Hfresh. apply elem_of_dom. eauto.
  - apply (Theta_at_keep (heap s1)); [exact Hkeep2|]. apply HT1; assumption.
  - apply HT2; assumption.
Qed.

(** X7: calling [evolve_ds] twice on the same arguments gives two
    different datasets; the second call leaves the first dataset (and
    every other object) as it was, and both hold the same [Theta] on the
    whole grid. *)
Theorem evolve_ds_twice :
  (forall (COS As CE K cn : loc) (sigma : R) (X Y t : loc) (inp : inputs)
          (ny nx : nat) (s0 : state),
      holds_multi (heap s0) COS As CE K cn X Y t inp ->
      well_shaped_multi inp ny nx ->
      forall run, run = Gauss02.evolve_ds COS As CE K cn sigma X Y t
                  \/ run = ShearAvg.evolve_ds COS As CE K cn sigma X Y t ->
      exists ds1 s1 ds2 s2,
        run s0 = Some (ds1, s1) /\ run s1 = Some (ds2, s2)
        /\ ds1 <> ds2
        /\ (forall l o, heap s1 !! l = Some o -> heap s2 !! l = Some o)
        /\ forall i y x, (i < length (in_t inp))%nat -> (y < ny)%nat ->
             (x < nx)%nat ->
             exists v, Theta_at (heap s2) ds1 i y x = Some (Some v)
                       /\ Theta_at (heap s2) ds2 i y x = Some (Some v))
  /\ (forall (As CE : loc) (k : R) (X Y t : loc) (inp : inputs)
             (nq ny nx : nat) (s0 : state),
      holds (heap s0) As CE X Y t inp ->
      well_shaped inp nq ny nx -> (0 < nq)%nat ->
      exists ds1 s1 ds2 s2,
        Anim01b.evolve_ds As CE k X Y t s0 = Some (ds1, s1)
        /\ Anim01b.evolve_ds As CE k X Y t s1 = Some (ds2, s2)
        /\ ds1 <> ds2
        /\ (forall l o, heap s1 !! l = Some o -> heap s2 !! l = Some o)
        /\ forall i y x, (i < length (in_t inp))%nat -> (y < ny)%nat ->
             (x < nx)%nat ->
             exists v, Theta_at (heap s2) ds1 i y x = Some (Some v)
                       /\ Theta_at (heap s2) ds2 i y x = Some (Some v)).
Proof.
  assert (Hmulti : forall ys post COS As CE K cn X Y t inp ny nx s0,
    holds_multi (heap s0) COS As CE K cn X Y t inp ->
    well_shaped_multi inp ny nx ->
    exists ds1 s1 ds2 s2,
      evolve_ds_multi ys post COS As CE K cn X Y t s0 = Some (ds1, s1)
      /\ evolve_ds_multi ys post COS As CE K cn X Y t s1 = Some (ds2, s2)
      /\ ds1 <> ds2
      /\ (forall l o, heap s1 !! l = Some o -> heap s2 !! l = Some o)
      /\ forall i y x, (i < length (in_t inp))%nat -> (y < ny)%nat ->
           (x < nx)%nat ->
           exists v, Theta_at (heap s2) ds1 i y x = Some (Some v)
                     /\ Theta_at (heap s2) ds2 i y x = Some (Some v)).
  { intros ys post COS As CE K cn X Y t inp ny nx s0 Hh Hw.
    destruct (two_calls (evolve_ds_multi ys post COS As CE K cn X Y t)
                (fun h => holds_multi h COS As CE K cn X Y t inp)
                (length (in_t inp)) ny nx
                (fun i y x => post (RC.re (Csum (length (in_K inp))
                                             (fun k => code_coeff inp i k y x))))
                s0)
      as (ds1 & s1 & ds2 & s2 & H1 & H2 & H3 & H4 & H5).
    - intros h h' Hsub. apply holds_multi_mono, Hsub.
    - intros s Hs. apply (evolve_ds_multi_total ys post COS As CE K cn X Y t
                            inp ny nx s Hs Hw).
    - intros s ds s' Hrun.
      destruct (evolve_ds_multi_frame _ _ _ _ _ _ _ _ _ _ _ _ _ Hrun)
        as (tv & _ & Hf). eauto.
    - exact Hh.
    - exists ds1, s1, ds2, s2. repeat split; try assumption.
      intros i y x Hi Hy Hx. eexists. apply (H5 i y x Hi Hy Hx). }
  split.
  - intros COS As CE K cn sigma X Y t inp ny nx s0 Hh Hw run [->| ->];
      apply (Hmulti _ _ _ _ _ _ _ _ _ _ inp ny nx s0 Hh Hw).
  - intros As CE k X Y t inp nq ny nx s0 Hh Hw Hq.
    destruct (two_calls (evolve_ds_single As CE k X Y t)
                (fun h => holds h As CE X Y t inp)
                (length (in_t inp)) ny nx
                (fun i y x =>
                   RC.re (RC.mul
                     (Csum (length (in_CE inp))
                           (fun r => code_term inp Last k i r y x))
                     (RC.exp (RC.mul (RC.of_R (k * X_at inp y x)) RC.j))))
                s0)
      as (ds1 & s1 & ds2 & s2 & H1 & H2 & H3 & H4 & H5).
    + intros h h' Hsub. apply holds_mono, Hsub.
    + intros s Hs. apply (evolve_ds_single_total As CE k X Y t
                            inp nq ny nx s Hs Hw Hq).
    + intros s ds s' Hrun.
      destruct (evolve_ds_single_frame _ _ _ _ _ _ _ _ _ Hrun)
        as (tv & _ & Hf). eauto.
    + exact Hh.
    + exists ds1, s1, ds2, s2. repeat split; try assumption.
      intros i y x Hi Hy Hx. eexists. apply (H5 i y x Hi Hy Hx).
Qed.

Lemma evolve_ds_coords_witness :
  exists ds s1 θ,
    ShearAvg.evolve_ds ex_COS ex_As ex_CE ex_K ex_cn 1 ex_X ex_Y ex_t ex_state
    = Some (ds, s1)
    /\ heap s1 !! ds = Some (XrDataset {["Theta" := θ]} [0%R] [0%R] [0%R]).
Proof.
  destruct (evolve_ds_multi_total (fun v => v) (fun v => 1 ^ 2 * v)%R
              ex_COS ex_As ex_CE ex_K ex_cn ex_X ex_Y ex_t ex_inputs 1 1
              ex_state ex_holds ex_shaped) as (ds & s1 & Hrun & _).
  destruct (proj1 (proj2 (evolve_ds_coords [0%R] [0%R] [0%R] ex_X ex_Y ex_t
                            ex_state ds s1 ltac:(discriminate)
                            ltac:(discriminate) eq_refl eq_refl eq_refl))
                  ex_COS ex_As ex_CE ex_K ex_cn 1%R Hrun) as [θ Hθ].
  exists ds, s1, θ. split; [exact Hrun|exact Hθ].
Defined.

Lemma evolve_ds_twice_witness :
  exists ds1 s1 ds2 s2,
    Gauss02.evolve_ds ex_COS ex_As ex_CE ex_K ex_cn 1 ex_X ex_Y ex_t ex_state
    = Some (ds1, s1)
    /\ Gauss02.evolve_ds ex_COS ex_As ex_CE ex_K ex_cn 1 ex_X ex_Y ex_t s1
       = Some (ds2, s2)
    /\ ds1 <> ds2.
Proof.
  destruct (proj1 evolve_ds_twice ex_COS ex_As ex_CE ex_K ex_cn 1%R
              ex_X ex_Y ex_t ex_inputs 1%nat 1%nat ex_state ex_holds ex_shaped
              _ (or_introl eq_refl))
    as (ds1 & s1 & ds2 & s2 & H1 & H2 & H3 & _).
  exists ds1, s1, ds2, s2. auto.
Defined.

(** A comprehension raises as soon as one entry does. *)
Lemma mapM_seq_None {B : Type} (f : nat -> option B) (n k : nat) :
  (k < n)%nat -> f k = None -> mapM f (seq 0 n) = None.
Proof.
  intros Hk Hf. apply mapM_None_2, Exists_exists. exists k.
  split; [apply elem_of_seq; lia|exact Hf].
Qed.

(** An entry of the comprehension over harmonics raises when [As] lacks
    the coefficient array or the eigenvalue array of that harmonic. *)
Lemma CE2n_entry_missing (h : gmap loc obj) (As CE t : loc) (ix : index)
    (kk : R) (i r : nat) (d : gmap string loc) :
  h !! As = Some (PyDict d) ->
  d !! ("A" +:+ str (2 * r)) = None \/ d !! ("a" +:+ str (2 * r)) = None ->
  CE2n_entry h As CE t ix kk i r = None.
Proof.
  intros HAs Hk. unfold CE2n_entry, read_dict. rewrite HAs.
  cbn [mbind option_bind].
  destruct Hk as [Hk|Hk].
  - rewrite Hk. reflexivity.
  - destruct (d !! ("A" +:+ str (2 * r))) as [lA|]; [|reflexivity].
    cbn [mbind option_bind].
    destruct (read_c2 h lA) as [A|]; [|reflexivity]. cbn [mbind option_bind].
    destruct (getitem A ix) as [Arow|]; [|reflexivity]. cbn [mbind option_bind].
    destruct (Arow !! 0%nat) as [A0|]; [|reflexivity]. cbn [mbind option_bind].
    destruct (read_list h CE) as [lCE|]; [|reflexivity]. cbn [mbind option_bind].
    destruct (lCE !! r) as [lce|]; [|reflexivity]. cbn [mbind option_bind].
    destruct (read_c3 h lce) as [ce|]; [|reflexivity]. cbn [mbind option_bind].
    destruct (getitem ce ix) as [ceq|]; [|reflexivity]. cbn [mbind option_bind].
    rewrite Hk. reflexivity.
Qed.

(** So does the sum over harmonics, for a harmonic within [len(CE)]. *)
Lemma CE2n_sum_missing (h : gmap loc obj) (As CE t : loc) (ix : index)
    (kk : R) (i r : nat) (d : gmap string loc) (lCE : list loc) :
  h !! As = Some (PyDict d) -> h !! CE = Some (PyList lCE) ->
  (r < length lCE)%nat ->
  d !! ("A" +:+ str (2 * r)) = None \/ d !! ("a" +:+ str (2 * r)) = None ->
  CE2n_sum h As CE t ix kk i = None.
Proof.
  intros HAs HCE Hr Hk. unfold CE2n_sum, read_list. rewrite HCE.
  cbn [mbind option_bind].
  rewrite (mapM_seq_None _ (length lCE) r Hr
             (CE2n_entry_missing h As CE t ix kk i r d HAs Hk)).
  reflexivity.
Qed.

(** A time loop raises when its first iteration does. *)
Lemma for_range_first_None (n : nat) (body : nat -> Py unit) (s : state) :
  (0 < n)%nat -> body 0%nat s = None -> for_range n body s = None.
Proof.
  intros Hn Hb. unfold for_range. destruct n as [|n]; [lia|].
  simpl. unfold bind. rewrite Hb. reflexivity.
Qed.

(** X8: [evolve_ds] raises when [As] lacks the coefficient array
    ['A' + str(2 r)] or the eigenvalue array ['a' + str(2 r)] of a
    harmonic [r < len(CE)], provided there is a time sample (and, in the
    Gaussian notebooks, a wavenumber) to evaluate: the harmonics summed
    are those of [CE], and [As] must hold every one of them. *)
Theorem evolve_ds_missing_key (As CE t : loc) (d : gmap string loc)
    (lCE : list loc) (tv : list R) (r : nat) (s0 : state) :
  heap s0 !! As = Some (PyDict d) ->
  heap s0 !! CE = Some (PyList lCE) ->
  heap s0 !! t = Some (NdR1 tv) -> tv <> [] ->
  (r < length lCE)%nat ->
  d !! ("A" +:+ str (2 * r)) = None \/ d !! ("a" +:+ str (2 * r)) = None ->
  (forall COS K cn sigma X Y Kv,
      heap s0 !! K = Some (NdR1 Kv) -> Kv <> [] ->
      Gauss02.evolve_ds COS As CE K cn sigma X Y t s0 = None
      /\ ShearAvg.evolve_ds COS As CE K cn sigma X Y t s0 = None)
  /\ (forall k X Y, Anim01b.evolve_ds As CE k X Y t s0 = None).
Proof.
  intros HAs HCE Ht Htv Hr Hk.
  assert (Hnt : (0 < length tv)%nat) by (destruct tv; [congruence|simpl; lia]).
  assert (Hmulti : forall ys post COS K cn X Y Kv,
            heap s0 !! K = Some (NdR1 Kv) -> Kv <> [] ->
            evolve_ds_multi ys post COS As CE K cn X Y t s0 = None).
  { intros ys post COS K cn X Y Kv HK HKv.
    unfold evolve_ds_multi. unfold bind at 1.
    destruct (init_dataset ys X Y t s0) as [[ds si]|] eqn:Hinit; [|reflexivity].
    destruct (init_dataset_inv _ _ _ _ _ _ _ Hinit)
      as (tv' & ycol & xrow & θ & Ht' & HY & HX & Hθ & Hds & Hne & ->).
    fold (init_state s0 ds θ tv' (ys <$> ycol) xrow).
    pose proof (init_state_frame s0 ds θ tv' (ys <$> ycol) xrow Hθ Hds Hne)
      as (Hsub & _).
    set (si := init_state s0 ds θ tv' (ys <$> ycol) xrow) in *.
    pose proof (fun l o H => lookup_weaken (heap s0) (heap si) l o H Hsub) as W.
    unfold bind, gets, len_r1, read_r1.
    rewrite (W _ _ HK). cbn [fmap option_fmap option_map mbind option_bind].
    rewrite (W _ _ Ht). cbn [fmap option_fmap option_map mbind option_bind].
    rewrite for_range_first_None; [reflexivity|exact Hnt|].
    assert (HT0 : T0_multi (heap si) COS As CE K cn t (length Kv) 0 = None).
    { unfold T0_multi.
      rewrite (mapM_seq_None _ (length Kv) 0); [reflexivity| |].
      - destruct Kv; [congruence|simpl; lia].
      - unfold coeff_entry, read_r1. rewrite (W _ _ HK).
        cbn [mbind option_bind].
        destruct (Kv !! 0%nat) as [Kk|]; [|reflexivity].
        cbn [mbind option_bind].
        rewrite (CE2n_sum_missing (heap si) As CE t (At 0) Kk 0 r d lCE
                   (W _ _ HAs) (W _ _ HCE) Hr Hk).
        reflexivity. }
    rewrite HT0. reflexivity. }
  split.
  - intros COS K cn sigma X Y Kv HK HKv.
    split; apply (Hmulti _ _ COS K cn X Y Kv HK HKv).
  - intros k X Y. unfold Anim01b.evolve_ds, evolve_ds_single.
    unfold bind at 1.
    destruct (init_dataset _ X Y t s0) as [[ds si]|] eqn:Hinit; [|reflexivity].
    destruct (init_dataset_inv _ _ _ _ _ _ _ Hinit)
      as (tv' & ycol & xrow & θ & Ht' & HY & HX & Hθ & Hds & Hne & ->).
    set (ys := fun v : R => (2 * v)%R) in *.
    fold (init_state s0 ds θ tv' (ys <$> ycol) xrow).
    pose proof (init_state_frame s0 ds θ tv' (ys <$> ycol) xrow Hθ Hds Hne)
      as (Hsub & _).
    set (si := init_state s0 ds θ tv' (ys <$> ycol) xrow) in *.
    pose proof (fun l o H => lookup_weaken (heap s0) (heap si) l o H Hsub) as W.
    unfold bind, gets, len_r1, read_r1.
    rewrite (W _ _ Ht). cbn [fmap option_fmap option_map mbind option_bind].
    rewrite for_range_first_None; [reflexivity|exact Hnt|].
    unfold T0_single.
    rewrite (CE2n_sum_missing (heap si) As CE t Last k 0 r d lCE
               (W _ _ HAs) (W _ _ HCE) Hr Hk).
    reflexivity.
Qed.

Lemma evolve_ds_missing_key_witness :
  Anim01b.evolve_ds ex_As ex_CE 0 ex_X ex_Y ex_t
    (State (<[ex_As := PyDict ∅]> ex_heap) []) = None.
Proof.
  refine (proj2 (evolve_ds_missing_key ex_As ex_CE ex_t ∅ [11%positive] [0%R]
                   0 (State (<[ex_As := PyDict ∅]> ex_heap) [])
                   _ _ _ _ (le_n 1) (or_introl _)) 0%R ex_X ex_Y).
  - apply lookup_insert_eq.
  - vm_compute. reflexivity.
  - vm_compute. reflexivity.
  - discriminate.
  - apply lookup_empty.
Defined.

(** ** The inline synthesis of the single-mode notebook *)

(** An accumulation loop computes what [sum] of the comprehension does. *)
Lemma accumulate_sum (f : nat -> option val) (l : list nat) (acc : val) :
  accumulate f acc l = (terms ← mapM f l; sum_from acc terms).
Proof.
  revert acc. induction l as [|n l IH]; intros acc; [reflexivity|].
  cbn [accumulate mapM].
  destruct (f n) as [v|]; [|reflexivity]. cbn [mbind option_bind].
  destruct (vadd acc v) as [acc'|] eqn:Hadd; cbn [mbind option_bind].
  - rewrite IH. destruct (mapM f l) as [k|]; [|reflexivity].
    cbn [mbind option_bind mret option_ret sum_from]. rewrite Hadd. reflexivity.
  - destruct (mapM f l) as [k|]; [|reflexivity].
    cbn [mbind option_bind mret option_ret sum_from]. rewrite Hadd. reflexivity.
Qed.

(** A product whose left factor is an array is an array. *)
Lemma vmul_arr_l (p : list (list RC.cplx)) (u v : val) :
  vmul (VArr p) u = Some v -> exists a, v = VArr a.
Proof.
  unfold vmul, vlift2. destruct u as [b|B].
  - intros H. injection H as <-. eauto.
  - destruct (broadcast _ p B) as [a|]; [|discriminate].
    intros H. injection H as <-. eauto.
Qed.

(** Complex multiplication commutes. *)
Lemma RC_mul_comm (z w : RC.cplx) : RC.mul z w = RC.mul w z.
Proof. apply RC_eq; simpl; ring. Qed.

(** One slice of the inline synthesis, for terms that fit the grid. *)
Lemma slice_of_spec (h : gmap loc obj) (X : loc) (k : R) (n2 : nat)
    (term : nat -> option val) (Xv : list (list R)) (ny nx : nat)
    (F : nat -> nat -> nat -> RC.cplx) :
  h !! X = Some (NdR2 Xv) -> shape Xv = replicate ny nx ->
  (forall r, (r < n2)%nat ->
     exists v, term r = Some v /\ fits ny nx v
       /\ forall y x, (y < ny)%nat -> (x < nx)%nat -> at_ v y x = F r y x) ->
  exists sl, Anim01a.slice_of h X k n2 term = Some sl
    /\ shape sl = replicate ny nx
    /\ forall y x, (y < ny)%nat -> (x < nx)%nat ->
         rat_ (RArr sl) y x
         = RC.re (RC.mul (at_ (VArr (phase k Xv)) y x)
                         (Csum n2 (fun r => F r y x))).
Proof.
  intros HX HsX Hterm. unfold Anim01a.slice_of.
  rewrite accumulate_sum.
  destruct (mapM_seq term
              (fun r v => fits ny nx v
                 /\ forall y x, (y < ny)%nat -> (x < nx)%nat ->
                      at_ v y x = F r y x) n2 Hterm)
    as (terms & Hterms & Htl & Hspec).
  rewrite Hterms. cbn [mbind option_bind].
  destruct (py_sum_spec ny nx terms F Hspec) as (w & Hw & Hfw & Hat).
  unfold py_sum in Hw. rewrite Hw. cbn [mbind option_bind].
  unfold read_r2. rewrite HX. cbn [mbind option_bind].
  assert (Hfp : fits ny nx (VArr (phase k Xv))).
  { simpl. unfold phase. rewrite shape_map. exact HsX. }
  destruct (vlift2_fits RC.mul ny nx _ w Hfp Hfw) as (v & Hv & Hfv & Hatv).
  fold vmul in Hv. rewrite Hv. cbn [mbind option_bind].
  destruct (vmul_arr_l _ _ _ Hv) as [a ->].
  destruct (vreal_fits ny nx (VArr a) Hfv) as [Hrf Hrat].
  simpl vreal in *. simpl as_array. eexists. split; [reflexivity|].
  split; [exact Hrf|]. intros y x Hy Hx.
  rewrite Hrat, Hatv, Hat by assumption. rewrite Htl. reflexivity.
Qed.

(** Appending slices of one shape. *)
Lemma append_slices_spec (step : nat -> option (list (list R)))
    (ny nx : nat) (P : nat -> list (list R) -> Prop) (l : list nat) :
  (forall i, In i l ->
     exists sl, step i = Some sl /\ shape sl = replicate ny nx /\ P i sl) ->
  forall T0, Forall (fun sl => shape sl = replicate ny nx) T0 ->
    exists T, append_slices step T0 l = Some T
      /\ length T = (length T0 + length l)%nat
      /\ (forall j sl, T0 !! j = Some sl -> T !! j = Some sl)
      /\ forall j i, l !! j = Some i ->
           exists sl, T !! (length T0 + j)%nat = Some sl /\ P i sl.
Proof.
  induction l as [|i l IH]; intros Hstep T0 HT0.
  - exists T0. simpl. repeat split; [lia|auto|]. intros j i H. discriminate.
  - destruct (Hstep i (or_introl eq_refl)) as (sl & Hsl & Hsh & HP).
    assert (HT1 : Forall (fun s => shape s = replicate ny nx) (T0 ++ [sl])).
    { apply Forall_app. split; [exact HT0|]. constructor; [exact Hsh|constructor]. }
    destruct (IH (fun i' Hi' => Hstep i' (or_intror Hi')) (T0 ++ [sl]) HT1)
      as (T & HT & Hlen & Hold & Hnew).
    exists T. cbn [append_slices]. rewrite Hsl. cbn [mbind option_bind].
    unfold np_append. rewrite decide_True.
    2:{ eapply Forall_impl; [exact HT0|]. simpl. intros s Hs. congruence. }
    cbn [mbind option_bind]. split; [exact HT|].
    rewrite length_app in Hlen. simpl in Hlen. split; [simpl; lia|]. split.
    + intros j s Hj. apply Hold. apply lookup_app_l_Some, Hj.
    + intros [|j] i' Hj.
      * simpl in Hj. injection Hj as <-. exists sl. split; [|exact HP].
        apply Hold. rewrite Nat.add_0_r.
        rewrite lookup_app_r by lia. rewrite Nat.sub_diag. reflexivity.
      * simpl in Hj. destruct (Hnew j i' Hj) as (s & Hs & HPs).
        exists s. split; [|exact HPs].
        rewrite length_app in Hs. simpl in Hs.
        replace (length T0 + S j)%nat with (length T0 + 1 + j)%nat by lia.
        exact Hs.
Qed.

Section Inline.

Variables (h : gmap loc obj) (As CE X Y t : loc) (inp : inputs).
Variables (nq ny nx : nat).
Hypothesis Hh : holds h As CE X Y t inp.
Hypothesis Hw : well_shaped inp nq ny nx.
Hypothesis Hq : (0 < nq)%nat.

(** The term of the first loop. *)
Lemma CE2n_entry0_spec (r : nat) :
  (r < length (in_CE inp))%nat ->
  exists v, CE2n_entry0 h As CE r = Some v /\ fits ny nx v
    /\ forall y x, (y < ny)%nat -> (x < nx)%nat ->
         at_ v y x = RC.mul (RC.mul (RC.of_R 2) (A0 inp r Last))
                            (ce2n inp r Last y x).
Proof.
  intros Hr.
  destruct Hh as (HX & HY & Ht & (lCE & HCE & HlCE) & (d & HAs & HdA & Hda)).
  destruct Hw as (Hny & Hnx & HsX & HsY & HlA & Hla & HwA & Hwa & HwCE).
  destruct (lookup_lt_is_Some_2 (in_A inp) r) as [A HA]; [lia|].
  destruct (HdA r A HA) as (lA & HkA & HhA).
  assert (HAf := HwA). rewrite Forall_lookup in HAf.
  destruct (HAf r A HA) as [HAlen HArows].
  destruct (getitem_ok A nq Last HAlen Hq) as (row & Hrow & Hin).
  assert (Hrow0 : exists z, row !! 0%nat = Some z).
  { rewrite List.Forall_forall in HArows. specialize (HArows row Hin).
    destruct row as [|z row]; [congruence|]. exists z. reflexivity. }
  destruct Hrow0 as [A0v HA0].
  destruct (lookup_lt_is_Some_2 (in_CE inp) r) as [c Hc]; [lia|].
  destruct (Forall2_lookup_r _ _ _ _ _ HlCE Hc) as (lce & Hlce & Hhce).
  assert (Hcf := HwCE). rewrite Forall_lookup in Hcf.
  destruct (Hcf r c Hc) as [Hclen Hcsh].
  destruct (getitem_ok c nq Last Hclen Hq) as (s & Hs & Hsin).
  assert (Hss : shape s = replicate ny nx).
  { rewrite List.Forall_forall in Hcsh. apply Hcsh, Hsin. }
  unfold CE2n_entry0, read_dict, read_c2, read_list, read_c3.
  rewrite HAs; cbn [mbind option_bind].
  rewrite HkA; cbn [mbind option_bind]. rewrite HhA; cbn [mbind option_bind].
  rewrite Hrow; cbn [mbind option_bind]. rewrite HA0; cbn [mbind option_bind].
  rewrite HCE; cbn [mbind option_bind]. rewrite Hlce; cbn [mbind option_bind].
  rewrite Hhce; cbn [mbind option_bind]. rewrite Hs; cbn [mbind option_bind vmul vlift2].
  eexists. split; [reflexivity|]. split.
  - simpl. rewrite shape_map. exact Hss.
  - intros y x Hy Hx.
    rewrite (at_map _ _ ny nx) by auto.
    unfold A0, ce2n. rewrite HA, Hc. cbn [mbind option_bind].
    rewrite Hrow, Hs. cbn [mbind option_bind]. rewrite HA0. reflexivity.
Qed.

(** At a time sample that is zero the time factor is one. *)
Lemma code_term_at_zero (kk : R) (i r y x : nat) :
  in_t inp !! i = Some 0%R ->
  code_term inp Last kk i r y x
  = RC.mul (RC.mul (RC.of_R 2) (A0 inp r Last)) (ce2n inp r Last y x).
Proof.
  intros Hi. unfold code_term, t_at. rewrite Hi. simpl default.
  match goal with
  | |- RC.mul ?u (RC.exp (RC.mul ?z (RC.of_R 0))) = _ =>
      replace (RC.mul z (RC.of_R 0)) with (RC.mk 0 0)
        by (apply RC_eq; simpl; ring);
      generalize u
  end.
  intros u. rewrite exp_zero. apply RC_eq; simpl; ring.
Qed.

(** The whole cell: the first slice carries no time factor, whatever
    [t[0]] is; the others are the real part of the phase times the sum
    over harmonics; there are as many slices as time samples, and one when
    there is none. *)
Lemma synthesis_slices (kk : R) :
  exists T0, Anim01a.synthesis h As CE X t kk (length (in_CE inp)) = Some T0
    /\ length T0 = Nat.max 1 (length (in_t inp))
    /\ (exists sl, T0 !! 0%nat = Some sl
          /\ shape sl = replicate ny nx
          /\ forall y x, (y < ny)%nat -> (x < nx)%nat ->
               rat_ (RArr sl) y x
               = RC.re (RC.mul
                    (Csum (length (in_CE inp))
                          (fun r => RC.mul (RC.mul (RC.of_R 2) (A0 inp r Last))
                                           (ce2n inp r Last y x)))
                    (RC.exp (RC.mul (RC.of_R (kk * X_at inp y x)) RC.j))))
    /\ forall i, (1 <= i < length (in_t inp))%nat ->
         exists sl, T0 !! i = Some sl
           /\ shape sl = replicate ny nx
           /\ forall y x, (y < ny)%nat -> (x < nx)%nat ->
                rat_ (RArr sl) y x
                = RC.re (RC.mul
                     (Csum (length (in_CE inp))
                           (fun r => code_term inp Last kk i r y x))
                     (RC.exp (RC.mul (RC.of_R (kk * X_at inp y x)) RC.j))).
Proof.
  assert (Hh' := Hh). destruct Hh' as (HX & _ & Ht & _).
  assert (Hw' := Hw). destruct Hw' as (_ & _ & HsX & _).
  set (G := fun i y x =>
              RC.re (RC.mul
                   (Csum (length (in_CE inp))
                         (fun r => code_term inp Last kk i r y x))
                   (RC.exp (RC.mul (RC.of_R (kk * X_at inp y x)) RC.j)))).
  assert (Hphase : forall y x, (y < ny)%nat -> (x < nx)%nat ->
            at_ (VArr (phase kk (in_X inp))) y x
            = RC.exp (RC.mul (RC.of_R (kk * X_at inp y x)) RC.j)).
  { intros y x Hy Hx.
    destruct (shape_lookup (in_X inp) ny nx y x HsX Hy Hx)
      as (row & z & Hrow & _ & Hz).
    unfold phase, X_at. simpl. rewrite !list_lookup_fmap, Hrow. simpl.
    rewrite list_lookup_fmap, Hz. reflexivity. }
  (* the first slice *)
  destruct (slice_of_spec h X kk (length (in_CE inp)) (CE2n_entry0 h As CE)
              (in_X inp) ny nx
              (fun r y x => RC.mul (RC.mul (RC.of_R 2) (A0 inp r Last))
                                   (ce2n inp r Last y x))
              HX HsX CE2n_entry0_spec)
    as (sl0 & Hsl0 & Hsh0 & Hval0).
  (* the other slices *)
  assert (Hstep : forall i, In i (seq 1 (length (in_t inp) - 1)) ->
            exists sl,
              Anim01a.slice_of h X kk (length (in_CE inp))
                               (CE2n_entry h As CE t Last kk i) = Some sl
              /\ shape sl = replicate ny nx
              /\ forall y x, (y < ny)%nat -> (x < nx)%nat ->
                   rat_ (RArr sl) y x = G i y x).
  { intros i Hi. apply in_seq in Hi.
    destruct (slice_of_spec h X kk (length (in_CE inp))
                (CE2n_entry h As CE t Last kk i) (in_X inp) ny nx
                (fun r y x => code_term inp Last kk i r y x) HX HsX)
      as (sl & Hsl & Hsh & Hval).
    { intros r Hr.
      apply (CE2n_entry_spec h As CE X Y t inp nq ny nx Hh Hw Last kk i r Hq);
        [lia|exact Hr]. }
    exists sl. split; [exact Hsl|]. split; [exact Hsh|].
    intros y x Hy Hx. rewrite (Hval y x Hy Hx), (Hphase y x Hy Hx).
    unfold G. f_equal. apply RC_mul_comm. }
  destruct (append_slices_spec
              (fun i => Anim01a.slice_of h X kk (length (in_CE inp))
                          (CE2n_entry h As CE t Last kk i))
              ny nx
              (fun i sl => shape sl = replicate ny nx
                           /\ forall y x, (y < ny)%nat -> (x < nx)%nat ->
                                rat_ (RArr sl) y x = G i y x)
              (seq 1 (length (in_t inp) - 1))) with (T0 := [sl0])
    as (T & HT & Hlen & Hold & Hnew).
  { intros i Hi. destruct (Hstep i Hi) as (sl & H1 & H2 & H3). eauto. }
  { constructor; [exact Hsh0|constructor]. }
  exists T. unfold Anim01a.synthesis. rewrite Hsl0. cbn [mbind option_bind].
  unfold read_r1. rewrite Ht. cbn [mbind option_bind].
  split; [exact HT|]. rewrite length_seq in Hlen. simpl in Hlen.
  split; [lia|]. split.
  - exists sl0. split; [apply Hold; reflexivity|]. split; [exact Hsh0|].
    intros y x Hy Hx.
    rewrite (Hval0 y x Hy Hx), (Hphase y x Hy Hx). f_equal.
    apply RC_mul_comm.
  - intros [|i] Hi; [lia|].
    destruct (Hnew i (S i)) as (sl & Hsl & Hsh & Hval).
    { apply lookup_seq. split; [reflexivity|lia]. }
    exists sl. split; [exact Hsl|]. split; [exact Hsh|]. exact Hval.
Qed.

(** With [t[0] = 0] every slice is the sum with its time factor. *)
Lemma synthesis_spec (kk : R) :
  in_t inp !! 0%nat = Some 0%R ->
  exists T0, Anim01a.synthesis h As CE X t kk (length (in_CE inp)) = Some T0
    /\ length T0 = length (in_t inp)
    /\ forall i y x, (i < length (in_t inp))%nat -> (y < ny)%nat -> (x < nx)%nat ->
         exists sl, T0 !! i = Some sl
           /\ shape sl = replicate ny nx
           /\ rat_ (RArr sl) y x
              = RC.re (RC.mul
                   (Csum (length (in_CE inp))
                         (fun r => code_term inp Last kk i r y x))
                   (RC.exp (RC.mul (RC.of_R (kk * X_at inp y x)) RC.j))).
Proof.
  intros Ht0.
  destruct (synthesis_slices kk)
    as (T & HT & Hlen & (sl0 & Hsl0 & Hsh0 & Hval0) & Hrest).
  assert (Hnt : (0 < length (in_t inp))%nat).
  { apply lookup_lt_Some in Ht0. exact Ht0. }
  exists T. split; [exact HT|]. split; [lia|].
  intros i y x Hi Hy Hx. destruct i as [|i].
  - exists sl0. split; [exact Hsl0|]. split; [exact Hsh0|].
    rewrite (Hval0 y x Hy Hx). do 2 f_equal. apply Csum_ext. intros r _.
    symmetry. apply code_term_at_zero, Ht0.
  - destruct (Hrest (S i) ltac:(lia)) as (sl & Hsl & Hsh & Hval).
    exists sl. split; [exact Hsl|]. split; [exact Hsh|].
    apply Hval; assumption.
Qed.

End Inline.

(** X9: the inline synthesis of the first text of
    Adv_Diff_IVP_Animation_01 and [evolve_ds] of its second text compute
    the same data.  On well-shaped arrays with [N//2 = len(CE)] and
    [t[0] = 0] both run, the inline [T0] has one slice per time sample,
    and every cell of [T0] is the cell of [Theta] in the dataset
    [evolve_ds] returns. *)
Theorem inline_synthesis_agrees (As CE X Y t : loc) (k : R) (inp : inputs)
    (nq ny nx : nat) (s0 : state) :
  holds (heap s0) As CE X Y t inp ->
  well_shaped inp nq ny nx -> (0 < nq)%nat ->
  in_t inp !! 0%nat = Some 0%R ->
  exists T0 ds s1,
    Anim01a.synthesis (heap s0) As CE X t k (length (in_CE inp)) = Some T0
    /\ Anim01b.evolve_ds As CE k X Y t s0 = Some (ds, s1)
    /\ length T0 = length (in_t inp)
    /\ forall i y x, (i < length (in_t inp))%nat -> (y < ny)%nat -> (x < nx)%nat ->
         exists v, (sl ← T0 !! i; row ← sl !! y; row !! x) = Some v
                   /\ Theta_at (heap s1) ds i y x = Some (Some v).
Proof.
  intros Hh Hw Hq Ht0.
  destruct (synthesis_spec (heap s0) As CE X Y t inp nq ny nx Hh Hw Hq k Ht0)
    as (T0 & HT0 & Hlen & Hval).
  destruct (evolve_ds_single_total As CE k X Y t inp nq ny nx s0 Hh Hw Hq)
    as (ds & s1 & Hrun & HT).
  exists T0, ds, s1. repeat split; try assumption.
  intros i y x Hi Hy Hx.
  destruct (Hval i y x Hi Hy Hx) as (sl & Hsl & Hsh & Hv).
  destruct (shape_lookup sl ny nx y x Hsh Hy Hx) as (row & z & Hrow & _ & Hz).
  exists z. rewrite Hsl. cbn [mbind option_bind]. rewrite Hrow.
  cbn [mbind option_bind]. split; [exact Hz|].
  rewrite (HT i y x Hi Hy Hx), <- Hv. simpl. rewrite Hrow. simpl.
  rewrite Hz. reflexivity.
Qed.

Lemma inline_synthesis_agrees_witness :
  exists T0 ds s1,
    Anim01a.synthesis (heap ex_state) ex_As ex_CE ex_X ex_t 0 1 = Some T0
    /\ Anim01b.evolve_ds ex_As ex_CE 0 ex_X ex_Y ex_t ex_state = Some (ds, s1)
    /\ length T0 = 1%nat.
Proof.
  destruct (inline_synthesis_agrees ex_As ex_CE ex_X ex_Y ex_t 0%R ex_inputs
              1%nat 1%nat 1%nat ex_state (proj1 ex_holds) (proj1 ex_shaped)
              (le_n 1) eq_refl)
    as (T0 & ds & s1 & H1 & H2 & H3 & _).
  exists T0, ds, s1. auto.
Defined.

(** X10: the first slice of the inline synthesis.  On well-shaped arrays
    the cell runs and returns as many slices as there are time samples,
    and one slice when there is none; its first slice is the sum without
    time factor, [Re sum_n 2 A^(2n)_0 ce_2n exp(i k x)], whatever [t[0]]
    is (while [evolve_ds] applies the factor of [t[0]]). *)
Theorem inline_first_slice (h : gmap loc obj) (As CE X Y t : loc) (k : R)
    (inp : inputs) (nq ny nx : nat) :
  holds h As CE X Y t inp ->
  well_shaped inp nq ny nx -> (0 < nq)%nat ->
  exists T0,
    Anim01a.synthesis h As CE X t k (length (in_CE inp)) = Some T0
    /\ length T0 = Nat.max 1 (length (in_t inp))
    /\ forall y x, (y < ny)%nat -> (x < nx)%nat ->
         (sl ← T0 !! 0%nat; row ← sl !! y; row !! x)
         = Some (theta_initial inp k y x).
Proof.
  intros Hh Hw Hq.
  destruct (synthesis_slices h As CE X Y t inp nq ny nx Hh Hw Hq k)
    as (T0 & HT0 & Hlen & (sl0 & Hsl0 & Hsh0 & Hval0) & _).
  exists T0. split; [exact HT0|]. split; [exact Hlen|].
  intros y x Hy Hx.
  destruct (shape_lookup sl0 ny nx y x Hsh0 Hy Hx) as (row & z & Hrow & _ & Hz).
  rewrite Hsl0. cbn [mbind option_bind]. rewrite Hrow.
  cbn [mbind option_bind]. rewrite Hz. f_equal.
  assert (Hz' : rat_ (RArr sl0) y x = z).
  { simpl. rewrite Hrow. simpl. rewrite Hz. reflexivity. }
  rewrite <- Hz', (Hval0 y x Hy Hx).
  unfold theta_initial. rewrite phase_point, Csum_mul_r. reflexivity.
Qed.

Lemma inline_first_slice_witness :
  exists T0,
    Anim01a.synthesis (heap ex_state) ex_As ex_CE ex_X ex_t 0 1 = Some T0
    /\ length T0 = 1%nat.
Proof.
  destruct (inline_first_slice (heap ex_state) ex_As ex_CE ex_X ex_Y ex_t 0%R
              ex_inputs 1%nat 1%nat 1%nat (proj1 ex_holds) (proj1 ex_shaped)
              (le_n 1))
    as (T0 & H1 & H2 & _).
  exists T0. split; [exact H1|exact H2].
Defined.

(** ** The cross-channel mean *)

(** The trapezoidal sum, one step. *)
Lemma trapz_step (a b : option R) (c : list (option R)) :
  trapz (a :: b :: c)
  = (s ← trapz (b :: c); a' ← a; b' ← b; Some ((b' + a') / 2 + s)%R).
Proof. reflexivity. Qed.

(** The trapezoidal sum of a constant column. *)
Lemma trapz_const (c : R) (n : nat) :
  trapz (replicate n (Some c)) = Some (INR (n - 1) * c)%R.
Proof.
  induction n as [|[|n] IH].
  - simpl. f_equal. ring.
  - simpl. f_equal. ring.
  - change (replicate (S (S n)) (Some c))
      with (Some c :: Some c :: replicate n (Some c)).
    rewrite trapz_step.
    change (Some c :: replicate n (Some c)) with (replicate (S n) (Some c)).
    rewrite IH. cbn [mbind option_bind]. f_equal.
    replace (S (S n) - 1)%nat with (S n) by lia.
    replace (S n - 1)%nat with n by lia.
    rewrite S_INR. lra.
Qed.

(** A [nan] among two or more samples makes the trapezoidal sum [nan]. *)
Lemma trapz_nan (c : list (option R)) (j : nat) :
  (2 <= length c)%nat -> c !! j = Some None -> trapz c = None.
Proof.
  revert j. induction c as [|a c IH]; intros j Hlen Hj; [simpl in Hlen; lia|].
  destruct c as [|b c]; [simpl in Hlen; lia|].
  rewrite trapz_step. destruct j as [|[|j]].
  - simpl in Hj. injection Hj as ->.
    destruct (trapz (b :: c)); reflexivity.
  - simpl in Hj. injection Hj as ->.
    destruct (trapz (None :: c)); [|reflexivity]. cbn [mbind option_bind].
    destruct a; reflexivity.
  - rewrite (IH (S j)); [reflexivity| |exact Hj].
    simpl in Hj. apply lookup_lt_Some in Hj. simpl. lia.
Qed.

(** With fewer than two samples the trapezoidal sum is zero, whatever the
    sample. *)
Lemma trapz_short (c : list (option R)) :
  (length c <= 1)%nat -> trapz c = Some 0%R.
Proof.
  destruct c as [|a [|b c]]; simpl; intros H; try reflexivity. lia.
Qed.

(** The second sample of a grid of [ny >= 2] points on [[0, L]]. *)
Lemma rlinspace_second (L : R) (ny : nat) :
  (2 <= ny)%nat -> rlinspace 0 L ny !! 1%nat = Some (L / INR (ny - 1))%R.
Proof.
  intros Hny. unfold rlinspace. change (map ?f ?l) with (f <$> l).
  rewrite list_lookup_fmap, lookup_seq_lt by lia. simpl. f_equal. lra.
Qed.

(** The column of a slice whose rows all hold [v] at [x]. *)
Lemma column_const (x : nat) (sl : list (list (option R))) (v : option R) :
  (forall j row, sl !! j = Some row -> row !! x = Some v) ->
  column x sl = replicate (length sl) v.
Proof.
  intros H. unfold column. induction sl as [|row sl IH]; [reflexivity|].
  simpl. rewrite (H 0%nat row eq_refl). simpl. f_equal.
  apply IH. intros j r Hr. apply (H (S j) r Hr).
Qed.

(** Reading one entry of the mean. *)
Lemma Tm_cell_entry (h : gmap loc obj) (ds y θ : loc)
    (vars : gmap string loc) (tv yc xc yv : list R)
    (d : list (list (list (option R)))) (y1 : R) :
  h !! ds = Some (XrDataset vars tv yc xc) ->
  vars !! "Theta" = Some θ ->
  h !! θ = Some (NdF3 d) ->
  h !! y = Some (NdR1 yv) -> yv !! 1%nat = Some y1 ->
  exists Tm, Tm_cell h ds y = Some Tm /\ length Tm = length d
    /\ forall i x sl, d !! i = Some sl -> (x < length xc)%nat ->
         (row ← Tm !! i; row !! x)
         = Some (r ← trapz (column x sl); Some (r * y1 / PI)%R).
Proof.
  intros Hds Hv Hθ Hy Hy1. unfold Tm_cell, read_r1.
  rewrite Hds, Hv. cbn [mbind option_bind]. rewrite Hθ, Hy.
  cbn [mbind option_bind]. rewrite Hy1. cbn [mbind option_bind].
  eexists. split; [reflexivity|]. split; [apply length_map|].
  intros i x sl Hsl Hx.
  change (map ?f d) with (f <$> d). rewrite list_lookup_fmap, Hsl.
  cbn [fmap option_fmap option_map mbind option_bind].
  change (map ?f (seq 0 (length xc))) with (f <$> seq 0 (length xc)).
  rewrite list_lookup_fmap, lookup_seq_lt by exact Hx. reflexivity.
Qed.

(** X11: the cross-channel mean of a field that does not depend on [y].
    With [y] the grid of [ny >= 2] points [np.linspace(0, L, ny)] and
    [Theta[i, j, x] = c(i, x)] for every row [j] of the [ny], the cell
    [Tm = np.trapz(ds.Theta, axis=1) * y[1] / np.pi] returns
    [Tm[i, x] = c(i, x) * L / pi]: with [L = pi], as in every notebook,
    the mean of such a field is the field. *)
Theorem Tm_of_uniform_field (h : gmap loc obj) (ds y θ : loc)
    (vars : gmap string loc) (tv yc xc : list R)
    (d : list (list (list (option R)))) (L : R) (ny : nat)
    (c : nat -> nat -> R) :
  h !! ds = Some (XrDataset vars tv yc xc) ->
  vars !! "Theta" = Some θ ->
  h !! θ = Some (NdF3 d) ->
  h !! y = Some (NdR1 (rlinspace 0 L ny)) -> (2 <= ny)%nat ->
  (forall i sl, d !! i = Some sl ->
     length sl = ny
     /\ forall j row x, sl !! j = Some row -> (x < length xc)%nat ->
          row !! x = Some (Some (c i x))) ->
  exists Tm, Tm_cell h ds y = Some Tm /\ length Tm = length d
    /\ forall i x, (i < length d)%nat -> (x < length xc)%nat ->
         (row ← Tm !! i; row !! x) = Some (Some (c i x * L / PI)%R)
         /\ (L = PI -> (row ← Tm !! i; row !! x) = Some (Some (c i x))).
Proof.
  intros Hds Hv Hθ Hy Hny Hd.
  destruct (Tm_cell_entry h ds y θ vars tv yc xc _ d _ Hds Hv Hθ Hy
              (rlinspace_second L ny Hny)) as (Tm & HTm & Hlen & Hent).
  exists Tm. split; [exact HTm|]. split; [exact Hlen|].
  intros i x Hi Hx.
  destruct (lookup_lt_is_Some_2 d i Hi) as [sl Hsl].
  destruct (Hd i sl Hsl) as [Hsll Hrows].
  assert (Hval : (row ← Tm !! i; row !! x) = Some (Some (c i x * L / PI)%R)).
  { rewrite (Hent i x sl Hsl Hx).
    rewrite (column_const x sl (Some (c i x))).
    2:{ intros j row Hrow. apply (Hrows j row x Hrow Hx). }
    rewrite trapz_const, Hsll. cbn [mbind option_bind]. do 2 f_equal.
    assert (Hn : (INR (ny - 1) <> 0)%R).
    { apply not_0_INR. lia. }
    field. split; [apply PI_neq0|exact Hn]. }
  split; [exact Hval|]. intros ->. rewrite Hval. do 2 f_equal.
  field. apply PI_neq0.
Qed.

Lemma Tm_of_uniform_field_witness :
  exists Tm,
    Tm_cell (<[1%positive := XrDataset {["Theta" := 2%positive]} [0%R]
                               [0%R; 1%R] [0%R]]>
              (<[2%positive := NdF3 [[[Some 5%R]; [Some 5%R]]]]>
                 (<[3%positive := NdR1 (rlinspace 0 PI 2)]> ∅)))
            1%positive 3%positive = Some Tm
    /\ (row ← Tm !! 0%nat; row !! 0%nat) = Some (Some 5%R).
Proof.
  destruct (Tm_of_uniform_field
              (<[1%positive := XrDataset {["Theta" := 2%positive]} [0%R]
                                 [0%R; 1%R] [0%R]]>
                (<[2%positive := NdF3 [[[Some 5%R]; [Some 5%R]]]]>
                   (<[3%positive := NdR1 (rlinspace 0 PI 2)]> ∅)))
              1%positive 3%positive 2%positive {["Theta" := 2%positive]}
              [0%R] [0%R; 1%R] [0%R] [[[Some 5%R]; [Some 5%R]]] PI 2
              (fun _ _ => 5%R))
    as (Tm & HTm & _ & Hval).
  - apply lookup_insert_eq.
  - apply lookup_singleton_eq.
  - rewrite lookup_insert_ne by discriminate. apply lookup_insert_eq.
  - rewrite !lookup_insert_ne by discriminate. apply lookup_insert_eq.
  - lia.
  - intros [|i] sl Hsl; [|discriminate]. injection Hsl as <-.
    split; [reflexivity|].
    intros [|[|j]] row [|x] Hrow Hx; try discriminate;
      try (simpl in Hx; lia); injection Hrow as <-; reflexivity.
  - exists Tm. split; [exact HTm|].
    apply (Hval 0%nat 0%nat); simpl; [lia|lia|reflexivity].
Defined.

(** X12: edge behaviour of the cross-channel mean.  The cell raises
    [IndexError] when [y] has fewer than two samples; otherwise it
    returns one row per time slice, in which an entry is [nan] as soon as
    one of two or more samples of its column is [nan] (as in a dataset
    [evolve_ds] has not filled), and is zero when the column has at most
    one sample. *)
Theorem Tm_edges (h : gmap loc obj) (ds y θ : loc)
    (vars : gmap string loc) (tv yc xc yv : list R)
    (d : list (list (list (option R)))) :
  h !! ds = Some (XrDataset vars tv yc xc) ->
  vars !! "Theta" = Some θ ->
  h !! θ = Some (NdF3 d) ->
  h !! y = Some (NdR1 yv) ->
  ((length yv < 2)%nat -> Tm_cell h ds y = None)
  /\ ((2 <= length yv)%nat ->
      exists Tm, Tm_cell h ds y = Some Tm /\ length Tm = length d
        /\ forall i x sl, d !! i = Some sl -> (x < length xc)%nat ->
             ((2 <= length sl)%nat ->
              (exists j row, sl !! j = Some row /\ row !! x = Some None) ->
              (row ← Tm !! i; row !! x) = Some None)
             /\ ((length sl <= 1)%nat ->
                 (row ← Tm !! i; row !! x) = Some (Some 0%R))).
Proof.
  intros Hds Hv Hθ Hy. split.
  - intros Hlen. unfold Tm_cell, read_r1. rewrite Hds, Hv.
    cbn [mbind option_bind]. rewrite Hθ, Hy. cbn [mbind option_bind].
    rewrite lookup_ge_None_2 by lia. reflexivity.
  - intros Hlen. destruct (lookup_lt_is_Some_2 yv 1) as [y1 Hy1]; [lia|].
    destruct (Tm_cell_entry h ds y θ vars tv yc xc yv d y1 Hds Hv Hθ Hy Hy1)
      as (Tm & HTm & HlTm & Hent).
    exists Tm. split; [exact HTm|]. split; [exact HlTm|].
    intros i x sl Hsl Hx. rewrite (Hent i x sl Hsl Hx). split.
    + intros Hsl2 (j & row & Hrow & Hnan).
      rewrite (trapz_nan (column x sl) j); [reflexivity| |].
      * unfold column. rewrite length_fmap. exact Hsl2.
      * unfold column. rewrite list_lookup_fmap, Hrow. simpl.
        rewrite Hnan. reflexivity.
    + intros Hsl1. rewrite trapz_short.
      * cbn [mbind option_bind]. do 2 f_equal. unfold Rdiv. ring.
      * unfold column. rewrite length_fmap. exact Hsl1.
Qed.

Lemma Tm_edges_witness :
  Tm_cell (<[1%positive := XrDataset {["Theta" := 2%positive]} [0%R]
                             [0%R] [0%R]]>
            (<[2%positive := NdF3 [[[None]]]]>
               (<[3%positive := NdR1 [0%R]]> ∅)))
          1%positive 3%positive = None.
Proof.
  refine (proj1 (Tm_edges
            (<[1%positive := XrDataset {["Theta" := 2%positive]} [0%R]
                               [0%R] [0%R]]>
              (<[2%positive := NdF3 [[[None]]]]>
                 (<[3%positive := NdR1 [0%R]]> ∅)))
            1%positive 3%positive 2%positive {["Theta" := 2%positive]}
            [0%R] [0%R] [0%R] [0%R] [[[None]]] _ _ _ _) _).
  - apply lookup_insert_eq.
  - apply lookup_singleton_eq.
  - rewrite lookup_insert_ne by discriminate. apply lookup_insert_eq.
  - rewrite !lookup_insert_ne by discriminate. apply lookup_insert_eq.
  - simpl. lia.
Defined.

(** ** The slices of the ellipse notebook *)

(** No index is selected exactly when the condition holds nowhere. *)
Lemma where_from_nil {A : Type} (p : A -> bool) (l : list A) (i : nat) :
  where_from p i l = [] <-> Forall (fun a => p a = false) l.
Proof.
  revert i. induction l as [|a l IH]; intros i; simpl.
  - split; [constructor|reflexivity].
  - destruct (p a) eqn:Hp.
    + split; [discriminate|]. intros H. apply Forall_cons_1 in H as [H _].
      congruence.
    + rewrite IH. split; [intros H; constructor; assumption|].
      intros H. apply Forall_cons_1 in H as [_ H]. exact H.
Qed.

(** The first selected index: the condition holds there and nowhere
    before. *)
Lemma where_from_head {A : Type} (p : A -> bool) (l : list A) (i k : nat) :
  head (where_from p i l) = Some k ->
  (i <= k)%nat
  /\ (exists a, l !! (k - i)%nat = Some a /\ p a = true)
  /\ forall j b, (j < k - i)%nat -> l !! j = Some b -> p b = false.
Proof.
  revert i. induction l as [|a l IH]; intros i H; [discriminate|].
  simpl in H. destruct (p a) eqn:Hp.
  - simpl in H. injection H as <-. rewrite Nat.sub_diag.
    split; [lia|]. split; [exists a; auto|]. intros j b Hj. lia.
  - destruct (IH (S i) H) as (Hle & (a' & Ha' & Hpa') & Hbefore).
    split; [lia|]. replace (k - i)%nat with (S (k - S i)) by lia.
    split; [exists a'; auto|].
    intros [|j] b Hj Hb.
    + injection Hb as <-. exact Hp.
    + apply (Hbefore j b); [lia|exact Hb].
Qed.

(** The last selected index: the condition holds there and nowhere
    after. *)
Lemma where_from_last {A : Type} (p : A -> bool) (l : list A) (i k : nat) :
  last (where_from p i l) = Some k ->
  (i <= k)%nat
  /\ (exists a, l !! (k - i)%nat = Some a /\ p a = true)
  /\ forall j b, (k - i < j)%nat -> l !! j = Some b -> p b = false.
Proof.
  revert i. induction l as [|a l IH]; intros i H; [discriminate|].
  simpl in H. destruct (p a) eqn:Hp.
  - destruct (where_from p (S i) l) as [|k' rest] eqn:Hw.
    + injection H as <-. rewrite Nat.sub_diag.
      split; [lia|]. split; [exists a; auto|].
      apply where_from_nil in Hw. rewrite Forall_lookup in Hw.
      intros [|j] b Hj Hb; [lia|]. apply (Hw j b Hb).
    + change (last (i :: k' :: rest)) with (last (k' :: rest)) in H.
      rewrite <- Hw in H.
      destruct (IH (S i) H) as (Hle & (a' & Ha' & Hpa') & Hafter).
      split; [lia|]. replace (k - i)%nat with (S (k - S i)) by lia.
      split; [exists a'; auto|].
      intros [|j] b Hj Hb; [lia|]. apply (Hafter j b); [lia|exact Hb].
  - destruct (IH (S i) H) as (Hle & (a' & Ha' & Hpa') & Hafter).
    split; [lia|]. replace (k - i)%nat with (S (k - S i)) by lia.
    split; [exists a'; auto|].
    intros [|j] b Hj Hb; [lia|]. apply (Hafter j b); [lia|exact Hb].
Qed.

(** [a[-1]] and [a[0]] that did not raise. *)
Lemma index_last_inr {A : Type} (l : list A) (a : A) :
  index_last l = inr a -> last l = Some a.
Proof.
  unfold index_last. destruct (last l); intros H; [|discriminate].
  injection H as <-. reflexivity.
Qed.

Lemma index_first_inr {A : Type} (l : list A) (a : A) :
  index_first l = inr a -> head l = Some a.
Proof.
  destruct l; intros H; [discriminate|]. injection H as <-. reflexivity.
Qed.

(** They raise [IndexError] exactly on an empty array. *)
Lemma index_last_inl {A : Type} (l : list A) :
  (exists e, index_last l = inl e) <-> l = [].
Proof.
  unfold index_last. split.
  - intros [e H]. destruct (last l) eqn:Hl; [discriminate|].
    apply last_None in Hl. exact Hl.
  - intros ->. eexists. reflexivity.
Qed.

Lemma index_first_inl {A : Type} (l : list A) :
  (exists e, index_first l = inl e) <-> l = [].
Proof.
  split.
  - intros [e H]. destruct l; [reflexivity|discriminate].
  - intros ->. eexists. reflexivity.
Qed.

(** NumPy's order on the imaginary axis is the order of the imaginary
    parts. *)
Lemma leb_imag (z w : QC.cplx) :
  QC.purely_imaginary z -> QC.purely_imaginary w ->
  (QC.leb z w = true <-> (QC.im z <= QC.im w)%Q).
Proof.
  unfold QC.purely_imaginary, QC.leb. intros Hz Hw.
  assert (E : (QC.re z ?= QC.re w)%Q = Eq).
  { apply Qeq_alt. rewrite Hz, Hw. reflexivity. }
  rewrite E.
  destruct (Qcompare_spec (QC.im z) (QC.im w)) as [H|H|H];
    split; intros H'; try reflexivity; try discriminate; lra.
Qed.

Lemma ltb_imag (z w : QC.cplx) :
  QC.purely_imaginary z -> QC.purely_imaginary w ->
  (QC.ltb z w = true <-> (QC.im z < QC.im w)%Q).
Proof.
  unfold QC.purely_imaginary, QC.ltb. intros Hz Hw.
  assert (E : (QC.re z ?= QC.re w)%Q = Eq).
  { apply Qeq_alt. rewrite Hz, Hw. reflexivity. }
  rewrite E.
  destruct (Qcompare_spec (QC.im z) (QC.im w)) as [H|H|H];
    split; intros H'; try reflexivity; try discriminate; lra.
Qed.

(** The double of a point of the imaginary axis. *)
Lemma rmul2_imag (q : QC.cplx) :
  QC.purely_imaginary q ->
  QC.purely_imaginary (QC.rmul 2 q)
  /\ (QC.im (QC.rmul 2 q) == 2 * QC.im q)%Q.
Proof.
  unfold QC.purely_imaginary. intros H. simpl. rewrite H. split; lra.
Qed.

(** What the three indices of a cell that ran are. *)
Lemma split_inr (below : QC.cplx -> QC.cplx -> bool) (qep : QC.cplx)
    (Qb : list QC.cplx) (r : Ellipse.regions) :
  Ellipse.split below qep Qb = inr r ->
  last (np_where (fun q => below q qep) Qb) = Some (Ellipse.ls r)
  /\ head (np_where (fun q => QC.gtb q qep) Qb) = Some (Ellipse.l1 r)
  /\ head (np_where (fun q => QC.gtb q (QC.rmul 2 qep)) Qb)
     = Some (Ellipse.l2 r)
  /\ Ellipse.Qs r = take (Ellipse.ls r) Qb
  /\ Ellipse.Ql r = drop (Ellipse.l1 r) Qb
  /\ Ellipse.Ql1 r
     = take (Ellipse.l2 r - Ellipse.l1 r) (drop (Ellipse.l1 r) Qb)
  /\ Ellipse.Ql2 r = drop (Ellipse.l2 r) Qb.
Proof.
  unfold Ellipse.split, rbind. intros H.
  destruct (index_last _) as [e|ls] eqn:E1; [discriminate|].
  destruct (index_first _) as [e|l1] eqn:E2; [discriminate|].
  destruct (index_first (np_where (fun q => QC.gtb q (QC.rmul 2 qep)) Qb))
    as [e|l2] eqn:E3; [discriminate|].
  injection H as <-. simpl.
  apply index_last_inr in E1. apply index_first_inr in E2, E3.
  repeat split; assumption.
Qed.

(** X13: the slices of a pair's cell, for a batch on the imaginary axis
    in increasing order and an exceptional point [i c] with [c > 0].
    When the cell runs, [ls < l1 <= l2]; [Qs] holds the samples strictly
    below the last one that is below the exceptional point, [Ql1] those
    above it and up to its double, [Ql2] those above the double, and
    [Ql] is [Ql1] followed by [Ql2]; the samples from [ls] to [l1 - 1],
    at least the one at [ls], belong to no slice, and with [<=] (first
    pair) [l1 = ls + 1]: exactly one sample is left out. *)
Theorem split_slices (below : QC.cplx -> QC.cplx -> bool) (qep : QC.cplx)
    (Qb : list QC.cplx) (r : Ellipse.regions) :
  below = QC.leb \/ below = QC.ltb ->
  increasing_imag Qb ->
  QC.purely_imaginary qep -> (0 < QC.im qep)%Q ->
  Ellipse.split below qep Qb = inr r ->
  (Ellipse.ls r < Ellipse.l1 r <= Ellipse.l2 r)%nat
  /\ (Ellipse.l2 r < length Qb)%nat
  /\ (below = QC.leb -> Ellipse.l1 r = S (Ellipse.ls r))
  /\ Qb = Ellipse.Qs r
          ++ take (Ellipse.l1 r - Ellipse.ls r) (drop (Ellipse.ls r) Qb)
          ++ Ellipse.Ql1 r ++ Ellipse.Ql2 r
  /\ Ellipse.Ql r = Ellipse.Ql1 r ++ Ellipse.Ql2 r
  /\ (exists q, Qb !! Ellipse.ls r = Some q /\ (QC.im q <= QC.im qep)%Q)
  /\ Forall (fun q => (QC.im q < QC.im qep)%Q) (Ellipse.Qs r)
  /\ Forall (fun q => (QC.im qep < QC.im q <= 2 * QC.im qep)%Q)
            (Ellipse.Ql1 r)
  /\ Forall (fun q => (2 * QC.im qep < QC.im q)%Q) (Ellipse.Ql2 r).
Proof.
  intros Hbelow [Hax Hinc] Hq Hpos Hsplit.
  destruct (split_inr _ _ _ _ Hsplit)
    as (Hls & Hl1 & Hl2 & -> & -> & -> & ->).
  set (ls := Ellipse.ls r) in *. set (l1 := Ellipse.l1 r) in *.
  set (l2 := Ellipse.l2 r) in *.
  rewrite Forall_lookup in Hax.
  destruct (rmul2_imag qep Hq) as [Hq2 Hq2i].
  (* the three indices *)
  apply where_from_last in Hls as (_ & (qs & Hqs & Hbs) & Hafter).
  apply where_from_head in Hl1 as (_ & (q1 & Hq1 & Hg1) & Hbefore1).
  apply where_from_head in Hl2 as (_ & (q2 & Hq2' & Hg2) & Hbefore2).
  rewrite Nat.sub_0_r in *.
  assert (Hqs_le : (QC.im qs <= QC.im qep)%Q).
  { destruct Hbelow as [->| ->].
    - apply (leb_imag qs qep (Hax _ _ Hqs) Hq), Hbs.
    - apply Qlt_le_weak, (ltb_imag qs qep (Hax _ _ Hqs) Hq), Hbs. }
  assert (Hq1_gt : (QC.im qep < QC.im q1)%Q).
  { apply (ltb_imag qep q1 Hq (Hax _ _ Hq1)), Hg1. }
  assert (Hq2_gt : (2 * QC.im qep < QC.im q2)%Q).
  { rewrite <- Hq2i. apply (ltb_imag _ q2 Hq2 (Hax _ _ Hq2')), Hg2. }
  assert (Hb1 : forall j b, (j < l1)%nat -> Qb !! j = Some b ->
                  (QC.im b <= QC.im qep)%Q).
  { intros j b Hj Hb. specialize (Hbefore1 j b Hj Hb).
    destruct (Qlt_le_dec (QC.im qep) (QC.im b)) as [Hlt|Hle]; [|exact Hle].
    apply (ltb_imag qep b Hq (Hax _ _ Hb)) in Hlt.
    unfold QC.gtb in Hbefore1. congruence. }
  assert (Hb2 : forall j b, (j < l2)%nat -> Qb !! j = Some b ->
                  (QC.im b <= 2 * QC.im qep)%Q).
  { intros j b Hj Hb. specialize (Hbefore2 j b Hj Hb).
    destruct (Qlt_le_dec (2 * QC.im qep) (QC.im b)) as [Hlt|Hle]; [|exact Hle].
    rewrite <- Hq2i in Hlt.
    apply (ltb_imag _ b Hq2 (Hax _ _ Hb)) in Hlt.
    unfold QC.gtb in Hbefore2. congruence. }
  assert (Hmono : forall i j z w, (i <= j)%nat -> Qb !! i = Some z ->
                    Qb !! j = Some w -> (QC.im z <= QC.im w)%Q).
  { intros i j z w Hij Hz Hw'.
    destruct (decide (i = j)) as [->|Hne].
    - rewrite Hz in Hw'. injection Hw' as <-. apply Qle_refl.
    - apply Qlt_le_weak, (Hinc i j z w); [lia|exact Hz|exact Hw']. }
  assert (Hls_l1 : (ls < l1)%nat).
  { destruct (le_lt_dec l1 ls) as [Hle|Hlt]; [|exact Hlt].
    pose proof (Hmono l1 ls q1 qs Hle Hq1 Hqs). lra. }
  assert (Hl1_l2 : (l1 <= l2)%nat).
  { destruct (le_lt_dec l1 l2) as [Hle|Hlt]; [exact Hle|].
    pose proof (Hb1 l2 q2 Hlt Hq2'). lra. }
  assert (Hl2_len : (l2 < length Qb)%nat) by (apply lookup_lt_Some in Hq2'; exact Hq2').
  split; [lia|]. split; [exact Hl2_len|]. split; [|split; [|split; [|split; [|split; [|split]]]]].
  - intros ->.
    destruct (le_lt_dec l1 (S ls)) as [Hle|Hlt]; [lia|].
    destruct (lookup_lt_is_Some_2 Qb (S ls)) as [b Hb]; [lia|].
    pose proof (Hafter (S ls) b ltac:(lia) Hb) as Hnb.
    pose proof (Hb1 (S ls) b Hlt Hb) as Hle'.
    apply (leb_imag b qep (Hax _ _ Hb) Hq) in Hle'. congruence.
  - rewrite (app_assoc (take ls Qb)), take_take_drop.
    replace (ls + (l1 - ls))%nat with l1 by lia.
    rewrite (app_assoc (take l1 Qb)), take_take_drop.
    replace (l1 + (l2 - l1))%nat with l2 by lia.
    symmetry. apply take_drop.
  - rewrite <- (take_drop (l2 - l1) (drop l1 Qb)) at 1.
    rewrite drop_drop. replace (l1 + (l2 - l1))%nat with l2 by lia.
    reflexivity.
  - exists qs. auto.
  - apply Forall_lookup. intros j q Hj.
    apply lookup_take_Some in Hj as [Hj Hlt].
    pose proof (Hinc j ls q qs Hlt Hj Hqs). lra.
  - apply Forall_lookup. intros j q Hj.
    apply lookup_take_Some in Hj as [Hj Hlt]. rewrite lookup_drop in Hj.
    pose proof (Hmono l1 (l1 + j)%nat q1 q ltac:(lia) Hq1 Hj).
    pose proof (Hb2 (l1 + j)%nat q ltac:(lia) Hj). lra.
  - apply Forall_lookup. intros j q Hj. rewrite lookup_drop in Hj.
    pose proof (Hmono l2 (l2 + j)%nat q2 q ltac:(lia) Hq2' Hj). lra.
Qed.

(** A batch whose n-th sample is [i * c * n] with [c > 0] lies on the
    imaginary axis in increasing order. *)
Lemma linear_batch_imag (g : nat -> QC.cplx) (c : rat) (n : nat) :
  (0 < c)%Q ->
  (forall i, (QC.re (g i) == 0)%Q
             /\ (QC.im (g i) == c * inject_Z (Z.of_nat i))%Q) ->
  increasing_imag (map g (seq 0 n)).
Proof.
  intros Hc Hg. split.
  - apply List.Forall_forall. intros z Hz.
    apply in_map_iff in Hz as [i [<- _]]. apply Hg.
  - intros i j z w Hij Hi Hj.
    change (map g (seq 0 n)) with (g <$> seq 0 n) in Hi, Hj.
    rewrite list_lookup_fmap in Hi, Hj.
    destruct (seq 0 n !! i) as [i'|] eqn:Ei; [|discriminate].
    destruct (seq 0 n !! j) as [j'|] eqn:Ej; [|discriminate].
    apply lookup_seq in Ei as [-> _]. apply lookup_seq in Ej as [-> _].
    simpl in Hi, Hj. injection Hi as <-. injection Hj as <-.
    destruct (Hg i) as [_ Hii]. destruct (Hg j) as [_ Hij'].
    rewrite Hii, Hij'. apply Qmult_lt_l; [exact Hc|].
    rewrite <- Zlt_Qlt. lia.
Qed.

(** The batch of the ellipse notebook is one. *)
Lemma Ellipse_batch_imag : increasing_imag Ellipse.Q.
Proof.
  unfold Ellipse.Q, Ellipse.K_test, linspace, Ellipse.N, Ellipse.alpha,
    Ellipse.eps.
  change (Z.of_nat (1000 - 1)) with 999%Z.
  rewrite map_map. apply (linear_batch_imag _ (875 # 5994)).
  - reflexivity.
  - intros i. cbn [QC.re QC.im QC.divr QC.mulr QC.j]. split; field.
Qed.

Lemma split_slices_witness :
  exists r, Ellipse.Pair0.slices = inr r
    /\ Ellipse.l1 r = S (Ellipse.ls r)
    /\ Ellipse.Ql r = Ellipse.Ql1 r ++ Ellipse.Ql2 r.
Proof.
  pose (qep := nth Ellipse.Pair0.l Ellipse.ql (QC.mk 0 0)).
  assert (Hq : QC.purely_imaginary qep) by reflexivity.
  assert (Hpos : (0 < QC.im qep)%Q) by reflexivity.
  destruct (Ellipse.split QC.leb qep Ellipse.Q) as [e|r] eqn:E.
  - exfalso. vm_compute in E. discriminate.
  - exists r. split; [exact E|].
    pose proof (split_slices QC.leb qep Ellipse.Q r (or_introl eq_refl)
                  Ellipse_batch_imag Hq Hpos E) as H.
    destruct H as (_ & _ & H1 & _ & H2 & _).
    split; [apply H1; reflexivity|exact H2].
Defined.

(** X14: when a pair's cell raises.  For a batch and an exceptional point
    on the imaginary axis, the slicing raises, and then [IndexError],
    exactly when no sample is below the exceptional point or no sample
    lies above its double: a batch that stops at or before [2 q_l] cannot
    be cut. *)
Theorem split_raises (below : QC.cplx -> QC.cplx -> bool) (qep : QC.cplx)
    (Qb : list QC.cplx) :
  Forall QC.purely_imaginary Qb ->
  QC.purely_imaginary qep -> (0 <= QC.im qep)%Q ->
  ((exists e, Ellipse.split below qep Qb = inl e)
   <-> Forall (fun q => below q qep = false) Qb
       \/ Forall (fun q => (QC.im q <= 2 * QC.im qep)%Q) Qb)
  /\ forall e, Ellipse.split below qep Qb = inl e ->
       exc_class e = "IndexError".
Proof.
  intros Hax Hq Hpos.
  destruct (rmul2_imag qep Hq) as [Hq2 Hq2i].
  assert (Hgt2 : Forall (fun q => QC.gtb q (QC.rmul 2 qep) = false) Qb
                 <-> Forall (fun q => (QC.im q <= 2 * QC.im qep)%Q) Qb).
  { rewrite !Forall_forall. split; intros H q Hin.
    - specialize (H q Hin).
      destruct (Qlt_le_dec (2 * QC.im qep) (QC.im q)) as [Hlt|Hle]; [|exact Hle].
      rewrite <- Hq2i in Hlt.
      apply (ltb_imag _ q Hq2) in Hlt;
        [unfold QC.gtb in H; congruence|].
      rewrite Forall_forall in Hax. apply Hax, Hin.
    - specialize (H q Hin). unfold QC.gtb.
      destruct (QC.ltb (QC.rmul 2 qep) q) eqn:Hb; [|reflexivity].
      apply (ltb_imag _ q Hq2) in Hb;
        [rewrite Hq2i in Hb; lra|].
      rewrite Forall_forall in Hax. apply Hax, Hin. }
  assert (Hgt1 : Forall (fun q => QC.gtb q qep = false) Qb ->
                 Forall (fun q => (QC.im q <= 2 * QC.im qep)%Q) Qb).
  { rewrite !Forall_forall. intros H q Hin. specialize (H q Hin).
    destruct (Qlt_le_dec (QC.im qep) (QC.im q)) as [Hlt|Hle]; [|lra].
    apply (ltb_imag qep q Hq) in Hlt; [unfold QC.gtb in H; congruence|].
    rewrite Forall_forall in Hax. apply Hax, Hin. }
  unfold Ellipse.split, rbind, np_where. split.
  - split.
    + intros [e He].
      destruct (index_last (where_from (fun q => below q qep) 0 Qb))
        as [e1|ls] eqn:E1.
      { left. apply (where_from_nil _ _ 0), index_last_inl. eauto. }
      destruct (index_first (where_from (fun q => QC.gtb q qep) 0 Qb))
        as [e2|l1] eqn:E2.
      { right. apply Hgt1, (where_from_nil _ _ 0), index_first_inl. eauto. }
      destruct (index_first
                  (where_from (fun q => QC.gtb q (QC.rmul 2 qep)) 0 Qb))
        as [e3|l2] eqn:E3; [|discriminate].
      right. apply Hgt2, (where_from_nil _ _ 0), index_first_inl. eauto.
    + intros [H|H].
      * apply (where_from_nil _ _ 0) in H. rewrite H. simpl. eauto.
      * apply Hgt2, (where_from_nil _ _ 0) in H. rewrite H.
        destruct (index_last _) as [e1|ls]; [eauto|].
        destruct (index_first _) as [e2|l1]; [eauto|]. simpl. eauto.
  - intros e He.
    destruct (where_from (fun q => below q qep) 0 Qb) as [|a la] eqn:E1.
    { simpl in He. injection He as <-. reflexivity. }
    assert (Hl : exists ls, index_last (a :: la) = inr ls).
    { unfold index_last. destruct (last (a :: la)) eqn:Hl; [eauto|].
      apply last_None in Hl. discriminate. }
    destruct Hl as [ls Hl]. rewrite Hl in He.
    destruct (where_from (fun q => QC.gtb q qep) 0 Qb) as [|b lb].
    { simpl in He. injection He as <-. reflexivity. }
    cbn [index_first] in He.
    destruct (where_from (fun q => QC.gtb q (QC.rmul 2 qep)) 0 Qb) as [|c lc].
    { simpl in He. injection He as <-. reflexivity. }
    discriminate.
Qed.

Lemma split_raises_witness :
  exists e,
    Ellipse.split QC.ltb (QC.mk 0 1) [QC.mk 0 0; QC.mk 0 (1 # 2); QC.mk 0 2]
    = inl e.
Proof.
  apply (proj1 (split_raises QC.ltb (QC.mk 0 1)
                  [QC.mk 0 0; QC.mk 0 (1 # 2); QC.mk 0 2]
                  ltac:(repeat constructor) ltac:(reflexivity)
                  ltac:(discriminate))).
  right. repeat constructor; discriminate.
Defined.

(** ** The fits on the imaginary axis *)

(** The principal square root of a real number that is not negative *)
Lemma sqrt_real_nonneg (x : R) :
  (0 <= x)%R -> RC.sqrt (RC.mk x 0) = RC.mk (sqrt x) 0.
Proof.
  intros Hx. unfold RC.sqrt. cbn [RC.re RC.im].
  replace (x * x + 0 * 0)%R with (x * x)%R by ring.
  rewrite sqrt_square by exact Hx.
  replace ((x + x) / 2)%R with x by lra.
  replace ((x - x) / 2)%R with 0%R by lra.
  rewrite sqrt_0. apply RC_eq; simpl; [reflexivity|].
  destruct (Rle_dec 0 0); lra.
Qed.

(** and of one that is not positive: on the positive imaginary axis. *)
Lemma sqrt_real_nonpos (x : R) :
  (x <= 0)%R -> RC.sqrt (RC.mk x 0) = RC.mk 0 (sqrt (- x)).
Proof.
  intros Hx. unfold RC.sqrt. cbn [RC.re RC.im].
  replace (x * x + 0 * 0)%R with ((- x) * (- x))%R by ring.
  rewrite sqrt_square by lra.
  replace ((- x + x) / 2)%R with 0%R by lra.
  replace ((- x - x) / 2)%R with (- x)%R by lra.
  rewrite sqrt_0. apply RC_eq; simpl; [reflexivity|].
  destruct (Rle_dec 0 0); lra.
Qed.

(** The principal square root of [2 i s] for [s >= 0] is
    [sqrt(s) (1 + i)]. *)
Lemma sqrt_imag (s : R) :
  (0 <= s)%R -> RC.sqrt (RC.mk 0 (2 * s)) = RC.mk (sqrt s) (sqrt s).
Proof.
  intros Hs. unfold RC.sqrt. cbn [RC.re RC.im].
  replace (0 * 0 + 2 * s * (2 * s))%R with ((2 * s) * (2 * s))%R by ring.
  rewrite sqrt_square by lra.
  replace ((2 * s + 0) / 2)%R with s by lra.
  replace ((2 * s - 0) / 2)%R with s by lra.
  apply RC_eq; simpl; [reflexivity|].
  destruct (Rle_dec 0 (2 * s)); lra.
Qed.

(** The argument of the square root of the ellipse term at [q = i s]. *)
Lemma root_arg (l : nat) (s : R) :
  (l < 3)%nat ->
  Ellipse.root l (RC.mk 0 s)
  = RC.sqrt (RC.mk (Ellipse.ql_imag l * Ellipse.ql_imag l - s * s) 0).
Proof.
  intros Hl. destruct (ql_at_imaginary l Hl) as [Hre _].
  unfold Ellipse.root, Ellipse.ql_imag in *.
  destruct (Ellipse.ql_at l) as [a b]. simpl in Hre. subst a.
  f_equal. apply RC_eq; cbn [RC.re RC.im RC.mul RC.add RC.sub RC.of_R RC.opp]; ring.
Qed.

(** Inside the exceptional point the root is real, *)
Lemma root_inside (l : nat) (s : R) :
  (l < 3)%nat -> (0 <= s <= Ellipse.ql_imag l)%R ->
  Ellipse.root l (RC.mk 0 s)
  = RC.mk (sqrt (Ellipse.ql_imag l * Ellipse.ql_imag l - s * s)) 0.
Proof.
  intros Hl Hs. rewrite (root_arg l s Hl). apply sqrt_real_nonneg. nra.
Qed.

(** and past it imaginary. *)
Lemma root_outside (l : nat) (s : R) :
  (l < 3)%nat -> (Ellipse.ql_imag l <= s)%R ->
  Ellipse.root l (RC.mk 0 s)
  = RC.mk 0 (sqrt (s * s - Ellipse.ql_imag l * Ellipse.ql_imag l)).
Proof.
  intros Hl Hs. destruct (ql_at_imaginary l Hl) as [_ Hpos].
  rewrite (root_arg l s Hl), sqrt_real_nonpos by nra.
  do 2 f_equal. ring.
Qed.

(** The two region-I fits of a pair, as every cell writes them. *)
Lemma region_I_template (l : nat) (s : R) :
  (l < 3)%nat -> (0 <= s <= Ellipse.ql_imag l)%R ->
  on_ellipse l s
    (RC.sub (RC.of_R (Ellipse.gamma_at l))
            (RC.mul (RC.of_R (Ellipse.Delta_at l / Ellipse.ql_imag l))
                    (Ellipse.root l (RC.mk 0 s))))
  /\ on_ellipse l s
       (RC.add (RC.of_R (Ellipse.gamma_at l))
               (RC.mul (RC.of_R (Ellipse.Delta_at l / Ellipse.ql_imag l))
                       (Ellipse.root l (RC.mk 0 s))))
  /\ (RC.re (RC.sub (RC.of_R (Ellipse.gamma_at l))
                    (RC.mul (RC.of_R (Ellipse.Delta_at l / Ellipse.ql_imag l))
                            (Ellipse.root l (RC.mk 0 s))))
      <= Ellipse.gamma_at l
      <= RC.re (RC.add (RC.of_R (Ellipse.gamma_at l))
                       (RC.mul (RC.of_R (Ellipse.Delta_at l / Ellipse.ql_imag l))
                               (Ellipse.root l (RC.mk 0 s)))))%R.
Proof.
  intros Hl Hs. rewrite (root_inside l s Hl Hs).
  destruct (ql_at_imaginary l Hl) as [_ Hq].
  pose proof (Delta_at_pos l Hl) as HD.
  unfold on_ellipse. cbn [RC.re RC.im RC.sub RC.add RC.mul RC.of_R].
  set (q := Ellipse.ql_imag l) in *. set (D := Ellipse.Delta_at l) in *.
  set (g := Ellipse.gamma_at l).
  assert (Hx : (0 <= q * q - s * s)%R) by nra.
  pose proof (sqrt_sqrt _ Hx) as Hsq.
  pose proof (sqrt_pos (q * q - s * s)) as Hsp.
  set (w := sqrt (q * q - s * s)) in *.
  assert (Hr : (0 <= D / q * w)%R).
  { apply Rmult_le_pos; [|exact Hsp]. left. apply Rdiv_lt_0_compat; assumption. }
  repeat split; try lra.
  - replace ((g - (D / q * w - 0 * 0) - g) / D)%R with (- (w / q))%R
      by (field; lra).
    replace ((- (w / q)) ^ 2 + (s / q) ^ 2)%R
      with ((w * w + s * s) / (q * q))%R by (field; lra).
    rewrite Hsq. field. lra.
  - replace ((g + (D / q * w - 0 * 0) - g) / D)%R with (w / q)%R
      by (field; lra).
    replace ((w / q) ^ 2 + (s / q) ^ 2)%R
      with ((w * w + s * s) / (q * q))%R by (field; lra).
    rewrite Hsq. field. lra.
Qed.

(** X15: region I.  For every pair and every [q = i s] with
    [0 <= s <= |q_l|], both fits are real and lie on the ellipse
    [((a - gamma_l) / Delta_l)^2 + (s / |q_l|)^2 = 1], the lower one at or
    below the centre [gamma_l] and the upper one at or above it. *)
Theorem region_I_fits_on_ellipse (s : R) :
  ((0 <= s <= Ellipse.ql_imag 0)%R ->
     on_ellipse 0 s (Ellipse.Pair0.a0cs (RC.mk 0 s))
     /\ on_ellipse 0 s (Ellipse.Pair0.a2cs (RC.mk 0 s))
     /\ (RC.re (Ellipse.Pair0.a0cs (RC.mk 0 s)) <= Ellipse.gamma_at 0
         <= RC.re (Ellipse.Pair0.a2cs (RC.mk 0 s)))%R)
  /\ ((0 <= s <= Ellipse.ql_imag 1)%R ->
     on_ellipse 1 s (Ellipse.Pair1.a4cs (RC.mk 0 s))
     /\ on_ellipse 1 s (Ellipse.Pair1.a6cs (RC.mk 0 s))
     /\ (RC.re (Ellipse.Pair1.a4cs (RC.mk 0 s)) <= Ellipse.gamma_at 1
         <= RC.re (Ellipse.Pair1.a6cs (RC.mk 0 s)))%R)
  /\ ((0 <= s <= Ellipse.ql_imag 2)%R ->
     on_ellipse 2 s (Ellipse.Pair2.a8cs (RC.mk 0 s))
     /\ on_ellipse 2 s (Ellipse.Pair2.a10cs (RC.mk 0 s))
     /\ (RC.re (Ellipse.Pair2.a8cs (RC.mk 0 s)) <= Ellipse.gamma_at 2
         <= RC.re (Ellipse.Pair2.a10cs (RC.mk 0 s)))%R).
Proof.
  split; [|split]; intros Hs.
  - apply (region_I_template 0 s); [lia|exact Hs].
  - apply (region_I_template 1 s); [lia|exact Hs].
  - apply (region_I_template 2 s); [lia|exact Hs].
Qed.

Lemma region_I_fits_on_ellipse_witness :
  on_ellipse 0 0 (Ellipse.Pair0.a0cs (RC.mk 0 0)).
Proof.
  apply (proj1 (region_I_fits_on_ellipse 0)).
  split; [lra|]. left. apply (ql_at_imaginary 0). lia.
Defined.

(** A region-II fit with multiplier [c], as every cell writes it. *)
Lemma region_II_template (l : nat) (c s : R) :
  (l < 3)%nat -> (Ellipse.ql_imag l <= s)%R ->
  RC.mul (RC.of_R (c * (Ellipse.Delta_at l / Ellipse.ql_imag l)))
         (Ellipse.root l (RC.mk 0 s))
  = RC.mk 0 (c * (Ellipse.Delta_at l / Ellipse.ql_imag l)
             * sqrt (s * s - Ellipse.ql_imag l * Ellipse.ql_imag l)).
Proof.
  intros Hl Hs. rewrite (root_outside l s Hl Hs).
  apply RC_eq; cbn [RC.re RC.im RC.mul RC.add RC.sub RC.of_R RC.opp]; ring.
Qed.

(** X16: region II.  For every pair and every [q = i s] with
    [s >= |q_l|], both fits are purely imaginary and opposite:
    [a = -/+ i c (Delta_l / |q_l|) sqrt(s^2 - |q_l|^2)], with [c = 1],
    [1.95] and [2.5] for the three pairs. *)
Theorem region_II_fits_imaginary (s : R) :
  ((Ellipse.ql_imag 0 <= s)%R ->
     Ellipse.Pair0.a2cl1 (RC.mk 0 s)
     = RC.mk 0 (Ellipse.Delta_at 0 / Ellipse.ql_imag 0
                * sqrt (s * s - Ellipse.ql_imag 0 * Ellipse.ql_imag 0))
     /\ Ellipse.Pair0.a0cl1 (RC.mk 0 s)
        = RC.opp (Ellipse.Pair0.a2cl1 (RC.mk 0 s)))
  /\ ((Ellipse.ql_imag 1 <= s)%R ->
     Ellipse.Pair1.a6cl1 (RC.mk 0 s)
     = RC.mk 0 (1.95 * (Ellipse.Delta_at 1 / Ellipse.ql_imag 1)
                * sqrt (s * s - Ellipse.ql_imag 1 * Ellipse.ql_imag 1))
     /\ Ellipse.Pair1.a4cl1 (RC.mk 0 s)
        = RC.opp (Ellipse.Pair1.a6cl1 (RC.mk 0 s)))
  /\ ((Ellipse.ql_imag 2 <= s)%R ->
     Ellipse.Pair2.a10cl1 (RC.mk 0 s)
     = RC.mk 0 (2.5 * (Ellipse.Delta_at 2 / Ellipse.ql_imag 2)
                * sqrt (s * s - Ellipse.ql_imag 2 * Ellipse.ql_imag 2))
     /\ Ellipse.Pair2.a8cl1 (RC.mk 0 s)
        = RC.opp (Ellipse.Pair2.a10cl1 (RC.mk 0 s))).
Proof.
  split; [|split]; intros Hs.
  - unfold Ellipse.Pair0.a2cl1, Ellipse.Pair0.a0cl1, Ellipse.Pair0.l.
    rewrite (root_outside 0 s ltac:(lia) Hs).
    generalize (sqrt (s * s - Ellipse.ql_imag 0 * Ellipse.ql_imag 0)).
    generalize (Ellipse.Delta_at 0 / Ellipse.ql_imag 0)%R. intros D w.
    split; apply RC_eq; cbn [RC.re RC.im RC.mul RC.add RC.sub RC.of_R RC.opp];
      nra.
  - unfold Ellipse.Pair1.a6cl1, Ellipse.Pair1.a4cl1, Ellipse.Pair1.l.
    rewrite (root_outside 1 s ltac:(lia) Hs).
    generalize (sqrt (s * s - Ellipse.ql_imag 1 * Ellipse.ql_imag 1)).
    generalize (Ellipse.Delta_at 1 / Ellipse.ql_imag 1)%R. intros D w.
    split; apply RC_eq; cbn [RC.re RC.im RC.mul RC.add RC.sub RC.of_R RC.opp];
      nra.
  - unfold Ellipse.Pair2.a10cl1, Ellipse.Pair2.a8cl1, Ellipse.Pair2.l.
    rewrite (root_outside 2 s ltac:(lia) Hs).
    generalize (sqrt (s * s - Ellipse.ql_imag 2 * Ellipse.ql_imag 2)).
    generalize (Ellipse.Delta_at 2 / Ellipse.ql_imag 2)%R. intros D w.
    split; apply RC_eq; cbn [RC.re RC.im RC.mul RC.add RC.sub RC.of_R RC.opp];
      nra.
Qed.

Lemma region_II_fits_imaginary_witness :
  Ellipse.Pair0.a0cl1 (RC.mk 0 (Ellipse.ql_imag 0))
  = RC.opp (Ellipse.Pair0.a2cl1 (RC.mk 0 (Ellipse.ql_imag 0))).
Proof.
  apply (proj1 (region_II_fits_imaginary (Ellipse.ql_imag 0))). lra.
Defined.

(** A region-III fit with coefficient [c], as every cell writes it. *)
Lemma region_III_template (l : nat) (c s : R) :
  (0 <= s)%R ->
  RC.add (RC.mul (RC.of_R c) (RC.sqrt (RC.mul (RC.mk 0 s) (RC.mk 0 s))))
         (RC.mul (RC.of_R (INR (4 * l + 1)))
                 (RC.sqrt (RC.mul (RC.of_R 2) (RC.mk 0 s))))
  = RC.mk (INR (4 * l + 1) * sqrt s) (c * s + INR (4 * l + 1) * sqrt s).
Proof.
  intros Hs.
  replace (RC.mul (RC.mk 0 s) (RC.mk 0 s)) with (RC.mk (- (s * s)) 0)
    by (apply RC_eq; cbn [RC.re RC.im RC.mul RC.add RC.sub RC.of_R RC.opp]; ring).
  replace (RC.mul (RC.of_R 2) (RC.mk 0 s)) with (RC.mk 0 (2 * s))
    by (apply RC_eq; cbn [RC.re RC.im RC.mul RC.add RC.sub RC.of_R RC.opp]; ring).
  rewrite sqrt_real_nonpos by nra. rewrite sqrt_imag by exact Hs.
  replace (- - (s * s))%R with (s * s)%R by ring.
  rewrite sqrt_square by exact Hs.
  apply RC_eq; cbn [RC.re RC.im RC.mul RC.add RC.sub RC.of_R RC.opp]; ring.
Qed.

(** X17: region III.  For every pair and every [q = i s] with [s >= 0]
    the lower fit is [(4 l + 1) sqrt(s) + i ((4 l + 1) sqrt(s) - c s)]
    with [c = 2], [1.9] and [1.75], and the upper fit is its opposite: the
    fits of this region are not purely imaginary, their real part is
    [+/- (4 l + 1) sqrt(s)]. *)
Theorem region_III_fits_values (s : R) :
  (0 <= s)%R ->
  (Ellipse.Pair0.a0cl2 (RC.mk 0 s) = RC.mk (sqrt s) (sqrt s - 2 * s)
   /\ Ellipse.Pair0.a2cl2 (RC.mk 0 s)
      = RC.opp (Ellipse.Pair0.a0cl2 (RC.mk 0 s)))
  /\ (Ellipse.Pair1.a4cl2 (RC.mk 0 s)
      = RC.mk (5 * sqrt s) (5 * sqrt s - 1.9 * s)
      /\ Ellipse.Pair1.a6cl2 (RC.mk 0 s)
         = RC.opp (Ellipse.Pair1.a4cl2 (RC.mk 0 s)))
  /\ (Ellipse.Pair2.a8cl2 (RC.mk 0 s)
      = RC.mk (9 * sqrt s) (9 * sqrt s - 1.75 * s)
      /\ Ellipse.Pair2.a10cl2 (RC.mk 0 s)
         = RC.opp (Ellipse.Pair2.a8cl2 (RC.mk 0 s))).
Proof.
  intros Hs.
  assert (Hhi : forall (l : nat) (c c' : R), c' = (- c)%R ->
            RC.sub (RC.mul (RC.of_R c)
                           (RC.sqrt (RC.mul (RC.mk 0 s) (RC.mk 0 s))))
                   (RC.mul (RC.of_R (INR (4 * l + 1)))
                           (RC.sqrt (RC.mul (RC.of_R 2) (RC.mk 0 s))))
            = RC.opp (RC.add (RC.mul (RC.of_R c')
                                     (RC.sqrt (RC.mul (RC.mk 0 s) (RC.mk 0 s))))
                             (RC.mul (RC.of_R (INR (4 * l + 1)))
                                     (RC.sqrt (RC.mul (RC.of_R 2) (RC.mk 0 s)))))).
  { intros l c c' ->.
    generalize (RC.sqrt (RC.mul (RC.mk 0 s) (RC.mk 0 s))).
    generalize (RC.sqrt (RC.mul (RC.of_R 2) (RC.mk 0 s))).
    intros u v. apply RC_eq; cbn [RC.re RC.im RC.mul RC.add RC.sub RC.of_R RC.opp]; ring. }
  split; [|split].
  - unfold Ellipse.Pair0.a0cl2, Ellipse.Pair0.a2cl2, Ellipse.Pair0.l.
    split; [|apply Hhi; lra].
    rewrite (region_III_template 0 (- 2) s Hs). generalize (sqrt s).
    intros w. apply RC_eq; cbn [RC.re RC.im]; simpl INR; lra.
  - unfold Ellipse.Pair1.a4cl2, Ellipse.Pair1.a6cl2, Ellipse.Pair1.l.
    split; [|apply Hhi; lra].
    rewrite (region_III_template 1 (- 1.9) s Hs). generalize (sqrt s).
    intros w. apply RC_eq; cbn [RC.re RC.im]; simpl INR; lra.
  - unfold Ellipse.Pair2.a8cl2, Ellipse.Pair2.a10cl2, Ellipse.Pair2.l.
    split; [|apply Hhi; lra].
    rewrite (region_III_template 2 (- 1.75) s Hs). generalize (sqrt s).
    intros w. apply RC_eq; cbn [RC.re RC.im]; simpl INR; lra.
Qed.

Lemma region_III_fits_values_witness :
  Ellipse.Pair1.a4cl2 (RC.mk 0 4) = RC.mk (5 * sqrt 4) (5 * sqrt 4 - 1.9 * 4).
Proof.
  apply (proj1 (proj1 (proj2 (region_III_fits_values 4 ltac:(lra))))).
Defined.

(** ** The multipliers of the fits *)


















